(** * Semi-classical subset state preparation: a shallow embedding

    The Python sources under [src/] synthesise a circuit that prepares a
    uniform superposition over a subset of basis states.  This file embeds
    the combinatorial core of that pipeline (prefix sequences, partition
    counts, control tags, cycle following, Gray-code gates and the entry
    validation) and proves properties of it.

    Conventions.
    - Python [int] is [Z]; Python [str] is [list ascii] (type [str]).
    - Exceptions and loops that may run forever are made explicit by the
      [outcome] monad: [Ret v], [Raise e] or [OutOfFuel].
    - Floating point is not modelled.  [math.ceil(math.log2(c))] is taken
      exact ([Z.log2_up]), and a rotation angle is kept symbolically as the
      pair of counts it is computed from. *)

From Stdlib Require Import String Ascii ZArith List Bool Lia.
From Stdlib Require Import DecimalString.
From Stdlib Require DecimalZ.
Import ListNotations.
Local Open Scope char_scope.
Local Open Scope Z_scope.

(** ** Outcomes of Python computations *)

Inductive exn : Type :=
| ValueError
| IndexError
| OverflowError.

Inductive outcome (A : Type) : Type :=
| Ret (a : A)
| Raise (e : exn)
| OutOfFuel.

Arguments Ret {A} a.
Arguments Raise {A} e.
Arguments OutOfFuel {A}.

Definition bind {A B : Type} (m : outcome A) (k : A -> outcome B) : outcome B :=
  match m with
  | Ret a => k a
  | Raise e => Raise e
  | OutOfFuel => OutOfFuel
  end.

Declare Scope py_scope.
Delimit Scope py_scope with py.
Notation "x <- m ;; k" := (bind m (fun x => k))
  (at level 61, m at next level, right associativity) : py_scope.
Notation "' pat <- m ;; k" := (bind m (fun x => match x with pat => k end))
  (at level 61, pat pattern, m at next level, right associativity) : py_scope.
Local Open Scope py_scope.

(** Python [str]. *)
Abbreviation str := (list ascii) (only parsing).

Definition str_eqb (s t : str) : bool :=
  if list_eq_dec ascii_dec s t then true else false.

(** ** Python built-ins used by the sources *)

Module Py.

Definition len {A : Type} (l : list A) : Z := Z.of_nat (length l).

(** [range(n)] and [range(a, b)]. *)
Definition range (n : Z) : list Z := map Z.of_nat (seq 0 (Z.to_nat n)).
Definition range2 (a b : Z) : list Z :=
  map (fun k => a + Z.of_nat k) (seq 0 (Z.to_nat (b - a))).

(** [l[j]] with Python's negative indices and [IndexError]. *)
Definition getitem {A : Type} (l : list A) (j : Z) : outcome A :=
  let k := if j <? 0 then j + len l else j in
  if (k <? 0) || (len l <=? k) then Raise IndexError
  else match nth_error l (Z.to_nat k) with
       | Some a => Ret a
       | None => Raise IndexError
       end.

Fixpoint update {A : Type} (l : list A) (k : nat) (v : A) : list A :=
  match l, k with
  | [], _ => []
  | _ :: t, O => v :: t
  | h :: t, S k' => h :: update t k' v
  end.

(** [l[j] = v]. *)
Definition setitem {A : Type} (l : list A) (j : Z) (v : A) : outcome (list A) :=
  let k := if j <? 0 then j + len l else j in
  if (k <? 0) || (len l <=? k) then Raise IndexError
  else Ret (update l (Z.to_nat k) v).

(** Binary digits of a positive number, most significant first. *)
Fixpoint bin_pos (p : positive) (acc : str) : str :=
  match p with
  | xH => "1" :: acc
  | xO q => bin_pos q ("0" :: acc)
  | xI q => bin_pos q ("1" :: acc)
  end.

(** [bin(x)]: ['0b101'], ['-0b101'], ['0b0']. *)
Definition bin (x : Z) : str :=
  match x with
  | Z0 => ["0"; "b"; "0"]
  | Zpos p => "0" :: "b" :: bin_pos p []
  | Zneg p => "-" :: "0" :: "b" :: bin_pos p []
  end.

(** [s.zfill(width)]: zeros go after a leading sign. *)
Definition zfill (width : Z) (s : str) : str :=
  let pad := repeat "0" (Z.to_nat (width - len s)) in
  match s with
  | c :: rest =>
      if Ascii.eqb c "+" || Ascii.eqb c "-" then c :: pad ++ rest
      else pad ++ s
  | [] => pad
  end.

(** [f"{x:0{width}b}"] for [width >= 0] (sign-aware zero padding). *)
Definition format_0b (width x : Z) : str :=
  match x with
  | Z0 => zfill width ["0"]
  | Zpos p => zfill width (bin_pos p [])
  | Zneg p => zfill width ("-" :: bin_pos p [])
  end.

(** [int(c)] for a one-character string. *)
Definition int_of_char (c : ascii) : outcome Z :=
  let k := Z.of_nat (nat_of_ascii c) in
  if (48 <=? k) && (k <=? 57) then Ret (k - 48) else Raise ValueError.

(** [max(l)]; raises [ValueError] on the empty list. *)
Definition max (l : list Z) : outcome Z :=
  match l with
  | [] => Raise ValueError
  | x :: t => Ret (fold_left Z.max t x)
  end.

Fixpoint mapM {A B : Type} (f : A -> outcome B) (l : list A) : outcome (list B) :=
  match l with
  | [] => Ret []
  | a :: t => b <- f a ;; bs <- mapM f t ;; Ret (b :: bs)
  end.

(** [[a for a in l if f(a)]] where the condition may raise. *)
Fixpoint filterM {A : Type} (f : A -> outcome bool) (l : list A) : outcome (list A) :=
  match l with
  | [] => Ret []
  | a :: t =>
      b <- f a ;; r <- filterM f t ;; Ret (if b then a :: r else r)
  end.

(** [math.ceil(math.log2(c))] and [math.ceil(np.log2(c))] for [c >= 1], as
    the exact ceiling of the base-2 logarithm.  The code takes the logarithm
    in float64.  Up to [2^48] that leaves the ceiling unchanged: a float64
    [log2] that is exact on powers of two and less than one unit in the last
    place off elsewhere stays strictly between the two integers around the
    real logarithm.  Above [2^48] it need not (the float64 nearest to
    [log2(2^49 + 1)] is 49.0, whose ceiling is 49 and not 50), and from
    [2^64] on numpy no longer takes the argument as a 64-bit integer.
    Statements that depend on the ceiling at a given argument are therefore
    made for arguments up to [log2_exact_bound]. *)
Definition ceil_log2 (c : Z) : Z := Z.log2_up c.

Definition log2_exact_bound : Z := 2 ^ 48.

(** [math.ceil(np.log2(c))]: [np.log2] gives [-inf] at 0 and [nan] below,
    on which [math.ceil] raises; for [c >= 1] see [ceil_log2]. *)
Definition np_ceil_log2 (c : Z) : outcome Z :=
  if c =? 0 then Raise OverflowError
  else if c <? 0 then Raise ValueError
  else Ret (ceil_log2 c).

(** [x < 2**n] and [x > 2**n]; [2**n] is a float in (0, 1) when [n < 0]. *)
Definition lt_pow2 (x n : Z) : bool :=
  if n <? 0 then x <=? 0 else x <? 2 ^ n.
Definition gt_pow2 (x n : Z) : bool :=
  if n <? 0 then 0 <? x else 2 ^ n <? x.

(** [l[:k]]. *)
Definition slice_to {A : Type} (l : list A) (k : Z) : list A :=
  if k <? 0 then firstn (Z.to_nat (len l + k)) l else firstn (Z.to_nat k) l.

(** [enumerate(l)]. *)
Definition enumerate {A : Type} (l : list A) : list (Z * A) :=
  combine (range (len l)) l.

(** [f"{prefix}{i}"] for an integer [i]. *)
Definition fstring (prefix : string) (i : Z) : string :=
  (prefix ++ NilZero.string_of_int (Z.to_int i))%string.

End Py.

(** ** utility/grover_rudolph_angles.py *)

(** The float [2 * acos(sqrt(N0 / (N0 + N1)))], kept as its two counts. *)
Inductive angle : Type :=
| TwoAcosSqrt (N0 N1 : Z).

(** Result of running the body of a [for] loop that may [return]. *)
Inductive flow (A : Type) : Type :=
| Continue (a : A)
| Return (a : A).

Arguments Continue {A} a.
Arguments Return {A} a.

Module GroverRudolphAngles.

Record t : Type := Build { card : Z }.

Definition init (card : Z) : outcome t :=
  if card <=? 2 then Raise ValueError else Ret (Build card).

(** The [for i in range(num_strings_at_length)] loop. *)
Fixpoint prefix_for (num_to_generate length : Z) (idxs : list Z)
    (result_list : list str) : flow (list str) :=
  match idxs with
  | [] => Continue result_list
  | i :: idxs' =>
      let binary_string := Py.zfill length (skipn 2 (Py.bin i)) in
      let result_list := result_list ++ [binary_string] in
      if Py.len result_list =? num_to_generate then Return result_list
      else prefix_for num_to_generate length idxs' result_list
  end.

(** The [while len(result_list) < num_to_generate] loop; [fuel] bounds the
    number of times its body runs. *)
Fixpoint prefix_while (fuel : nat) (num_to_generate length : Z)
    (result_list : list str) : outcome (list str) :=
  if Py.len result_list <? num_to_generate then
    match fuel with
    | O => OutOfFuel
    | S fuel' =>
        let num_strings_at_length := 2 ^ length in
        match prefix_for num_to_generate length
                (Py.range num_strings_at_length) result_list with
        | Return r => Ret r
        | Continue r => prefix_while fuel' num_to_generate (length + 1) r
        end
    end
  else Ret result_list.

Definition generate_prefix_binary_sequence_fuel (fuel : nat) (self : t)
  : outcome (list str) :=
  if card self <=? 2 then Ret []
  else
    let num_to_generate := card self - 2 in
    prefix_while fuel num_to_generate 1 [].

(** Every pass of the loop body appends at least two strings, so [card]
    passes always suffice (see [generate_prefix_fuel_irrelevant]). *)
Definition generate_prefix_binary_sequence (self : t) : outcome (list str) :=
  generate_prefix_binary_sequence_fuel (Z.to_nat (card self)) self.

Definition first_char_is (c : ascii) (i : str * str) : outcome bool :=
  ch <- Py.getitem (snd i) 0 ;; Ret (Ascii.eqb ch c).

Definition partition_counter (self : t) (prefix : str) : outcome (Z * Z) :=
  if card self <=? 2 then Raise ValueError
  else
    let n := Py.ceil_log2 (card self) in
    let l := length prefix in
    let bin_vals := map (Py.format_0b n) (Py.range (card self)) in
    let rev_bin_vals := map (@rev ascii) bin_vals in
    let cond_bin_vals :=
      map (fun i => (i, skipn l i))
          (filter (fun i => str_eqb (firstn l i) prefix) rev_bin_vals) in
    list_N0 <- Py.filterM (first_char_is "0") cond_bin_vals ;;
    list_N1 <- Py.filterM (first_char_is "1") cond_bin_vals ;;
    let N0 := Py.len list_N0 in
    let N1 := Py.len list_N1 in
    Ret (N0, N1).

Definition partition_angle (N0 N1 : Z) : outcome angle :=
  if N0 + N1 =? 0 then Raise ValueError
  else Ret (TwoAcosSqrt N0 N1).

(** The [for prefix in binary_sequence] loop of [get_angles]. *)
Fixpoint get_angles_for (self : t) (binary_sequence : list str)
    (angle_lst : list angle) : outcome (list angle) :=
  match binary_sequence with
  | [] => Ret angle_lst
  | prefix :: rest =>
      '(N_0, N_1) <- partition_counter self prefix ;;
      angle <- partition_angle N_0 N_1 ;;
      get_angles_for self rest (angle_lst ++ [angle])
  end.

Definition get_angles (self : t) : outcome (list angle) :=
  seq <- generate_prefix_binary_sequence self ;;
  let binary_sequence := [] :: seq in
  get_angles_for self binary_sequence [].

End GroverRudolphAngles.

(** ** cirq values

    cirq is a library outside the sources; its qubits, gates and operations
    are kept as plain data.  [ControlledGate g k vs] is
    [g.controlled(num_controls=k, control_values=vs)] and [on g qs] is
    [g.on( *qs )] for pairwise distinct [qs]: cirq raises [ValueError] when
    an operation names a qubit twice, so what is stated of operations on
    qubits that the caller supplies is stated for distinct qubits. *)

Inductive Qid : Type :=
| NamedQubit (name : string)
| LineQubit (x : Z).

Inductive Gate : Type :=
| Ry (rads : angle)
| X
| GrayCode (num_qubits : Z) (binary_str_1 binary_str_2 : str)
| ControlledGate (sub_gate : Gate) (num_controls : Z) (control_values : list Z).

Inductive Operation : Type :=
| on (gate : Gate) (qubits : list Qid).

Definition op_qubits (o : Operation) : list Qid :=
  match o with on _ qs => qs end.

(** ** utility/grover_rudolph_circuit.py *)

Module GroverRudolphCircuit.

Record t : Type := Build { card : Z }.

Definition init (card : Z) : outcome t :=
  if card <=? 2 then Raise ValueError else Ret (Build card).

(** The tuple [(l, R, bin_sig, ctrl_sig)]. *)
Record tag : Type := Tag {
  tag_l : Z;
  tag_R : Z;
  tag_bin_sig : str;
  tag_ctrl_sig : list Z
}.

Definition control_tag (self : t) (c : Z) : outcome tag :=
  let steps := c - 1 in
  log <- Py.np_ceil_log2 c ;;
  let l := log - 1 in
  (* for l < 0, R is a float and the 'b' format raises *)
  if l <? 0 then Raise ValueError
  else
    let R := steps - 2 ^ l in
    let bin_sig := Py.format_0b l R in
    ctrl_sig <- Py.mapM Py.int_of_char bin_sig ;;
    Ret (Tag l R bin_sig ctrl_sig).

Definition control_tag_list (self : t) : outcome (list (Z * tag)) :=
  if card self <? 3 then Raise ValueError
  else
    Py.mapM (fun c => tg <- control_tag self c ;; Ret (c, tg))
            (Py.range2 3 (card self + 1)).

(** Body of [for step in range(3, c + 1)], with [verbose] false. *)
Definition circuit_step (tags : list (Z * tag)) (qubits : list Qid)
    (angle_lst : list angle) (circuit : list Operation) (step : Z)
  : outcome (list Operation) :=
  let ctrl_sig i := tg <- Py.getitem tags i ;; Ret (tag_ctrl_sig (snd tg)) in
  let group i := tg <- Py.getitem tags i ;; Ret (tag_l (snd tg)) in
  let shift_step := step - 3 in
  g <- group shift_step ;;
  let ctrl_qb_group := Py.slice_to qubits g in
  g' <- group shift_step ;;
  target_qb <- Py.getitem qubits g' ;;
  angle <- Py.getitem angle_lst (step - 2) ;;
  k <- group shift_step ;;
  vs <- ctrl_sig shift_step ;;
  let ctrl_ry_gate := ControlledGate (Ry angle) k vs in
  Ret (circuit ++ [on ctrl_ry_gate (ctrl_qb_group ++ [target_qb])]).

Fixpoint circuit_for (tags : list (Z * tag)) (qubits : list Qid)
    (angle_lst : list angle) (steps : list Z) (circuit : list Operation)
  : outcome (list Operation) :=
  match steps with
  | [] => Ret circuit
  | step :: rest =>
      circuit <- circuit_step tags qubits angle_lst circuit step ;;
      circuit_for tags qubits angle_lst rest circuit
  end.

Definition generate_circuit (self : t) (num_qbs : Z) : outcome (list Operation) :=
  if card self <=? 2 then Raise ValueError
  else if (num_qbs <=? 0) || (num_qbs <? Py.ceil_log2 (card self))
  then Raise ValueError
  else
    let n := num_qbs in
    let c := card self in
    angles <- GroverRudolphAngles.init c ;;
    angle_lst <- GroverRudolphAngles.get_angles angles ;;
    tags <- control_tag_list self ;;
    let qubits := map (fun i => NamedQubit (Py.fstring "x" i)) (Py.range n) in
    let qubits := rev qubits in
    let circuit := [] in
    if card self =? 2 then
      a0 <- Py.getitem angle_lst 0 ;;
      q0 <- Py.getitem qubits 0 ;;
      Ret (circuit ++ [on (Ry a0) [q0]])
    else
      a0 <- Py.getitem angle_lst 0 ;;
      q0 <- Py.getitem qubits 0 ;;
      let circuit := circuit ++ [on (Ry a0) [q0]] in
      circuit_for tags qubits angle_lst (Py.range2 3 (c + 1)) circuit.

End GroverRudolphCircuit.

Module gr_gate.

Record t : Type := Build { num_qubits : Z; card : Z }.

Definition init (num_qubits card : Z) : outcome t :=
  if card <=? 2 then Raise ValueError
  else if (num_qubits <=? 0) || (num_qubits <? Py.ceil_log2 card)
  then Raise ValueError
  else Ret (Build num_qubits card).

Definition _num_qubits_ (self : t) : Z := num_qubits self.

(** Everything the generator yields: the operations of the generated
    circuit, in the order they were appended.  The call passes
    [verbose=True], which only prints values the construction computes
    anyway. *)
Definition _decompose_ (self : t) (qubits : list Qid) : outcome (list Operation) :=
  if negb (Py.len qubits =? num_qubits self) then Raise ValueError
  else
    gr_circuit <- GroverRudolphCircuit.init (card self) ;;
    GroverRudolphCircuit.generate_circuit gr_circuit (num_qubits self).

End gr_gate.

(** ** utility/subset_permutation.py *)

Module SubsetPermutation.

Record t : Type := Build {
  gr_subset : list Z;
  target_subset : list Z
}.

(** The [while j < d] loop; [fuel] bounds the number of times its body
    runs. *)
Fixpoint cycle_while (fuel : nat) (self : t) (d : Z) (used : list bool)
    (j : Z) (cycle : list Z) : outcome (list bool * list Z) :=
  if j <? d then
    match fuel with
    | O => OutOfFuel
    | S fuel' =>
        used <- Py.setitem used j true ;;
        j <- Py.getitem (target_subset self) j ;;
        cycle_while fuel' self d used j (cycle ++ [j])
    end
  else Ret (used, cycle).

(** The [for i in range(d)] loop. *)
Fixpoint cycles_for (fuel : nat) (self : t) (d : Z) (idxs : list Z)
    (used : list bool) (cycles : list (list Z)) : outcome (list (list Z)) :=
  match idxs with
  | [] => Ret cycles
  | i :: rest =>
      u <- Py.getitem used i ;;
      skip <- (if u : bool then Ret true
               else ti <- Py.getitem (target_subset self) i ;; Ret (ti =? i)) ;;
      if skip : bool then cycles_for fuel self d rest used cycles
      else
        ti <- Py.getitem (target_subset self) i ;;
        let cycle := [i; ti] in
        let j := ti in
        '(used, cycle) <- cycle_while fuel self d used j cycle ;;
        cycles_for fuel self d rest used (cycles ++ [cycle])
  end.

Definition permutation_cycles (fuel : nat) (self : t) : outcome (list (list Z)) :=
  let d := Py.len (target_subset self) in
  let used := repeat false (Z.to_nat d) in
  let cycles := [] in
  cycles_for fuel self d (Py.range d) used cycles.

(** A Python [dict] from [int] to [int]: keys in insertion order;
    [d[k] = v] on a key already present keeps its place. *)
Fixpoint dict_set (d : list (Z * Z)) (k v : Z) : list (Z * Z) :=
  match d with
  | [] => [(k, v)]
  | (k', v') :: rest =>
      if k' =? k then (k', v) :: rest else (k', v') :: dict_set rest k v
  end.

Fixpoint dict_get (d : list (Z * Z)) (k : Z) : option Z :=
  match d with
  | [] => None
  | (k', v') :: rest => if k' =? k then Some v' else dict_get rest k
  end.

(** [', '.join(f"{k} -> {v}" for k, v in d.items())]. *)
Fixpoint dict_to_str (d : list (Z * Z)) : string :=
  match d with
  | [] => EmptyString
  | (k, v) :: rest =>
      let item := (Py.fstring "" k ++ " -> " ++ Py.fstring "" v)%string in
      match rest with
      | [] => item
      | _ => (item ++ ", " ++ dict_to_str rest)%string
      end
  end.

(** The [for i in range(len(self.gr_subset))] loop. *)
Fixpoint matching_for (self : t) (idxs : list Z) (mapping : list (Z * Z))
  : outcome (list (Z * Z)) :=
  match idxs with
  | [] => Ret mapping
  | i :: rest =>
      v <- Py.getitem (target_subset self) i ;;
      k <- Py.getitem (gr_subset self) i ;;
      matching_for self rest (dict_set mapping k v)
  end.

Definition subset_element_matching (self : t)
  : outcome (list (Z * Z) * string) :=
  if negb (Py.len (gr_subset self) =? Py.len (target_subset self))
  then Raise ValueError
  else
    mapping <- matching_for self (Py.range (Py.len (gr_subset self))) [] ;;
    Ret (mapping, dict_to_str mapping).

End SubsetPermutation.

(** ** utility/permutation_circuits.py *)

Module gray_code_gate.

Record t : Type := Build {
  _num_qubits : Z;
  binary_str_1 : str;
  binary_str_2 : str
}.

Definition init (num_qubits : Z) (binary_str_1 binary_str_2 : str) : outcome t :=
  if num_qubits <? 0 then Raise ValueError
  else if negb (Py.len binary_str_1 =? num_qubits)
          || negb (Py.len binary_str_2 =? num_qubits)
  then Raise ValueError
  else Ret (Build num_qubits binary_str_1 binary_str_2).

Definition gate (self : t) : Gate :=
  GrayCode (_num_qubits self) (binary_str_1 self) (binary_str_2 self).

(** [int(b1) ^ int(b2)] over [zip(binary_str_1, binary_str_2)]. *)
Definition xor_chars (b : ascii * ascii) : outcome Z :=
  x <- Py.int_of_char (fst b) ;;
  y <- Py.int_of_char (snd b) ;;
  Ret (Z.lxor x y).

(** The [for i, bit in enumerate(gray_code_vector)] loop, collecting what
    it yields. *)
Fixpoint decompose_for (qubits : list Qid) (ibits : list (Z * Z))
  : outcome (list Operation) :=
  match ibits with
  | [] => Ret []
  | (i, bit) :: rest =>
      if bit =? 1 then
        q <- Py.getitem qubits i ;;
        ops <- decompose_for qubits rest ;;
        Ret (on X [q] :: ops)
      else decompose_for qubits rest
  end.

Definition _decompose_ (self : t) (qubits : list Qid) : outcome (list Operation) :=
  gray_code_vector <-
    Py.mapM xor_chars (combine (binary_str_1 self) (binary_str_2 self)) ;;
  decompose_for qubits (Py.enumerate gray_code_vector).

End gray_code_gate.

(** The [for i, bit in enumerate(gray_code_vector)] loop of
    [gray_code_rotation_circuit], appending to [circuit]. *)
Fixpoint rotation_for (qubits : list Qid) (ibits : list (Z * Z))
    (circuit : list Operation) : outcome (list Operation) :=
  match ibits with
  | [] => Ret circuit
  | (i, bit) :: rest =>
      if bit =? 1 then
        q <- Py.getitem qubits i ;;
        rotation_for qubits rest (circuit ++ [on X [q]])
      else rotation_for qubits rest circuit
  end.

Definition gray_code_rotation_circuit (num_qubits : Z)
    (gray_code_vector : list Z) : outcome (list Operation) :=
  if num_qubits <? 0 then Raise ValueError
  else if negb (forallb (fun _ => true) gray_code_vector) then Raise ValueError
  else if negb (Py.len gray_code_vector =? num_qubits) then Raise ValueError
  else
    let qubits :=
      map (fun i => NamedQubit (Py.fstring "x_" i)) (Py.range2 0 num_qubits) in
    let circuit := [] in
    rotation_for qubits (Py.enumerate gray_code_vector) circuit.

Definition bin_ctrl_tag (binary_string : str) : outcome (list Z) :=
  Py.mapM Py.int_of_char binary_string.

Module permutation_cycle_gate.

Record t : Type := Build { n : Z; cycle : list Z }.

Definition init (num_qubits : Z) (cycle : list Z) : outcome t :=
  if negb (forallb (fun x => (0 <=? x) && Py.lt_pow2 x num_qubits) cycle)
  then Raise ValueError
  else Ret (Build num_qubits cycle).

Definition _num_qubits_ (self : t) : Z := n self + 1.

(** Body of [for k in range(l)]: the two operations it yields. *)
Definition decompose_step (self : t) (data_qubits : list Qid) (ancilla : Qid)
    (l k : Z) : outcome (list Operation) :=
  x_k <- Py.getitem (cycle self) k ;;
  x_kp1 <- Py.getitem (cycle self) ((k + 1) mod l) ;;
  let bin_k := Py.zfill (n self) (skipn 2 (Py.bin x_k)) in
  let bin_kp1 := Py.zfill (n self) (skipn 2 (Py.bin x_kp1)) in
  ctrl_vals <- Py.mapM Py.int_of_char bin_k ;;
  let mcx_gate := ControlledGate X (n self) ctrl_vals in
  let op1 := on mcx_gate (data_qubits ++ [ancilla]) in
  gc_gate <- gray_code_gate.init (n self) bin_k bin_kp1 ;;
  let controlled_gc := ControlledGate (gray_code_gate.gate gc_gate) 1 [1] in
  let op2 := on controlled_gc (ancilla :: data_qubits) in
  Ret [op1; op2].

Fixpoint decompose_for (self : t) (data_qubits : list Qid) (ancilla : Qid)
    (l : Z) (ks : list Z) : outcome (list Operation) :=
  match ks with
  | [] => Ret []
  | k :: rest =>
      ops <- decompose_step self data_qubits ancilla l k ;;
      more <- decompose_for self data_qubits ancilla l rest ;;
      Ret (ops ++ more)
  end.

Definition _decompose_ (self : t) (qubits : list Qid) : outcome (list Operation) :=
  let data_qubits := Py.slice_to qubits (n self) in
  ancilla <- Py.getitem qubits (n self) ;;
  let l := Py.len (cycle self) in
  ops <- decompose_for self data_qubits ancilla l (Py.range l) ;;
  x_0 <- Py.getitem (cycle self) 0 ;;
  let bin_0 := Py.zfill (n self) (skipn 2 (Py.bin x_0)) in
  ctrl_vals_0 <- Py.mapM Py.int_of_char bin_0 ;;
  let mcx_final := ControlledGate X (n self) ctrl_vals_0 in
  Ret (ops ++ [on mcx_final (data_qubits ++ [ancilla])]).

End permutation_cycle_gate.

(** ** utility/subset_generator.py *)

Module SubsetGenerator.

Record t : Type := Build { n : Z; card : Z }.

(** [1 << n]; a negative shift count raises. *)
Definition shift_one (n : Z) : outcome Z :=
  if n <? 0 then Raise ValueError else Ret (Z.shiftl 1 n).

(** The [for i in range(self.card)] loop of the decimal branch. *)
Fixpoint check_elements (self : t) (subset : list Z) (idxs : list Z)
  : outcome unit :=
  match idxs with
  | [] => Ret tt
  | i :: rest =>
      x <- Py.getitem subset i ;;
      if x <? 0 then Raise ValueError
      else
        bound <- shift_one (n self) ;;
        y <- Py.getitem subset i ;;
        if bound <=? y then Raise ValueError
        else check_elements self subset rest
  end.

(** [generate_custom_subset(subset)] with the default [subset_type = "D"]. *)
Definition generate_custom_subset (self : t) (subset : list Z) : outcome unit :=
  match subset with
  | [] => Raise ValueError
  | _ =>
      if negb (Py.len subset =? card self) then Raise ValueError
      else check_elements self subset (Py.range (card self))
  end.

Definition generate_subset (self : t) : outcome (list Z) :=
  if n self <? 0 then Raise ValueError
  else if n self =? 0 then Ret [0]
  else Ret (map (fun i => Z.shiftl 1 i) (Py.range (n self))).

(** [generate_custom_subset(subset, subset_type)]; on a list of [int] the
    binary branch makes the tests of the decimal one. *)
Definition generate_custom_subset_of_type (self : t) (subset : list Z)
    (subset_type : string) : outcome unit :=
  match subset with
  | [] => Raise ValueError
  | _ =>
      if negb (Py.len subset =? card self) then Raise ValueError
      else if String.eqb subset_type "D"
      then check_elements self subset (Py.range (card self))
      else if String.eqb subset_type "B"
      then check_elements self subset (Py.range (card self))
      else Raise ValueError
  end.

End SubsetGenerator.

(** ** main.py *)

(** The "Error Checking" block that opens [main]; the rest of [main] runs only
    when it returns.  Every element of a [list Z] is an [int], so the
    [isinstance] test cannot fail. *)
Definition main_error_checking (num_qubits cardinality : Z)
    (target_subset : list Z) : outcome unit :=
  if negb (Py.len target_subset =? cardinality) then Raise ValueError
  else
    m <- Py.max target_subset ;;
    if Py.gt_pow2 m num_qubits then Raise ValueError
    else if negb (forallb (fun _ => true) target_subset) then Raise ValueError
    else Ret tt.

(** * Specification vocabulary *)

(** ** Binary strings and their values *)

Definition is_bit (c : ascii) : Prop := c = "0" \/ c = "1".

Definition binary (s : str) : Prop := Forall is_bit s.

Definition bit_val (c : ascii) : Z := if Ascii.eqb c "1" then 1 else 0.

(** Value of a string of bits, most significant first. *)
Definition val (s : str) : Z := fold_left (fun a c => 2 * a + bit_val c) s 0.

(** Unsigned digits of a natural number, as [bin(x)[2:]] gives them. *)
Definition digits (x : Z) : str :=
  match x with
  | Z.pos p => Py.bin_pos p []
  | _ => ["0"]
  end.

(** ** Breadth-first enumeration of bit strings *)

(** All [L]-character bit strings in increasing numeric order. *)
Definition level (L : Z) : list str := map (Py.format_0b L) (Py.range (2 ^ L)).

(** The strings of lengths [L], [L + 1], ..., [L + k - 1], shortest first. *)
Fixpoint levels (L : Z) (k : nat) : list str :=
  match k with
  | O => []
  | S k' => level L ++ levels (L + 1) k'
  end.

(** ** Partition counts *)

(** The reversed [n]-bit rendering of a canonical index, [n] the number of
    bits of [card]. *)
Definition reversed_index_string (card i : Z) : str :=
  rev (Py.format_0b (Py.ceil_log2 card) i).

Definition matches_prefix (card : Z) (prefix : str) (i : Z) : Prop :=
  0 <= i < card /\
  firstn (length prefix) (reversed_index_string card i) = prefix.

Definition starts_with (c : ascii) (s : str) : bool :=
  match s with
  | ch :: _ => Ascii.eqb ch c
  | [] => false
  end.

(** ** The Grover-Rudolph circuit, as the specification describes it *)

(** What [control_tag] computes at step [c]. *)
Definition tag_of (c : Z) : GroverRudolphCircuit.tag :=
  let l := Py.ceil_log2 c - 1 in
  let R := (c - 1) - 2 ^ l in
  GroverRudolphCircuit.Tag l R (Py.format_0b l R)
                           (map bit_val (Py.format_0b l R)).

(** The qubit list after its reversal: [x(n-1)], ..., [x0]. *)
Definition reversed_qubits (n : Z) : list Qid :=
  rev (map (fun i => NamedQubit (Py.fstring "x" i)) (Py.range n)).

(** The controlled rotation of one step: controls are the first [l] qubits
    with the step's control signature, the target is qubit [l], the angle is
    [angles[step - 2]]. *)
Definition controlled_rotation (qubits : list Qid) (angles : list angle)
    (step : Z) : Operation :=
  let tg := tag_of step in
  let l := GroverRudolphCircuit.tag_l tg in
  on (ControlledGate (Ry (nth (Z.to_nat (step - 2)) angles (TwoAcosSqrt 0 0)))
                     l (GroverRudolphCircuit.tag_ctrl_sig tg))
     (firstn (Z.to_nat l) qubits ++ [nth (Z.to_nat l) qubits (LineQubit 0)]).

Definition grover_rudolph_circuit (n card : Z) (angles : list angle)
  : list Operation :=
  let qubits := reversed_qubits n in
  on (Ry (nth 0 angles (TwoAcosSqrt 0 0))) [nth 0 qubits (LineQubit 0)]
  :: map (controlled_rotation qubits angles) (Py.range2 3 (card + 1)).

(** ** Cycle following *)

(** A mapping that sends every index of [[0, d)] into [[0, d)]. *)
Definition in_range_mapping (target : list Z) : Prop :=
  Forall (fun x => 0 <= x < Py.len target) target.

(** ** Gates of the permutation stage, as the specification describes them *)

(** The flips of a Gray-code gate: one [X] on the qubit at each position
    where the two strings differ, positions counted from [k]. *)
Fixpoint flips (qubits : list Qid) (k : nat) (s1 s2 : str) : list Operation :=
  match s1, s2 with
  | b1 :: r1, b2 :: r2 =>
      (if Ascii.eqb b1 b2 then [] else [on X [nth k qubits (LineQubit 0)]])
        ++ flips qubits (S k) r1 r2
  | _, _ => []
  end.

(** Multi-controlled [X] that marks the ancilla when the data qubits hold
    [x]. *)
Definition mark (n : Z) (data : list Qid) (ancilla : Qid) (x : Z) : Operation :=
  on (ControlledGate X n (map bit_val (Py.format_0b n x))) (data ++ [ancilla]).

(** Gray-code gate from [x] to [y], controlled on the ancilla. *)
Definition gray_step (n : Z) (data : list Qid) (ancilla : Qid) (x y : Z)
  : Operation :=
  on (ControlledGate (GrayCode n (Py.format_0b n x) (Py.format_0b n y)) 1 [1])
     (ancilla :: data).

Definition cycle_circuit (n : Z) (qubits : list Qid) (cycle : list Z)
  : list Operation :=
  let data := firstn (Z.to_nat n) qubits in
  let ancilla := nth (Z.to_nat n) qubits (LineQubit 0) in
  let l := Py.len cycle in
  flat_map (fun k =>
              [mark n data ancilla (nth (Z.to_nat k) cycle 0);
               gray_step n data ancilla (nth (Z.to_nat k) cycle 0)
                         (nth (Z.to_nat ((k + 1) mod l)) cycle 0)])
           (Py.range l)
  ++ [mark n data ancilla (nth 0 cycle 0)].

(** ** Entry validation, as the specification states it *)

(** A subset with an element outside [[0, 2^num_qubits)] or with a repeated
    element is turned down with a validation error. *)
Definition rejects_bad_subsets (num_qubits cardinality : Z)
    (target_subset : list Z) : Prop :=
  Exists (fun x => 2 ^ num_qubits <= x \/ x < 0) target_subset \/
  ~ NoDup target_subset ->
  main_error_checking num_qubits cardinality target_subset = Raise ValueError.

(** ** Action of the gates on basis states

    A basis state gives each qubit a bit.  [X] flips its qubit; a controlled
    gate acts when its control qubits hold its control values; the Gray-code
    gate acts as what it decomposes into.  A rotation maps no basis state to
    a basis state. *)

Definition Qid_eqb (a b : Qid) : bool :=
  match a, b with
  | NamedQubit s, NamedQubit u => String.eqb s u
  | LineQubit x, LineQubit y => x =? y
  | _, _ => false
  end.

Definition basis_state : Type := Qid -> bool.

Definition flip (q : Qid) (st : basis_state) : basis_state :=
  fun q' => if Qid_eqb q' q then negb (st q') else st q'.

Definition bit_of (b : bool) : Z := if b then 1 else 0.

(** The bits a state gives to a list of qubits. *)
Definition read (st : basis_state) (qs : list Qid) : list Z :=
  map (fun q => bit_of (st q)) qs.

Definition list_Z_eqb (a b : list Z) : bool :=
  if list_eq_dec Z.eq_dec a b then true else false.

Fixpoint apply_flips (ops : list Operation) (st : basis_state)
  : option basis_state :=
  match ops with
  | [] => Some st
  | on X [q] :: rest => apply_flips rest (flip q st)
  | _ => None
  end.

Fixpoint apply_gate (g : Gate) (qs : list Qid) (st : basis_state)
  : option basis_state :=
  match g with
  | X => match qs with
         | [q] => Some (flip q st)
         | _ => None
         end
  | Ry _ => None
  | GrayCode n s1 s2 =>
      match gray_code_gate._decompose_ (gray_code_gate.Build n s1 s2) qs with
      | Ret ops => apply_flips ops st
      | _ => None
      end
  | ControlledGate sub k vs =>
      let controls := firstn (Z.to_nat k) qs in
      let targets := skipn (Z.to_nat k) qs in
      if negb (Py.len vs =? k) || negb (Py.len controls =? k) then None
      else if list_Z_eqb (read st controls) vs then apply_gate sub targets st
      else Some st
  end.

Definition apply_op (o : Operation) (st : basis_state) : option basis_state :=
  match o with on g qs => apply_gate g qs st end.

Fixpoint run (ops : list Operation) (st : basis_state) : option basis_state :=
  match ops with
  | [] => Some st
  | o :: rest =>
      match apply_op o st with
      | Some st' => run rest st'
      | None => None
      end
  end.

(** The data qubits hold the [n]-bit rendering of [x]. *)
Definition holds (st : basis_state) (n : Z) (data : list Qid) (x : Z) : Prop :=
  read st data = map bit_val (Py.format_0b n x).

(** Successor of [x] along a cycle; [x] itself off the cycle. *)
Fixpoint index_of (x : Z) (l : list Z) : option nat :=
  match l with
  | [] => None
  | y :: r => if y =? x then Some 0%nat
              else match index_of x r with
                   | Some i => Some (S i)
                   | None => None
                   end
  end.

Definition cycle_next (cycle : list Z) (x : Z) : Z :=
  match index_of x cycle with
  | Some k => nth (Z.to_nat ((Z.of_nat k + 1) mod Py.len cycle)) cycle 0
  | None => x
  end.

(** The flips of a Gray-code gate, qubit by qubit. *)
Fixpoint flips_on (qs : list Qid) (s1 s2 : str) : list Operation :=
  match qs, s1, s2 with
  | q :: qs', b1 :: r1, b2 :: r2 =>
      (if Ascii.eqb b1 b2 then [] else [on X [q]]) ++ flips_on qs' r1 r2
  | _, _, _ => []
  end.

(** The qubits [gray_code_rotation_circuit] creates. *)
Definition x_qubits (n : Z) : list Qid :=
  map (fun i => NamedQubit (Py.fstring "x_" i)) (Py.range2 0 n).

(** ** Chains of the cycle decomposition *)

(** A chain follows [target] from index to value while the value is below
    [d], and ends at the first value that is not. *)
Inductive chain (target : list Z) (d : Z) : list Z -> Prop :=
| chain_end a : d <= a -> chain target d [a]
| chain_step a b c :
    a < d -> Py.getitem target a = Ret b -> chain target d (b :: c) ->
    chain target d (a :: b :: c).

(** A cycle as the [for] loop emits it: a chain of at least two values that
    starts at an index which is not a fixed point. *)
Definition emitted (self : SubsetPermutation.t) (c : list Z) : Prop :=
  chain (SubsetPermutation.target_subset self) (Py.len (SubsetPermutation.target_subset self)) c /\
  exists i ti rest,
    c = i :: ti :: rest /\ 0 <= i < Py.len (SubsetPermutation.target_subset self) /\ ti <> i.

(** Writing a list of key-value pairs into a dict, first pair first. *)
Definition set_all (d : list (Z * Z)) (l : list (Z * Z)) : list (Z * Z) :=
  fold_left (fun d kv => SubsetPermutation.dict_set d (fst kv) (snd kv)) l d.

(** The test [generate_custom_subset] makes on the element at index [i]. *)
Definition element_ok (self : SubsetGenerator.t) (subset : list Z) (i : Z) : bool :=
  let x := nth (Z.to_nat i) subset 0 in
  (0 <=? x) && (0 <=? SubsetGenerator.n self) && (x <? 2 ^ SubsetGenerator.n self).

(** ** Counting the indices under a prefix *)

(** Number of [i] in [[0, c)] with [i mod w = r]. *)
Definition residue_count (c w r : Z) : Z := (c + w - 1 - r) / w.

(** The arithmetic test behind [partition_counter]: the low [l] bits of [i]
    are [r], and the next bit is even or odd. *)
Definition under_prefix (w r : Z) (odd : bool) (i : Z) : bool :=
  (i mod w =? r) && (if odd then Z.odd (i / w) else Z.even (i / w)).

(** ** The register of a cycle gate *)

(** The data qubits (the first [nq] of [qubits]) show [x] and the ancilla
    (the qubit after them) shows [a]. *)
Definition register_shows (nq : Z) (qubits : list Qid) (st : basis_state)
    (x : Z) (a : bool) : Prop :=
  holds st nq (firstn (Z.to_nat nq) qubits) x /\
  st (nth (Z.to_nat nq) qubits (LineQubit 0)) = a.

Definition agree_outside (qubits : list Qid) (st' st : basis_state) : Prop :=
  forall q, ~ In q qubits -> st' q = st q.

(** The two operations of pass [k] of the loop of a cycle gate. *)
Definition cycle_body (nq : Z) (qubits : list Qid) (cycle : list Z) (k : Z)
  : list Operation :=
  let data := firstn (Z.to_nat nq) qubits in
  let ancilla := nth (Z.to_nat nq) qubits (LineQubit 0) in
  [mark nq data ancilla (nth (Z.to_nat k) cycle 0);
   gray_step nq data ancilla (nth (Z.to_nat k) cycle 0)
             (nth (Z.to_nat ((k + 1) mod Py.len cycle)) cycle 0)].

(** ** The angle of a prefix *)

(** The angle [get_angles] computes at a prefix: the one of the counts
    [partition_counter] returns there. *)
Definition prefix_angle (self : GroverRudolphAngles.t) (prefix : str) : angle :=
  match GroverRudolphAngles.partition_counter self prefix with
  | Ret (N_0, N_1) => TwoAcosSqrt N_0 N_1
  | _ => TwoAcosSqrt 0 0
  end.

(** * Properties *)

(** ** Binary strings *)

Section BinaryStrings.

Lemma len_app {A : Type} (l1 l2 : list A) :
  Py.len (l1 ++ l2) = Py.len l1 + Py.len l2.
Proof. unfold Py.len. rewrite length_app. lia. Qed.

Lemma len_nonneg {A : Type} (l : list A) : 0 <= Py.len l.
Proof. unfold Py.len. lia. Qed.

Lemma bit_val_range c : 0 <= bit_val c <= 1.
Proof. unfold bit_val. destruct (Ascii.eqb c "1"); lia. Qed.

Lemma fold_val_acc s : forall a,
  fold_left (fun a c => 2 * a + bit_val c) s a = a * 2 ^ Py.len s + val s.
Proof.
  unfold val. induction s as [|c s IH]; intros a; cbn [fold_left].
  - unfold Py.len; simpl. lia.
  - rewrite IH. rewrite (IH (2 * 0 + bit_val c)).
    replace (Py.len (c :: s)) with (Z.succ (Py.len s))
      by (unfold Py.len; simpl length; lia).
    rewrite Z.pow_succ_r by apply len_nonneg. lia.
Qed.

Lemma val_cons c s : val (c :: s) = bit_val c * 2 ^ Py.len s + val s.
Proof. unfold val at 1. simpl. apply fold_val_acc. Qed.

Lemma val_app s u : val (s ++ u) = val s * 2 ^ Py.len u + val u.
Proof.
  unfold val at 1. rewrite fold_left_app. fold (val s). apply fold_val_acc.
Qed.

Lemma val_range s : 0 <= val s < 2 ^ Py.len s.
Proof.
  induction s as [|c s IH].
  - unfold val, Py.len; simpl. lia.
  - rewrite val_cons.
    replace (Py.len (c :: s)) with (Z.succ (Py.len s))
      by (unfold Py.len; simpl length; lia).
    rewrite Z.pow_succ_r by apply len_nonneg.
    pose proof (bit_val_range c). nia.
Qed.

Lemma bit_val_inj c c' : is_bit c -> is_bit c' -> bit_val c = bit_val c' -> c = c'.
Proof. intros [->| ->] [->| ->]; cbn; congruence. Qed.

(** Two bit strings of one length with one value are equal. *)
Lemma val_inj s : forall u,
  binary s -> binary u -> length s = length u -> val s = val u -> s = u.
Proof.
  induction s as [|c s IH]; intros [|c' u] Hs Hu Hlen Hval;
    simpl in Hlen; try discriminate; auto.
  inversion Hs as [|? ? Hc Hs']; inversion Hu as [|? ? Hc' Hu']; subst.
  rewrite !val_cons in Hval.
  assert (Hl : Py.len s = Py.len u) by (unfold Py.len; lia).
  rewrite Hl in Hval.
  pose proof (val_range s) as Rs. pose proof (val_range u) as Ru.
  rewrite Hl in Rs.
  pose proof (bit_val_range c). pose proof (bit_val_range c').
  assert (bit_val c = bit_val c') by nia.
  f_equal.
  - now apply bit_val_inj.
  - apply IH; auto. nia.
Qed.

Lemma binary_repeat0 k : binary (repeat "0" k).
Proof. apply Forall_forall. intros c Hc. apply repeat_spec in Hc. now left. Qed.

Lemma val_repeat0 k : val (repeat "0" k) = 0.
Proof.
  induction k as [|k IH]; [reflexivity|].
  simpl repeat. rewrite val_cons, IH. cbn. lia.
Qed.

Lemma binary_app s u : binary s -> binary u -> binary (s ++ u).
Proof. intros; apply Forall_app; auto. Qed.

Lemma binary_rev s : binary s -> binary (rev s).
Proof. intros; now apply Forall_rev. Qed.

(** *** Digits produced by [bin] *)

Lemma bin_pos_acc p : forall acc, Py.bin_pos p acc = Py.bin_pos p [] ++ acc.
Proof.
  induction p as [p IH|p IH|]; intros acc; simpl.
  - rewrite IH, (IH ["1"]), <- app_assoc. reflexivity.
  - rewrite IH, (IH ["0"]), <- app_assoc. reflexivity.
  - reflexivity.
Qed.

Lemma bin_pos_head p : forall acc, exists r, Py.bin_pos p acc = "1" :: r.
Proof. induction p; intros acc; simpl; eauto. Qed.

Lemma binary_one c : is_bit c -> binary [c].
Proof. intros; constructor; [assumption | constructor]. Qed.

Lemma bin_pos_binary p : binary (Py.bin_pos p []).
Proof.
  induction p as [p IH|p IH|]; simpl.
  - rewrite bin_pos_acc. apply binary_app; auto. apply binary_one; now right.
  - rewrite bin_pos_acc. apply binary_app; auto. apply binary_one; now left.
  - apply binary_one; now right.
Qed.

Lemma bin_pos_val p : val (Py.bin_pos p []) = Z.pos p.
Proof.
  induction p as [p IH|p IH|]; simpl.
  - rewrite bin_pos_acc, val_app, IH. cbn. lia.
  - rewrite bin_pos_acc, val_app, IH. cbn. lia.
  - reflexivity.
Qed.

(** A number below [2 ^ w] has at most [w] digits. *)
Lemma bin_pos_len p w : 0 <= w -> Z.pos p < 2 ^ w -> Py.len (Py.bin_pos p []) <= w.
Proof.
  intros Hw Hp.
  destruct (bin_pos_head p []) as [r Hr].
  pose proof (bin_pos_val p) as Hv. rewrite Hr in *.
  rewrite val_cons in Hv. change (bit_val "1") with 1 in Hv.
  pose proof (val_range r) as Rr.
  assert (Hlt : 2 ^ Py.len r < 2 ^ w) by lia.
  apply Z.pow_lt_mono_r_iff in Hlt; [|lia|lia].
  replace (Py.len ("1" :: r)) with (Z.succ (Py.len r))
    by (unfold Py.len; simpl length; lia).
  lia.
Qed.

Lemma bin_skip2 x : 0 <= x -> skipn 2 (Py.bin x) = digits x.
Proof. destruct x; simpl; intros; try reflexivity. lia. Qed.

Lemma digits_binary x : binary (digits x).
Proof.
  destruct x; simpl; try (apply binary_one; now left). apply bin_pos_binary.
Qed.

Lemma digits_val x : 0 <= x -> val (digits x) = x.
Proof. destruct x; simpl; intros; try reflexivity; [apply bin_pos_val | lia]. Qed.

Lemma digits_len x w : 1 <= w -> 0 <= x < 2 ^ w -> Py.len (digits x) <= w.
Proof.
  intros Hw Hx. destruct x; simpl; try (unfold Py.len; simpl; lia).
  apply bin_pos_len; lia.
Qed.

Lemma zfill_binary w s : binary s -> Py.zfill w s = repeat "0" (Z.to_nat (w - Py.len s)) ++ s.
Proof.
  intros Hs. unfold Py.zfill. destruct s as [|c r].
  - now rewrite app_nil_r.
  - inversion Hs as [|? ? [->| ->] _]; reflexivity.
Qed.

Lemma format_0b_zfill w x : 0 <= x -> Py.format_0b w x = Py.zfill w (digits x).
Proof. destruct x; simpl; intros; try reflexivity. lia. Qed.

Lemma zfill_bin_format w x :
  0 <= x -> Py.zfill w (skipn 2 (Py.bin x)) = Py.format_0b w x.
Proof. intros. now rewrite bin_skip2, format_0b_zfill. Qed.

(** The [w]-character rendering of [x] below [2 ^ w]. *)
Lemma format_0b_spec w x :
  1 <= w -> 0 <= x < 2 ^ w ->
  binary (Py.format_0b w x) /\ Py.len (Py.format_0b w x) = w /\
  val (Py.format_0b w x) = x.
Proof.
  intros Hw Hx. rewrite format_0b_zfill by lia.
  rewrite zfill_binary by apply digits_binary.
  pose proof (digits_len x w Hw Hx) as Hl.
  repeat split.
  - apply binary_app; [apply binary_repeat0 | apply digits_binary].
  - rewrite len_app. unfold Py.len in *. rewrite repeat_length. lia.
  - rewrite val_app, val_repeat0, digits_val; lia.
Qed.

(** Rendering the value of a bit string gives the string back. *)
Lemma format_0b_val s :
  binary s -> 1 <= Py.len s -> Py.format_0b (Py.len s) (val s) = s.
Proof.
  intros Hs Hl.
  destruct (format_0b_spec (Py.len s) (val s) Hl (val_range s)) as (B & L & V).
  apply val_inj; auto. apply Nat2Z.inj. exact L.
Qed.

End BinaryStrings.

(** ** The prefix sequence *)

Section PrefixSequence.

Import GroverRudolphAngles.

Lemma range_nonneg n : Forall (fun i => 0 <= i) (Py.range n).
Proof.
  unfold Py.range. apply Forall_forall. intros i Hi.
  apply in_map_iff in Hi as (k & <- & _). lia.
Qed.

Lemma range_len n : 0 <= n -> Py.len (Py.range n) = n.
Proof. intros. unfold Py.len, Py.range. rewrite length_map, length_seq. lia. Qed.

Lemma range_in n i : In i (Py.range n) <-> 0 <= i < n.
Proof.
  unfold Py.range. rewrite in_map_iff. split.
  - intros (k & <- & Hk). apply in_seq in Hk. lia.
  - intros Hi. exists (Z.to_nat i). split; [lia|]. apply in_seq. lia.
Qed.

Lemma level_len L : 0 <= L -> Py.len (level L) = 2 ^ L.
Proof.
  intros. unfold level, Py.len. rewrite length_map.
  apply range_len. apply Z.pow_nonneg. lia.
Qed.

(** The inner loop appends renderings until the quota is met. *)
Lemma prefix_for_spec num L idxs : forall result_list,
  Forall (fun i => 0 <= i) idxs ->
  Py.len result_list < num ->
  prefix_for num L idxs result_list =
    if num - Py.len result_list <=? Py.len idxs
    then Return (result_list ++
                 firstn (Z.to_nat (num - Py.len result_list))
                        (map (Py.format_0b L) idxs))
    else Continue (result_list ++ map (Py.format_0b L) idxs).
Proof.
  induction idxs as [|i idxs IH]; intros res Hpos Hlt.
  - cbn [prefix_for map]. replace (Py.len (@nil Z)) with 0 by reflexivity.
    destruct (Z.leb_spec (num - Py.len res) 0); [lia|]. now rewrite app_nil_r.
  - inversion Hpos as [|? ? Hi Hpos']; subst.
    cbn [prefix_for map]. rewrite zfill_bin_format by exact Hi.
    replace (Py.len (i :: idxs)) with (Py.len idxs + 1)
      by (unfold Py.len; simpl length; lia).
    pose proof (len_nonneg idxs) as Hn.
    rewrite len_app. replace (Py.len [Py.format_0b L i]) with 1 by reflexivity.
    destruct (Z.eqb_spec (Py.len res + 1) num) as [E|E].
    + destruct (Z.leb_spec (num - Py.len res) (Py.len idxs + 1)); [|lia].
      replace (num - Py.len res) with 1 by lia. reflexivity.
    + rewrite IH; auto; [|rewrite len_app; change (Py.len [Py.format_0b L i]) with 1; lia].
      rewrite len_app. change (Py.len [Py.format_0b L i]) with 1.
      replace (Z.to_nat (num - Py.len res))
        with (S (Z.to_nat (num - (Py.len res + 1)))) by lia.
      cbn [firstn]. rewrite <- !app_assoc. cbn [app].
      destruct (Z.leb_spec (num - (Py.len res + 1)) (Py.len idxs));
        destruct (Z.leb_spec (num - Py.len res) (Py.len idxs + 1));
        try lia; reflexivity.
Qed.

Lemma levels_len_ge L k : 1 <= L -> 2 * Z.of_nat k <= Py.len (levels L k).
Proof.
  revert L. induction k as [|k IH]; intros L HL; cbn [levels].
  - unfold Py.len; simpl; lia.
  - rewrite len_app, level_len by lia. specialize (IH (L + 1) ltac:(lia)).
    assert (2 ^ 1 <= 2 ^ L) by (apply Z.pow_le_mono_r; lia).
    change (2 ^ 1) with 2 in *. lia.
Qed.

Lemma levels_app L a : forall b,
  levels L (a + b) = levels L a ++ levels (L + Z.of_nat a) b.
Proof.
  revert L. induction a as [|a IH]; intros L b.
  - cbn. now rewrite Z.add_0_r.
  - cbn [levels Nat.add]. rewrite IH, <- app_assoc.
    do 3 f_equal. lia.
Qed.

(** With enough levels at hand, the loop returns the first [num] strings
    of the enumeration. *)
Lemma prefix_while_spec num fuel : forall L result_list,
  0 <= L ->
  Py.len result_list <= num ->
  num - Py.len result_list <= Py.len (levels L fuel) ->
  prefix_while fuel num L result_list =
    Ret (result_list ++
         firstn (Z.to_nat (num - Py.len result_list)) (levels L fuel)).
Proof.
  induction fuel as [|fuel IH]; intros L res HL Hle Hfuel.
  - cbn [levels] in *. change (Py.len (@nil str)) with 0 in Hfuel.
    cbn [prefix_while]. destruct (Z.ltb_spec (Py.len res) num); [lia|].
    now rewrite firstn_nil, app_nil_r.
  - cbn [prefix_while levels] in *.
    destruct (Z.ltb_spec (Py.len res) num) as [Hlt|Hge].
    + rewrite prefix_for_spec by (auto using range_nonneg).
      rewrite len_app in Hfuel.
      rewrite range_len by (apply Z.pow_nonneg; lia).
      fold (level L).
      rewrite firstn_app.
      pose proof (level_len L HL) as Hll.
      assert (IH' := IH (L + 1) (res ++ level L)).
      rewrite len_app in IH'.
      assert (Hlen : Z.of_nat (length (level L)) = Py.len (level L)) by reflexivity.
      destruct (Z.leb_spec (num - Py.len res) (2 ^ L)) as [Hin|Hout].
      * replace (Z.to_nat (num - Py.len res) - length (level L))%nat with 0%nat by lia.
        now rewrite firstn_O, app_nil_r.
      * rewrite IH' by lia.
        rewrite (firstn_all2 (level L)) by lia.
        rewrite <- app_assoc.
        replace (Z.to_nat (num - Py.len res) - length (level L))%nat
          with (Z.to_nat (num - (Py.len res + Py.len (level L)))) by lia.
        reflexivity.
    + replace (num - Py.len res) with 0 by lia.
      now rewrite firstn_O, app_nil_r.
Qed.

Lemma levels_firstn_stable k L a b :
  (k <= length (levels L a))%nat -> (a <= b)%nat ->
  firstn k (levels L b) = firstn k (levels L a).
Proof.
  intros Hk Hab. replace b with (a + (b - a))%nat by lia.
  rewrite levels_app, firstn_app.
  replace (k - length (levels L a))%nat with 0%nat by lia.
  now rewrite firstn_O, app_nil_r.
Qed.

(** What [generate_prefix_binary_sequence] returns, for any number [m] of
    levels that holds [card - 2] strings. *)
Lemma generate_prefix_spec self m :
  2 < card self ->
  card self - 2 <= Py.len (levels 1 m) ->
  generate_prefix_binary_sequence self =
    Ret (firstn (Z.to_nat (card self - 2)) (levels 1 m)).
Proof.
  intros Hc Hm. unfold generate_prefix_binary_sequence,
    generate_prefix_binary_sequence_fuel.
  destruct (Z.leb_spec (card self) 2); [lia|].
  pose proof (levels_len_ge 1 (Z.to_nat (card self)) ltac:(lia)) as Hf.
  rewrite prefix_while_spec;
    [| lia | change (Py.len (@nil str)) with 0; lia
     | change (Py.len (@nil str)) with 0; lia].
  change (Py.len (@nil str)) with 0. rewrite Z.sub_0_r. cbn [app].
  f_equal. unfold Py.len in *.
  destruct (Nat.le_ge_cases m (Z.to_nat (card self))).
  - apply levels_firstn_stable; lia.
  - symmetry. apply levels_firstn_stable; lia.
Qed.

(** The loop never runs out of fuel, whatever larger bound is taken. *)
Lemma generate_prefix_fuel_irrelevant self fuel :
  2 < card self -> (Z.to_nat (card self) <= fuel)%nat ->
  generate_prefix_binary_sequence_fuel fuel self =
  generate_prefix_binary_sequence self.
Proof.
  intros Hc Hf.
  pose proof (levels_len_ge 1 fuel ltac:(lia)) as Hl.
  rewrite (generate_prefix_spec self fuel) by lia.
  unfold generate_prefix_binary_sequence_fuel.
  destruct (Z.leb_spec (card self) 2); [lia|].
  rewrite prefix_while_spec;
    [| lia | change (Py.len (@nil str)) with 0; lia
     | change (Py.len (@nil str)) with 0; lia].
  change (Py.len (@nil str)) with 0. now rewrite Z.sub_0_r.
Qed.

Lemma generate_prefix_len self seq :
  2 < card self ->
  generate_prefix_binary_sequence self = Ret seq ->
  Py.len seq = card self - 2.
Proof.
  intros Hc.
  pose proof (levels_len_ge 1 (Z.to_nat (card self)) ltac:(lia)) as Hf.
  rewrite (generate_prefix_spec self (Z.to_nat (card self))) by lia.
  intros [= <-]. unfold Py.len in *. rewrite length_firstn. lia.
Qed.

Lemma in_firstn_nth {A : Type} (x : A) k : forall l,
  In x (firstn k l) -> exists i, (i < k)%nat /\ nth_error l i = Some x.
Proof.
  induction k as [|k IH]; intros [|a l] H; simpl in H; try contradiction.
  destruct H as [->|H].
  - exists 0%nat. split; [lia | reflexivity].
  - destruct (IH l H) as (i & Hi & E). exists (S i). split; [lia | exact E].
Qed.

Lemma range_nth n i v :
  nth_error (Py.range n) i = Some v -> v = Z.of_nat i /\ 0 <= v < n.
Proof.
  unfold Py.range. rewrite nth_error_map.
  destruct (nth_error (seq 0 (Z.to_nat n)) i) as [j|] eqn:E; [|discriminate].
  intros [= <-].
  assert (Hlt : (i < length (seq 0 (Z.to_nat n)))%nat)
    by (apply nth_error_Some; congruence).
  rewrite length_seq in Hlt.
  rewrite (nth_error_nth' _ 0%nat) in E by (rewrite length_seq; lia).
  rewrite seq_nth in E by lia. injection E as <-. lia.
Qed.

Lemma range_nth_ok n i :
  0 <= i < n -> nth_error (Py.range n) (Z.to_nat i) = Some i.
Proof.
  intros Hi. unfold Py.range. rewrite nth_error_map.
  rewrite (nth_error_nth' _ 0%nat) by (rewrite length_seq; lia).
  rewrite seq_nth by lia. cbn. f_equal. lia.
Qed.

(** A string among the first [k] of the enumeration started at length [L]
    is the [v]-th string of some length [L'], and sits before position
    [k]. *)
Lemma in_levels s fuel : forall L k,
  0 <= L ->
  In s (firstn k (levels L fuel)) ->
  exists L' v, L <= L' /\ 0 <= v < 2 ^ L' /\ s = Py.format_0b L' v /\
               2 ^ L' - 2 ^ L + v < Z.of_nat k.
Proof.
  induction fuel as [|fuel IH]; intros L k HL Hin; cbn [levels] in Hin.
  - rewrite firstn_nil in Hin. contradiction.
  - rewrite firstn_app in Hin. apply in_app_or in Hin as [Hin|Hin].
    + unfold level in Hin. rewrite firstn_map in Hin.
      apply in_map_iff in Hin as (v & <- & Hv).
      apply in_firstn_nth in Hv as (i & Hi & E).
      apply range_nth in E as (-> & Hr).
      exists L, (Z.of_nat i). repeat split; lia.
    + apply IH in Hin as (L' & v & HL' & Hv & -> & Hpos); [|lia].
      pose proof (level_len L HL) as Hll. unfold Py.len in Hll.
      assert (Hmono : 2 ^ (L + 1) <= 2 ^ L') by (apply Z.pow_le_mono_r; lia).
      rewrite Z.pow_add_r in Hpos, Hmono by lia.
      change (2 ^ 1) with 2 in Hpos, Hmono.
      exists L', v. repeat split; lia.
Qed.

(** The [k]-th string of a level is the [L]-character numeral of [k]. *)
Lemma level_nth L k :
  1 <= L -> 0 <= k < 2 ^ L ->
  exists s, nth_error (level L) (Z.to_nat k) = Some s /\
            binary s /\ Py.len s = L /\ val s = k.
Proof.
  intros HL Hk. exists (Py.format_0b L k). split.
  - unfold level. rewrite nth_error_map, range_nth_ok by lia. reflexivity.
  - apply format_0b_spec; lia.
Qed.

End PrefixSequence.

(** ** Partition counts and angles *)

Section Partition.

Import GroverRudolphAngles.

Lemma getitem_head {A : Type} (a : A) l : Py.getitem (a :: l) 0 = Ret a.
Proof.
  unfold Py.getitem. cbn [Z.ltb Z.compare].
  replace (Py.len (a :: l) <=? 0) with false; [reflexivity|].
  symmetry. apply Z.leb_gt. unfold Py.len. simpl length. lia.
Qed.

Lemma filterM_first_char c l :
  Forall (fun i : str * str => snd i <> []) l ->
  Py.filterM (first_char_is c) l = Ret (filter (fun i => starts_with c (snd i)) l).
Proof.
  induction 1 as [|[a [|ch r]] l Hne _ IH]; cbn [Py.filterM filter].
  - reflexivity.
  - now contradiction Hne.
  - unfold first_char_is at 1. cbn [snd]. rewrite getitem_head. cbn [bind].
    rewrite IH. cbn [bind starts_with snd]. reflexivity.
Qed.

Lemma ceil_log2_spec c :
  2 < c -> 2 ^ (Py.ceil_log2 c - 1) < c <= 2 ^ Py.ceil_log2 c /\ 2 <= Py.ceil_log2 c.
Proof.
  intros Hc. unfold Py.ceil_log2.
  pose proof (Z.log2_up_spec c ltac:(lia)) as H.
  rewrite <- Z.sub_1_r in H. split; [exact H|].
  destruct (Z.lt_ge_cases (Z.log2_up c) 2) as [Hlt|]; [|assumption].
  assert (2 ^ Z.log2_up c <= 2 ^ 1) by (apply Z.pow_le_mono_r; lia).
  change (2 ^ 1) with 2 in *. lia.
Qed.

(** The index whose reversed rendering is [prefix] followed by zeros. *)
Lemma reversed_of_prefix card prefix :
  2 < card -> binary prefix -> 2 ^ Py.len prefix < card ->
  let n := Py.ceil_log2 card in
  Py.len prefix < n /\
  0 <= val (rev prefix) < card /\
  reversed_index_string card (val (rev prefix)) =
    prefix ++ repeat "0" (Z.to_nat (n - Py.len prefix)).
Proof.
  intros Hc Hb Hlt n.
  destruct (ceil_log2_spec card Hc) as [[_ Hup] Hn2]. fold n in Hup, Hn2.
  assert (Hl : Py.len prefix < n).
  { apply (Z.pow_lt_mono_r_iff 2); lia. }
  pose proof (val_range (rev prefix)) as Hv.
  assert (Hrl : Py.len (rev prefix) = Py.len prefix)
    by (unfold Py.len; now rewrite length_rev).
  rewrite Hrl in Hv.
  repeat split; try lia.
  unfold reversed_index_string. fold n.
  set (s := repeat "0" (Z.to_nat (n - Py.len prefix)) ++ rev prefix).
  assert (Hs : binary s)
    by (apply binary_app; [apply binary_repeat0 | now apply binary_rev]).
  assert (Hsl : Py.len s = n).
  { unfold s. rewrite len_app, Hrl. unfold Py.len at 1.
    rewrite repeat_length. lia. }
  assert (Hsv : val s = val (rev prefix)).
  { unfold s. rewrite val_app, val_repeat0. lia. }
  assert (E : Py.format_0b n (val (rev prefix)) = s).
  { rewrite <- Hsv. clearbody s n. subst n. apply format_0b_val; [exact Hs | lia]. }
  rewrite E. unfold s. now rewrite rev_app_distr, rev_involutive, rev_repeat.
Qed.

Lemma reversed_len card i :
  2 < card -> 0 <= i < card ->
  Py.len (reversed_index_string card i) = Py.ceil_log2 card.
Proof.
  intros Hc Hi. destruct (ceil_log2_spec card Hc) as [[_ Hup] Hn2].
  unfold reversed_index_string, Py.len. rewrite length_rev.
  apply (format_0b_spec (Py.ceil_log2 card) i); lia.
Qed.

(** [partition_counter] on a bit string shorter than the index strings:
    no [IndexError], and the index of [reversed_of_prefix] is counted in
    [N0]. *)
Lemma partition_counter_ok self prefix :
  2 < card self -> binary prefix -> 2 ^ Py.len prefix < card self ->
  Py.len prefix <= Py.ceil_log2 (card self) - 1 /\
  (exists i, matches_prefix (card self) prefix i) /\
  exists N_0 N_1,
    partition_counter self prefix = Ret (N_0, N_1) /\ 1 <= N_0 /\ 0 <= N_1.
Proof.
  intros Hc Hb Hlt.
  destruct (reversed_of_prefix (card self) prefix Hc Hb Hlt) as (Hl & Hv & Hrev).
  set (n := Py.ceil_log2 (card self)) in *.
  set (i0 := val (rev prefix)) in *.
  set (z := repeat "0" (Z.to_nat (n - Py.len prefix))) in *.
  assert (Hfirst : firstn (length prefix) (prefix ++ z) = prefix).
  { rewrite firstn_app, firstn_all, Nat.sub_diag, firstn_O. apply app_nil_r. }
  assert (Hskip : skipn (length prefix) (prefix ++ z) = z).
  { rewrite skipn_app, skipn_all, Nat.sub_diag. reflexivity. }
  split; [lia|]. split.
  { exists i0. split; [lia|]. now rewrite Hrev. }
  unfold partition_counter. destruct (Z.leb_spec (card self) 2); [lia|].
  fold n.
  set (rev_bin_vals := map (@rev ascii) (map (Py.format_0b n) (Py.range (card self)))).
  set (cond := map (fun i : str => (i, skipn (length prefix) i))
                 (filter (fun i => str_eqb (firstn (length prefix) i) prefix)
                         rev_bin_vals)).
  assert (Hne : Forall (fun i : str * str => snd i <> []) cond).
  { apply Forall_forall. intros [a b] Hin. cbn [snd].
    apply in_map_iff in Hin as (r & [= <- <-] & Hr).
    apply filter_In in Hr as [Hr _].
    apply in_map_iff in Hr as (f & <- & Hf).
    apply in_map_iff in Hf as (i & <- & Hi). apply range_in in Hi.
    pose proof (reversed_len (card self) i Hc Hi) as Hlen.
    unfold reversed_index_string in Hlen. fold n in Hlen.
    intros E. apply (f_equal (@length ascii)) in E.
    rewrite length_skipn in E. unfold Py.len in *. simpl in E. lia. }
  rewrite !filterM_first_char by exact Hne. cbn [bind].
  eexists _, _. split; [reflexivity|]. split; [|apply len_nonneg].
  assert (Hin : In (prefix ++ z, z)
                   (filter (fun i : str * str => starts_with "0" (snd i)) cond)).
  { apply filter_In. split.
    - apply in_map_iff. exists (prefix ++ z). rewrite Hskip. split; [reflexivity|].
      apply filter_In. split.
      + rewrite <- Hrev. unfold reversed_index_string. fold n.
        apply in_map, in_map, range_in. lia.
      + rewrite Hfirst. unfold str_eqb.
        destruct (list_eq_dec ascii_dec prefix prefix); congruence.
    - cbn [snd]. unfold z.
      destruct (Z.to_nat (n - Py.len prefix)) eqn:E; [lia|]. reflexivity. }
  unfold Py.len.
  destruct (filter (fun i : str * str => starts_with "0" (snd i)) cond);
    [contradiction | simpl length; lia].
Qed.

Lemma partition_angle_ok N_0 N_1 :
  1 <= N_0 -> 0 <= N_1 -> partition_angle N_0 N_1 = Ret (TwoAcosSqrt N_0 N_1).
Proof.
  intros. unfold partition_angle.
  destruct (Z.eqb_spec (N_0 + N_1) 0); [lia | reflexivity].
Qed.

(** The loop of [get_angles] over prefixes that are all fit for
    [partition_counter]. *)
Lemma get_angles_for_ok self binary_sequence : forall angle_lst,
  2 < card self ->
  Forall (fun p => binary p /\ 2 ^ Py.len p < card self) binary_sequence ->
  exists more,
    get_angles_for self binary_sequence angle_lst = Ret (angle_lst ++ more) /\
    length more = length binary_sequence.
Proof.
  induction binary_sequence as [|p rest IH]; intros acc Hc Hall.
  - exists []. now rewrite app_nil_r.
  - inversion Hall as [|? ? [Hb Hp] Hrest]; subst.
    destruct (partition_counter_ok self p Hc Hb Hp)
      as (_ & _ & N_0 & N_1 & E & H0 & H1).
    cbn [get_angles_for]. rewrite E. cbn [bind].
    rewrite partition_angle_ok by assumption. cbn [bind].
    destruct (IH (acc ++ [TwoAcosSqrt N_0 N_1]) Hc Hrest) as (more & E' & Hl).
    exists (TwoAcosSqrt N_0 N_1 :: more). rewrite E', <- app_assoc.
    split; [reflexivity | simpl; lia].
Qed.

(** Every generated prefix is a bit string short enough to leave a next
    bit in the index strings. *)
Lemma generated_prefixes_fit self seq :
  2 < card self ->
  generate_prefix_binary_sequence self = Ret seq ->
  Forall (fun p => binary p /\ 2 ^ Py.len p < card self) ([] :: seq).
Proof.
  intros Hc E.
  pose proof (levels_len_ge 1 (Z.to_nat (card self)) ltac:(lia)) as Hf.
  rewrite (generate_prefix_spec self (Z.to_nat (card self))) in E by lia.
  injection E as <-. constructor.
  - split; [constructor | change (Py.len (@nil ascii)) with 0; cbn; lia].
  - apply Forall_forall. intros p Hp.
    apply in_levels in Hp as (L & v & HL & Hv & -> & Hpos); [|lia].
    destruct (format_0b_spec L v ltac:(lia) Hv) as (B & Len & _).
    split; [exact B|]. rewrite Len. change (2 ^ 1) with 2 in Hpos. lia.
Qed.

Lemma get_angles_ok self :
  2 < card self ->
  exists angles, get_angles self = Ret angles /\ Py.len angles = card self - 1.
Proof.
  intros Hc. unfold get_angles.
  pose proof (levels_len_ge 1 (Z.to_nat (card self)) ltac:(lia)) as Hf.
  pose proof (generate_prefix_spec self (Z.to_nat (card self)) Hc ltac:(lia)) as E.
  pose proof (generated_prefixes_fit self _ Hc E) as Hfit.
  pose proof (generate_prefix_len self _ Hc E) as Hlen.
  rewrite E. cbn [bind].
  destruct (get_angles_for_ok self _ [] Hc Hfit) as (more & E' & Hl).
  exists more. rewrite E'. split; [reflexivity|].
  unfold Py.len in *. rewrite Hl. simpl length. lia.
Qed.

End Partition.

(** ** Claims about the angle calculator *)

Section AngleClaims.

Import GroverRudolphAngles.

(** C4. Construction raises [ValueError] when [card <= 2], with 3 the
    smallest cardinality accepted; for every [card > 2] construction
    succeeds and [get_angles] returns a list of exactly [card - 1]
    angles. *)
Theorem get_angles_count (card : Z) :
  (card <= 2 -> init card = Raise ValueError) /\
  init 3 = Ret (Build 3) /\
  (2 < card ->
   exists self angles,
     init card = Ret self /\ get_angles self = Ret angles /\
     Py.len angles = card - 1).
Proof.
  split; [|split].
  - intros H. unfold init. destruct (Z.leb_spec card 2); [reflexivity | lia].
  - reflexivity.
  - intros H. destruct (get_angles_ok (Build card) H) as (angles & E & L).
    exists (Build card), angles. unfold init.
    destruct (Z.leb_spec card 2); [lia | auto].
Qed.

Lemma get_angles_count_witness :
  init 2 = Raise ValueError /\
  exists self angles,
    init 6 = Ret self /\ get_angles self = Ret angles /\ Py.len angles = 6 - 1.
Proof.
  split.
  - apply (proj1 (get_angles_count 2)). lia.
  - apply (proj2 (proj2 (get_angles_count 6))). lia.
Defined.

(** C9. For [card = 5] the prefix sequence, empty prefix first, is
    ['', '0', '1', '00'] and four angles are produced.  In general the
    generated prefixes are the first [card - 2] strings of the
    breadth-first enumeration [levels 1 m] (all strings of length 1, then
    all of length 2, ...), and within a length the [k]-th string is the
    numeral of [k]. *)
Theorem prefix_sequence_breadth_first :
  (generate_prefix_binary_sequence (Build 5) = Ret [["0"]; ["1"]; ["0"; "0"]] /\
   exists angles, get_angles (Build 5) = Ret angles /\ Py.len angles = 4) /\
  (forall (self : t) (m : nat),
     2 < card self -> card self - 2 <= Py.len (levels 1 m) ->
     generate_prefix_binary_sequence self =
       Ret (firstn (Z.to_nat (card self - 2)) (levels 1 m))) /\
  (forall L k, 1 <= L -> 0 <= k < 2 ^ L ->
     exists s, nth_error (level L) (Z.to_nat k) = Some s /\
               binary s /\ Py.len s = L /\ val s = k).
Proof.
  split; [split|split].
  - reflexivity.
  - eexists. split; reflexivity.
  - intros self m. apply generate_prefix_spec.
  - intros L k. apply level_nth.
Qed.

Lemma prefix_sequence_breadth_first_witness :
  generate_prefix_binary_sequence (Build 7) =
    Ret [["0"]; ["1"]; ["0"; "0"]; ["0"; "1"]; ["1"; "0"]] /\
  exists s, nth_error (level 2) (Z.to_nat 3) = Some s /\
            binary s /\ Py.len s = 2 /\ val s = 3.
Proof.
  split.
  - apply (proj1 (proj2 prefix_sequence_breadth_first) (Build 7) 2%nat).
    + simpl. lia.
    + vm_compute. discriminate.
  - apply (proj2 (proj2 prefix_sequence_breadth_first) 2 3); lia.
Defined.

(** C10. For every [card > 2], every prefix that [get_angles] visits (the
    empty one included) has length at most [ceil(log2(card)) - 1], is the
    start of the reversed rendering of some index below [card], and gets
    counts with [N0 + N1 >= 1] from [partition_counter] without an
    [IndexError]; so [partition_angle] returns and [get_angles] raises
    nothing. *)
Theorem degenerate_partition_unreachable (self : t) :
  2 < card self ->
  exists seq,
    generate_prefix_binary_sequence self = Ret seq /\
    (forall prefix, In prefix ([] :: seq) ->
       Py.len prefix <= Py.ceil_log2 (card self) - 1 /\
       (exists i, matches_prefix (card self) prefix i) /\
       exists N_0 N_1 a,
         partition_counter self prefix = Ret (N_0, N_1) /\
         1 <= N_0 + N_1 /\
         partition_angle N_0 N_1 = Ret a) /\
    exists angles, get_angles self = Ret angles.
Proof.
  intros Hc.
  pose proof (levels_len_ge 1 (Z.to_nat (card self)) ltac:(lia)) as Hf.
  pose proof (generate_prefix_spec self (Z.to_nat (card self)) Hc ltac:(lia)) as E.
  pose proof (generated_prefixes_fit self _ Hc E) as Hfit.
  eexists. split; [exact E|]. split.
  - intros prefix Hin.
    rewrite Forall_forall in Hfit. destruct (Hfit prefix Hin) as [Hb Hp].
    destruct (partition_counter_ok self prefix Hc Hb Hp)
      as (Hl & Hm & N_0 & N_1 & Ec & H0 & H1).
    split; [exact Hl|]. split; [exact Hm|].
    exists N_0, N_1, (TwoAcosSqrt N_0 N_1).
    split; [exact Ec|]. split; [lia|]. now apply partition_angle_ok.
  - destruct (get_angles_ok self Hc) as (angles & Ea & _). now exists angles.
Qed.

Lemma degenerate_partition_unreachable_witness :
  exists seq,
    generate_prefix_binary_sequence (Build 5) = Ret seq /\
    (forall prefix, In prefix ([] :: seq) ->
       Py.len prefix <= Py.ceil_log2 5 - 1 /\
       (exists i, matches_prefix 5 prefix i) /\
       exists N_0 N_1 a,
         partition_counter (Build 5) prefix = Ret (N_0, N_1) /\
         1 <= N_0 + N_1 /\
         partition_angle N_0 N_1 = Ret a) /\
    exists angles, get_angles (Build 5) = Ret angles.
Proof.
  apply (degenerate_partition_unreachable (Build 5)). simpl. lia.
Defined.

End AngleClaims.

(** ** Control tags and the Grover-Rudolph circuit *)

Section Circuit.

Import GroverRudolphCircuit.

Lemma getitem_nth {A : Type} (l : list A) (j : Z) (d : A) :
  0 <= j < Py.len l -> Py.getitem l j = Ret (nth (Z.to_nat j) l d).
Proof.
  intros Hj. unfold Py.getitem.
  destruct (Z.ltb_spec j 0); [lia|].
  destruct (Z.ltb_spec j 0); [lia|].
  destruct (Z.leb_spec (Py.len l) j); [lia|]. cbn [orb].
  rewrite (nth_error_nth' l d); [reflexivity|]. unfold Py.len in Hj. lia.
Qed.

Lemma mapM_ret {A B : Type} (f : A -> outcome B) (g : A -> B) l :
  (forall a, In a l -> f a = Ret (g a)) -> Py.mapM f l = Ret (map g l).
Proof.
  induction l as [|a l IH]; intros H; cbn [Py.mapM map]; [reflexivity|].
  rewrite H by (now left). cbn [bind].
  rewrite IH by (intros; apply H; now right). reflexivity.
Qed.

Lemma int_of_char_bit c : is_bit c -> Py.int_of_char c = Ret (bit_val c).
Proof. intros [->| ->]; reflexivity. Qed.

Lemma mapM_int_binary s :
  binary s -> Py.mapM Py.int_of_char s = Ret (map bit_val s).
Proof.
  intros Hs. apply mapM_ret. intros c Hc. apply int_of_char_bit.
  unfold binary in Hs. rewrite Forall_forall in Hs. auto.
Qed.

(** Bounds that pin down [l] and [R] at a step [c >= 3]. *)
Lemma step_bounds c :
  3 <= c ->
  let l := Py.ceil_log2 c - 1 in
  1 <= l /\ 2 ^ l < c <= 2 ^ (l + 1) /\ 0 <= (c - 1) - 2 ^ l < 2 ^ l.
Proof.
  intros Hc l. destruct (ceil_log2_spec c ltac:(lia)) as [[Hlo Hup] H2].
  fold l in Hlo. replace (Py.ceil_log2 c) with (l + 1) in Hup by (unfold l; lia).
  assert (Hl : 1 <= l) by (unfold l; lia). clearbody l.
  rewrite Z.pow_add_r in * by lia. change (2 ^ 1) with 2 in *. lia.
Qed.

Lemma control_tag_ok self c : 3 <= c -> control_tag self c = Ret (tag_of c).
Proof.
  intros Hc. destruct (step_bounds c Hc) as (Hl & Hb & HR).
  unfold control_tag, Py.np_ceil_log2.
  destruct (Z.eqb_spec c 0); [lia|]. destruct (Z.ltb_spec c 0); [lia|].
  cbn [bind]. destruct (Z.ltb_spec (Py.ceil_log2 c - 1) 0); [lia|].
  destruct (format_0b_spec _ _ Hl HR) as (B & _ & _).
  rewrite mapM_int_binary by exact B. reflexivity.
Qed.

Lemma range2_in a b i : In i (Py.range2 a b) <-> a <= i < b.
Proof.
  unfold Py.range2. rewrite in_map_iff. split.
  - intros (k & <- & Hk). apply in_seq in Hk. lia.
  - intros Hi. exists (Z.to_nat (i - a)). split; [lia|]. apply in_seq. lia.
Qed.

Lemma range2_len a b : a <= b -> Py.len (Py.range2 a b) = b - a.
Proof. intros. unfold Py.len, Py.range2. rewrite length_map, length_seq. lia. Qed.

Lemma range2_nth a b i d :
  a <= i < b -> nth (Z.to_nat (i - a)) (Py.range2 a b) d = i.
Proof.
  intros Hi. unfold Py.range2.
  set (f := fun k : nat => a + Z.of_nat k).
  rewrite (nth_indep _ d (f 0%nat)) by (rewrite length_map, length_seq; lia).
  rewrite map_nth, seq_nth by lia. unfold f. lia.
Qed.

Lemma control_tag_list_ok self :
  2 < card self ->
  control_tag_list self =
    Ret (map (fun c => (c, tag_of c)) (Py.range2 3 (card self + 1))).
Proof.
  intros Hc. unfold control_tag_list. destruct (Z.ltb_spec (card self) 3); [lia|].
  apply mapM_ret. intros c Hin. apply range2_in in Hin.
  rewrite control_tag_ok by lia. reflexivity.
Qed.

Lemma reversed_qubits_len n : 0 <= n -> Py.len (reversed_qubits n) = n.
Proof.
  intros. unfold reversed_qubits, Py.len. rewrite length_rev, length_map.
  now apply range_len.
Qed.

(** One pass of the loop body appends the controlled rotation of the step. *)
Lemma circuit_step_ok card n angle_lst circuit step :
  2 < card -> Py.ceil_log2 card <= n -> Py.len angle_lst = card - 1 ->
  3 <= step <= card ->
  circuit_step (map (fun c => (c, tag_of c)) (Py.range2 3 (card + 1)))
               (reversed_qubits n) angle_lst circuit step =
    Ret (circuit ++ [controlled_rotation (reversed_qubits n) angle_lst step]).
Proof.
  intros Hc Hn Ha Hs.
  destruct (step_bounds step ltac:(lia)) as (Hl & Hb & _).
  assert (Hmono : Py.ceil_log2 step <= Py.ceil_log2 card)
    by (apply Z.log2_up_le_mono; lia).
  set (tags := map (fun c => (c, tag_of c)) (Py.range2 3 (card + 1))).
  assert (Htag : Py.getitem tags (step - 3) = Ret (step, tag_of step)).
  { set (f := fun c : Z => (c, tag_of c)) in *.
    rewrite (getitem_nth _ _ (f 0)).
    - unfold tags. rewrite map_nth, range2_nth by lia. reflexivity.
    - unfold tags, Py.len. rewrite length_map.
      pose proof (range2_len 3 (card + 1) ltac:(lia)) as E.
      unfold Py.len in E. lia. }
  unfold circuit_step. rewrite !Htag. cbn [bind snd].
  change (tag_l (tag_of step)) with (Py.ceil_log2 step - 1).
  rewrite (getitem_nth _ _ (LineQubit 0)) by (rewrite reversed_qubits_len; lia).
  cbn [bind].
  rewrite (getitem_nth _ _ (TwoAcosSqrt 0 0)) by lia. cbn [bind].
  unfold controlled_rotation, Py.slice_to.
  change (tag_l (tag_of step)) with (Py.ceil_log2 step - 1).
  destruct (Z.ltb_spec (Py.ceil_log2 step - 1) 0); [lia|]. reflexivity.
Qed.

Lemma circuit_for_ok card n angle_lst steps : forall circuit,
  2 < card -> Py.ceil_log2 card <= n -> Py.len angle_lst = card - 1 ->
  Forall (fun step => 3 <= step <= card) steps ->
  circuit_for (map (fun c => (c, tag_of c)) (Py.range2 3 (card + 1)))
              (reversed_qubits n) angle_lst steps circuit =
    Ret (circuit ++ map (controlled_rotation (reversed_qubits n) angle_lst) steps).
Proof.
  induction steps as [|step rest IH]; intros circuit Hc Hn Ha Hall.
  - cbn. now rewrite app_nil_r.
  - inversion Hall as [|? ? Hs Hrest]; subst. cbn [circuit_for map].
    rewrite circuit_step_ok by assumption. cbn [bind].
    rewrite IH by assumption. now rewrite <- app_assoc.
Qed.

Lemma generate_circuit_ok self n :
  2 < card self -> Py.ceil_log2 (card self) <= n ->
  exists angles,
    GroverRudolphAngles.get_angles (GroverRudolphAngles.Build (card self)) = Ret angles /\
    Py.len angles = card self - 1 /\
    generate_circuit self n = Ret (grover_rudolph_circuit n (card self) angles).
Proof.
  intros Hc Hn. destruct (ceil_log2_spec (card self) Hc) as [_ H2].
  destruct (get_angles_ok (GroverRudolphAngles.Build (card self)) Hc)
    as (angles & Ea & La).
  cbn [GroverRudolphAngles.card] in La.
  exists angles. split; [exact Ea|]. split; [exact La|].
  unfold generate_circuit.
  destruct (Z.leb_spec (card self) 2); [lia|].
  destruct (Z.leb_spec n 0); [lia|].
  destruct (Z.ltb_spec n (Py.ceil_log2 (card self))); [lia|]. cbn [orb].
  unfold GroverRudolphAngles.init.
  destruct (Z.leb_spec (card self) 2); [lia|]. cbn [bind].
  rewrite Ea. cbn [bind].
  rewrite control_tag_list_ok by exact Hc. cbn [bind].
  destruct (Z.eqb_spec (card self) 2); [lia|].
  rewrite (getitem_nth _ _ (TwoAcosSqrt 0 0)) by lia. cbn [bind].
  fold (reversed_qubits n).
  rewrite (getitem_nth _ _ (LineQubit 0)) by (rewrite reversed_qubits_len; lia).
  cbn [bind].
  rewrite (circuit_for_ok (card self)); auto.
  apply Forall_forall. intros step Hin. apply range2_in in Hin. lia.
Qed.

(** C5. For every step [c >= 3], up to the bound [2^48] below which the
    float64 logarithm of the code has the exact ceiling, [control_tag c]
    returns [l = ceil(log2(c)) - 1] (that is, [2^l < c <= 2^(l+1)]),
    [R = (c - 1) - 2^l] with [0 <= R < 2^l], and [bin_sig] the rendering of
    [R] in exactly [l] bits; this [l] is [floor(log2(c - 1))] (that is,
    [2^l <= c - 1 < 2^(l+1)]), so [bin_sig] has that length. *)
Theorem control_tag_spec (self : t) (c : Z) :
  3 <= c -> c <= Py.log2_exact_bound ->
  exists tg,
    control_tag self c = Ret tg /\
    tag_l tg = Py.ceil_log2 c - 1 /\
    2 ^ tag_l tg < c <= 2 ^ (tag_l tg + 1) /\
    tag_R tg = (c - 1) - 2 ^ tag_l tg /\
    0 <= tag_R tg < 2 ^ tag_l tg /\
    binary (tag_bin_sig tg) /\
    val (tag_bin_sig tg) = tag_R tg /\
    Py.len (tag_bin_sig tg) = tag_l tg /\
    tag_l tg = Z.log2 (c - 1) /\
    2 ^ tag_l tg <= c - 1 < 2 ^ (tag_l tg + 1) /\
    Py.len (tag_bin_sig tg) = Z.log2 (c - 1).
Proof.
  intros Hc _. exists (tag_of c). split; [now apply control_tag_ok|].
  destruct (step_bounds c Hc) as (Hl & Hb & HR).
  destruct (format_0b_spec _ _ Hl HR) as (B & L & V).
  cbn [tag_of tag_l tag_R tag_bin_sig].
  assert (Hlog : Py.ceil_log2 c - 1 = Z.log2 (c - 1)).
  { symmetry. apply Z.log2_unique; lia. }
  repeat split; try assumption; try lia; congruence.
Qed.

Lemma control_tag_spec_witness :
  exists tg,
    control_tag (Build 6) 6 = Ret tg /\
    tag_l tg = Py.ceil_log2 6 - 1 /\
    2 ^ tag_l tg < 6 <= 2 ^ (tag_l tg + 1) /\
    tag_R tg = (6 - 1) - 2 ^ tag_l tg /\
    0 <= tag_R tg < 2 ^ tag_l tg /\
    binary (tag_bin_sig tg) /\
    val (tag_bin_sig tg) = tag_R tg /\
    Py.len (tag_bin_sig tg) = tag_l tg /\
    tag_l tg = Z.log2 (6 - 1) /\
    2 ^ tag_l tg <= 6 - 1 < 2 ^ (tag_l tg + 1) /\
    Py.len (tag_bin_sig tg) = Z.log2 (6 - 1).
Proof.
  apply (control_tag_spec (Build 6) 6); [lia|].
  unfold Py.log2_exact_bound. lia.
Defined.

(** C3. Construction raises when [card <= 2].  For [card > 2], up to the
    bound [2^48] below which the float64 logarithm of the code has the exact
    ceiling, [generate_circuit] raises [ValueError] when
    [num_qbs < ceil(log2(card))]; otherwise it returns exactly [card - 1]
    operations: the rotation by [angles[0]] on the first qubit, then for
    every step of [3..card], in order, the rotation by [angles[step - 2]]
    controlled on qubits [[0, l)] with the control signature that
    [control_tag] gives the step, and targeting qubit [l]. *)
Theorem generate_circuit_spec (card num_qbs : Z) :
  (card <= 2 -> init card = Raise ValueError) /\
  (2 < card <= Py.log2_exact_bound -> num_qbs < Py.ceil_log2 card ->
   init card = Ret (Build card) /\
   generate_circuit (Build card) num_qbs = Raise ValueError) /\
  (2 < card <= Py.log2_exact_bound -> Py.ceil_log2 card <= num_qbs ->
   exists angles circuit,
     init card = Ret (Build card) /\
     GroverRudolphAngles.get_angles (GroverRudolphAngles.Build card) = Ret angles /\
     generate_circuit (Build card) num_qbs = Ret circuit /\
     Py.len circuit = card - 1 /\
     circuit =
       on (Ry (nth 0 angles (TwoAcosSqrt 0 0)))
          [nth 0 (reversed_qubits num_qbs) (LineQubit 0)]
       :: map (controlled_rotation (reversed_qubits num_qbs) angles)
              (Py.range2 3 (card + 1)) /\
     forall step, 3 <= step <= card ->
       exists tg,
         control_tag (Build card) step = Ret tg /\
         nth (Z.to_nat (step - 2)) circuit (on X []) =
           on (ControlledGate
                 (Ry (nth (Z.to_nat (step - 2)) angles (TwoAcosSqrt 0 0)))
                 (tag_l tg) (tag_ctrl_sig tg))
              (firstn (Z.to_nat (tag_l tg)) (reversed_qubits num_qbs) ++
               [nth (Z.to_nat (tag_l tg)) (reversed_qubits num_qbs) (LineQubit 0)])).
Proof.
  assert (Hinit : 2 < card -> init card = Ret (Build card)).
  { intros H. unfold init. destruct (Z.leb_spec card 2); [lia | reflexivity]. }
  split; [|split].
  - intros H. unfold init. destruct (Z.leb_spec card 2); [reflexivity | lia].
  - intros [Hc _] Hn. split; [auto|]. unfold generate_circuit. cbn [GroverRudolphCircuit.card].
    destruct (Z.leb_spec card 2); [lia|].
    destruct (Z.ltb_spec num_qbs (Py.ceil_log2 card)); [|lia].
    now rewrite orb_true_r.
  - intros [Hc _] Hn.
    destruct (generate_circuit_ok (Build card) num_qbs Hc Hn) as (angles & Ea & La & Eg).
    cbn [GroverRudolphCircuit.card] in *.
    exists angles, (grover_rudolph_circuit num_qbs card angles).
    split; [auto|]. split; [exact Ea|]. split; [exact Eg|].
    split; [|split; [reflexivity|]].
    + unfold grover_rudolph_circuit, Py.len. cbn [length]. rewrite length_map.
      pose proof (range2_len 3 (card + 1) ltac:(lia)) as E. unfold Py.len in E. lia.
    + intros step Hs. exists (tag_of step).
      split; [apply control_tag_ok; lia|].
      unfold grover_rudolph_circuit.
      replace (Z.to_nat (step - 2)) with (S (Z.to_nat (step - 3))) at 1 by lia.
      cbn [nth].
      set (f := controlled_rotation (reversed_qubits num_qbs) angles).
      rewrite (nth_indep _ (on X []) (f 0)).
      * rewrite map_nth, range2_nth by lia. reflexivity.
      * rewrite length_map.
        pose proof (range2_len 3 (card + 1) ltac:(lia)) as E. unfold Py.len in E. lia.
Qed.

Lemma generate_circuit_spec_witness :
  init 2 = Raise ValueError /\
  generate_circuit (Build 5) 2 = Raise ValueError /\
  exists angles circuit,
    GroverRudolphAngles.get_angles (GroverRudolphAngles.Build 5) = Ret angles /\
    generate_circuit (Build 5) 3 = Ret circuit /\
    Py.len circuit = 5 - 1.
Proof.
  split; [|split].
  - apply (proj1 (generate_circuit_spec 2 0)). lia.
  - apply (proj1 (proj2 (generate_circuit_spec 5 2)));
      [unfold Py.log2_exact_bound; lia | vm_compute; reflexivity].
  - destruct (proj2 (proj2 (generate_circuit_spec 5 3)))
      as (angles & circuit & _ & Ea & Eg & L & _);
      [unfold Py.log2_exact_bound; lia | vm_compute; discriminate |].
    exists angles, circuit. auto.
Defined.

End Circuit.

(** ** Cycle following *)

Section Cycles.

Import SubsetPermutation.

Lemma update_length {A : Type} (v : A) l : forall k,
  length (Py.update l k v) = length l.
Proof.
  induction l as [|a l IH]; intros [|k]; simpl; auto.
Qed.

Lemma setitem_in_range {A : Type} (l : list A) j v :
  0 <= j < Py.len l ->
  exists l', Py.setitem l j v = Ret l' /\ Py.len l' = Py.len l.
Proof.
  intros Hj. unfold Py.setitem.
  destruct (Z.ltb_spec j 0); [lia|].
  destruct (Z.ltb_spec j 0); [lia|].
  destruct (Z.leb_spec (Py.len l) j); [lia|]. cbn [orb].
  eexists. split; [reflexivity|]. unfold Py.len. now rewrite update_length.
Qed.

Lemma in_range_nth target j :
  in_range_mapping target -> 0 <= j < Py.len target ->
  0 <= nth (Z.to_nat j) target 0 < Py.len target.
Proof.
  intros Hr Hj. unfold in_range_mapping in Hr. rewrite Forall_forall in Hr.
  apply Hr, nth_In. unfold Py.len in Hj. lia.
Qed.

(** On an in-range mapping the test [j < d] never fails: the loop uses up
    any amount of fuel. *)
Lemma cycle_while_never_returns self :
  in_range_mapping (target_subset self) ->
  forall fuel used j cycle,
    0 <= j < Py.len (target_subset self) ->
    Py.len used = Py.len (target_subset self) ->
    cycle_while fuel self (Py.len (target_subset self)) used j cycle = OutOfFuel.
Proof.
  intros Hr. induction fuel as [|fuel IH]; intros used j cycle Hj Hu;
    cbn [cycle_while]; destruct (Z.ltb_spec j (Py.len (target_subset self)));
    try lia; [reflexivity|].
  destruct (setitem_in_range used j true ltac:(lia)) as (used' & -> & Hu').
  cbn [bind]. rewrite (getitem_nth _ _ 0) by lia. cbn [bind].
  apply IH; [now apply in_range_nth | lia].
Qed.

Lemma getitem_repeat_false k i :
  0 <= i < Z.of_nat k -> Py.getitem (repeat false k) i = Ret false.
Proof.
  intros Hi. rewrite (getitem_nth _ _ false)
    by (unfold Py.len; rewrite repeat_length; lia).
  f_equal. apply nth_repeat.
Qed.

(** Fixed points are skipped without touching [used]; the first index that
    is not a fixed point starts a loop that never ends. *)
Lemma cycles_for_never_returns self fuel :
  in_range_mapping (target_subset self) ->
  forall idxs cycles,
    Forall (fun i => 0 <= i < Py.len (target_subset self)) idxs ->
    Exists (fun i => nth (Z.to_nat i) (target_subset self) 0 <> i) idxs ->
    cycles_for fuel self (Py.len (target_subset self)) idxs
               (repeat false (Z.to_nat (Py.len (target_subset self)))) cycles
    = OutOfFuel.
Proof.
  intros Hr. induction idxs as [|i rest IH]; intros cycles Hall Hex.
  - inversion Hex.
  - inversion Hall as [|? ? Hi Hrest]; subst. cbn [cycles_for].
    rewrite getitem_repeat_false by lia. cbn [bind].
    rewrite !(getitem_nth _ _ 0) by lia. cbn [bind].
    destruct (Z.eqb_spec (nth (Z.to_nat i) (target_subset self) 0) i) as [E|E].
    + apply IH; [assumption|]. inversion Hex; subst; [contradiction | assumption].
    + rewrite cycle_while_never_returns; [reflexivity | assumption | |].
      * now apply in_range_nth.
      * unfold Py.len. rewrite repeat_length. lia.
Qed.

(** [permutation_cycles] returns on no in-range mapping that moves some
    index, whatever the fuel. *)
Lemma permutation_cycles_never_returns self fuel :
  in_range_mapping (target_subset self) ->
  (exists i, 0 <= i < Py.len (target_subset self) /\
             nth (Z.to_nat i) (target_subset self) 0 <> i) ->
  permutation_cycles fuel self = OutOfFuel.
Proof.
  intros Hr (i & Hi & Hne). unfold permutation_cycles.
  apply cycles_for_never_returns; [assumption | |].
  - apply Forall_forall. intros k Hk. now apply range_in in Hk.
  - apply Exists_exists. exists i. split; [now apply range_in | assumption].
Qed.

(** The identity is the one permutation on which it returns. *)
Lemma permutation_cycles_identity :
  permutation_cycles 0 (Build [0; 1; 2] [0; 1; 2]) = Ret [].
Proof. reflexivity. Qed.

(** Where target values leave [[0, d)], every chain ends at the first value
    outside, and an index can be written into two chains. *)
Lemma permutation_cycles_sparse :
  permutation_cycles 8 (Build [0; 1; 2; 3] [2; 4; 6; 8]) =
    Ret [[0; 2; 6]; [1; 4]; [3; 8]] /\
  permutation_cycles 8 (Build [0; 1] [5; 0]) = Ret [[0; 5]; [1; 0; 5]].
Proof. split; reflexivity. Qed.

(** C1. On the transposition [[1, 0]], whose decomposition is the single
    cycle (0 1), [permutation_cycles] returns no decomposition for any
    amount of fuel: the run of the loop started at index 0 never ends. *)
Theorem permutation_cycles_no_partition_of_swap :
  forall fuel, permutation_cycles fuel (Build [0; 1] [1; 0]) = OutOfFuel.
Proof.
  intros fuel. apply permutation_cycles_never_returns.
  - repeat constructor; cbn; lia.
  - exists 0. cbn. split; lia.
Qed.

(** C2. On [gr_subset = [0, 1, 2, 3]], [target_subset = [1, 3, 0, 2]] the
    cycle-following loop does not stop within any number of steps. *)
Theorem permutation_cycles_diverges_on_scenario_2 :
  forall fuel, permutation_cycles fuel (Build [0; 1; 2; 3] [1; 3; 0; 2]) = OutOfFuel.
Proof.
  intros fuel. apply permutation_cycles_never_returns.
  - repeat constructor; cbn; lia.
  - exists 0. cbn. split; lia.
Qed.

End Cycles.

(** ** The Gray-code gate *)

Section GrayCode.

Import gray_code_gate.

Lemma lxor_bits a b :
  is_bit a -> is_bit b ->
  (Z.lxor (bit_val a) (bit_val b) =? 1) = negb (Ascii.eqb a b).
Proof. intros [->| ->] [->| ->]; reflexivity. Qed.

Lemma mapM_xor_chars s1 s2 :
  binary s1 -> binary s2 ->
  Py.mapM xor_chars (combine s1 s2) =
    Ret (map (fun b => Z.lxor (bit_val (fst b)) (bit_val (snd b))) (combine s1 s2)).
Proof.
  intros H1 H2. apply mapM_ret. intros [a b] Hin. unfold xor_chars. cbn [fst snd].
  unfold binary in *. rewrite Forall_forall in H1, H2.
  rewrite !int_of_char_bit;
    eauto using in_combine_l, in_combine_r.
Qed.

Lemma decompose_for_flips qubits s1 : forall s2 k,
  binary s1 -> binary s2 -> length s1 = length s2 ->
  (k + length s1 <= length qubits)%nat ->
  decompose_for qubits
    (combine (map Z.of_nat (seq k (length s1)))
             (map (fun b => Z.lxor (bit_val (fst b)) (bit_val (snd b)))
                  (combine s1 s2)))
  = Ret (flips qubits k s1 s2).
Proof.
  induction s1 as [|a r1 IH]; intros [|b r2] k H1 H2 Hl Hk;
    simpl in Hl; try discriminate; [reflexivity|].
  inversion H1 as [|? ? Ha H1']; inversion H2 as [|? ? Hb H2']; subst.
  cbn [length seq map combine decompose_for flips fst snd].
  rewrite lxor_bits by assumption.
  simpl length in Hk.
  specialize (IH r2 (S k) H1' H2' ltac:(lia) ltac:(lia)).
  destruct (Ascii.eqb a b); cbn [negb app].
  - exact IH.
  - rewrite (getitem_nth _ _ (LineQubit 0)) by (unfold Py.len; lia).
    rewrite Nat2Z.id. cbn [bind]. rewrite IH. reflexivity.
Qed.

Lemma in_flips qubits q s1 : forall s2 k,
  In (on X [q]) (flips qubits k s1 s2) <->
  exists i, (i < length s1)%nat /\ (i < length s2)%nat /\
            q = nth (k + i) qubits (LineQubit 0) /\
            nth i s1 "0" <> nth i s2 "0".
Proof.
  induction s1 as [|a r1 IH]; intros [|b r2] k; cbn [flips];
    try (split; [contradiction | intros (i & H1 & H2 & _); simpl in *; lia]).
  rewrite in_app_iff, IH. split.
  - intros [Hin|(i & H1 & H2 & -> & Hne)].
    + destruct (Ascii.eqb a b) eqn:E; [contradiction|].
      destruct Hin as [[= <-]|[]]. exists 0%nat.
      rewrite Nat.add_0_r. simpl. repeat split; try lia.
      now apply Ascii.eqb_neq.
    + exists (S i). simpl. repeat split; try lia; [f_equal; lia | exact Hne].
  - intros ([|i] & H1 & H2 & -> & Hne); simpl in *.
    + left. apply Ascii.eqb_neq in Hne. rewrite Hne, Nat.add_0_r. now left.
    + right. exists i. repeat split; try lia; [f_equal; lia | exact Hne].
Qed.

Lemma flips_are_X qubits s1 : forall s2 k op,
  (k + length s1 <= length qubits)%nat ->
  In op (flips qubits k s1 s2) -> exists q, In q qubits /\ op = on X [q].
Proof.
  induction s1 as [|a r1 IH]; intros [|b r2] k op Hk; cbn [flips];
    try contradiction.
  simpl length in Hk. rewrite in_app_iff. intros [Hin|Hin].
  - destruct (Ascii.eqb a b); [contradiction|]. destruct Hin as [<-|[]].
    eexists. split; [|reflexivity]. apply nth_In. lia.
  - apply (IH r2 (S k)); [lia | exact Hin].
Qed.

(** C8. For binary strings of one length, the decomposition of the
    Gray-code gate is made of [X] operations only, and it holds an [X] on
    the qubit at position [i] exactly when the [i]-th bits of the two
    strings differ. *)
Theorem gray_code_gate_flips_differing_bits
    (n : Z) (s1 s2 : str) (qubits : list Qid) :
  binary s1 -> binary s2 ->
  Py.len s1 = n -> Py.len s2 = n -> Py.len qubits = n -> NoDup qubits ->
  exists self ops,
    init n s1 s2 = Ret self /\
    _decompose_ self qubits = Ret ops /\
    ops = flips qubits 0 s1 s2 /\
    (forall op, In op ops -> exists q, In q qubits /\ op = on X [q]) /\
    (forall i, (i < length qubits)%nat ->
       In (on X [nth i qubits (LineQubit 0)]) ops <->
       nth i s1 "0" <> nth i s2 "0").
Proof.
  intros H1 H2 L1 L2 Lq Hnd.
  assert (Hl : length s1 = length s2) by (unfold Py.len in *; lia).
  assert (Hq : length qubits = length s1) by (unfold Py.len in *; lia).
  exists (Build n s1 s2), (flips qubits 0 s1 s2).
  split; [|split; [|split; [reflexivity|split]]].
  - unfold init. pose proof (len_nonneg s1).
    destruct (Z.ltb_spec n 0); [lia|].
    rewrite L1, L2, Z.eqb_refl. reflexivity.
  - unfold _decompose_. cbn [binary_str_1 binary_str_2].
    rewrite mapM_xor_chars by assumption. cbn [bind].
    unfold Py.enumerate, Py.range, Py.len.
    rewrite length_map, length_combine, <- Hl, Nat.min_id, Nat2Z.id.
    apply decompose_for_flips; auto. lia.
  - intros op. apply flips_are_X. lia.
  - intros i Hi. rewrite in_flips. split.
    + intros (i' & Hi1 & Hi2 & E & Hne). cbn [Nat.add] in E.
      apply NoDup_nth in E; [subst; exact Hne | exact Hnd | lia | lia].
    + intros Hne. exists i. repeat split; try lia. exact Hne.
Qed.

Lemma gray_code_gate_flips_differing_bits_witness :
  exists self ops,
    init 3 ["0"; "1"; "1"] ["1"; "1"; "0"] = Ret self /\
    _decompose_ self [LineQubit 0; LineQubit 1; LineQubit 2] = Ret ops /\
    ops = flips [LineQubit 0; LineQubit 1; LineQubit 2] 0
                ["0"; "1"; "1"] ["1"; "1"; "0"] /\
    (forall op, In op ops ->
       exists q, In q [LineQubit 0; LineQubit 1; LineQubit 2] /\ op = on X [q]) /\
    (forall i, (i < 3)%nat ->
       In (on X [nth i [LineQubit 0; LineQubit 1; LineQubit 2] (LineQubit 0)]) ops <->
       nth i ["0"; "1"; "1"] "0" <> nth i ["1"; "1"; "0"] "0").
Proof.
  apply (gray_code_gate_flips_differing_bits 3 ["0"; "1"; "1"] ["1"; "1"; "0"]
           [LineQubit 0; LineQubit 1; LineQubit 2]).
  - repeat constructor; (now left) || (now right).
  - repeat constructor; (now left) || (now right).
  - reflexivity.
  - reflexivity.
  - reflexivity.
  - repeat constructor; simpl; intuition discriminate.
Defined.

End GrayCode.

(** ** The gate of one permutation cycle *)

Section CycleGate.

Import permutation_cycle_gate.

Lemma init_ok num_qubits cycle :
  0 <= num_qubits ->
  Forall (fun x => 0 <= x < 2 ^ num_qubits) cycle ->
  init num_qubits cycle = Ret (Build num_qubits cycle).
Proof.
  intros Hn Hall. unfold init.
  replace (forallb (fun x => (0 <=? x) && Py.lt_pow2 x num_qubits) cycle) with true;
    [reflexivity|].
  symmetry. apply forallb_forall. intros x Hx.
  rewrite Forall_forall in Hall. specialize (Hall x Hx).
  unfold Py.lt_pow2. destruct (Z.ltb_spec num_qubits 0); [lia|].
  apply andb_true_iff. split; [apply Z.leb_le | apply Z.ltb_lt]; lia.
Qed.

Lemma cycle_nth_range num_qubits cycle k :
  Forall (fun x => 0 <= x < 2 ^ num_qubits) cycle ->
  0 <= k < Py.len cycle ->
  0 <= nth (Z.to_nat k) cycle 0 < 2 ^ num_qubits.
Proof.
  intros Hall Hk. rewrite Forall_forall in Hall.
  apply Hall, nth_In. unfold Py.len in Hk. lia.
Qed.

(** One pass of the loop yields the marking gate, then the Gray-code gate. *)
Lemma decompose_step_ok self data ancilla k :
  1 <= n self ->
  Forall (fun x => 0 <= x < 2 ^ n self) (cycle self) ->
  0 <= k < Py.len (cycle self) ->
  decompose_step self data ancilla (Py.len (cycle self)) k =
    Ret [mark (n self) data ancilla (nth (Z.to_nat k) (cycle self) 0);
         gray_step (n self) data ancilla (nth (Z.to_nat k) (cycle self) 0)
           (nth (Z.to_nat ((k + 1) mod Py.len (cycle self))) (cycle self) 0)].
Proof.
  intros Hn Hall Hk. unfold decompose_step.
  assert (Hm : 0 <= (k + 1) mod Py.len (cycle self) < Py.len (cycle self))
    by (apply Z.mod_pos_bound; lia).
  rewrite !(getitem_nth _ _ 0) by assumption. cbn [bind].
  pose proof (cycle_nth_range _ _ k Hall Hk) as Hx.
  pose proof (cycle_nth_range _ _ _ Hall Hm) as Hy.
  rewrite !zfill_bin_format by lia.
  destruct (format_0b_spec _ _ Hn Hx) as (Bx & Lx & _).
  destruct (format_0b_spec _ _ Hn Hy) as (By & Ly & _).
  rewrite mapM_int_binary by exact Bx. cbn [bind].
  unfold gray_code_gate.init.
  destruct (Z.ltb_spec (n self) 0); [lia|].
  rewrite Lx, Ly, Z.eqb_refl. cbn [negb orb bind]. reflexivity.
Qed.

Lemma decompose_for_ok self data ancilla ks :
  1 <= n self ->
  Forall (fun x => 0 <= x < 2 ^ n self) (cycle self) ->
  Forall (fun k => 0 <= k < Py.len (cycle self)) ks ->
  decompose_for self data ancilla (Py.len (cycle self)) ks =
    Ret (flat_map
           (fun k =>
              [mark (n self) data ancilla (nth (Z.to_nat k) (cycle self) 0);
               gray_step (n self) data ancilla (nth (Z.to_nat k) (cycle self) 0)
                 (nth (Z.to_nat ((k + 1) mod Py.len (cycle self))) (cycle self) 0)])
           ks).
Proof.
  intros Hn Hall. induction 1 as [|k ks Hk _ IH]; [reflexivity|].
  cbn [decompose_for flat_map]. rewrite decompose_step_ok by assumption.
  cbn [bind]. rewrite IH. reflexivity.
Qed.

Lemma flat_map_pair_length {A B : Type} (f g : A -> B) l :
  length (flat_map (fun a => [f a; g a]) l) = (2 * length l)%nat.
Proof. induction l as [|a l IH]; simpl; lia. Qed.

Lemma decompose_ok num_qubits cycle qubits :
  1 <= num_qubits -> cycle <> [] ->
  Forall (fun x => 0 <= x < 2 ^ num_qubits) cycle ->
  Py.len qubits = num_qubits + 1 ->
  _decompose_ (Build num_qubits cycle) qubits =
    Ret (cycle_circuit num_qubits qubits cycle).
Proof.
  intros Hn Hne Hall Hq. unfold _decompose_. cbn [permutation_cycle_gate.n permutation_cycle_gate.cycle].
  assert (Hl : 1 <= Py.len cycle)
    by (destruct cycle; [congruence | unfold Py.len; simpl length; lia]).
  rewrite (getitem_nth _ _ (LineQubit 0)) by lia. cbn [bind].
  rewrite (decompose_for_ok (Build num_qubits cycle)); cbn [permutation_cycle_gate.n permutation_cycle_gate.cycle]; auto.
  2:{ apply Forall_forall. intros k Hk. now apply range_in in Hk. }
  cbn [bind]. rewrite (getitem_nth _ _ 0) by lia. cbn [bind].
  pose proof (cycle_nth_range num_qubits cycle 0 Hall ltac:(lia)) as H0.
  change (Z.to_nat 0) with 0%nat in *.
  rewrite zfill_bin_format by lia.
  destruct (format_0b_spec num_qubits _ Hn H0) as (B0 & _ & _).
  rewrite mapM_int_binary by exact B0. cbn [bind].
  unfold cycle_circuit, Py.slice_to.
  destruct (Z.ltb_spec num_qubits 0); [lia|]. reflexivity.
Qed.

(** C6, as stated, fails: a cycle of length 2 gives 5 operations, not 3.
    An empty cycle, and a register without data qubits, give no operation
    sequence at all. *)
Lemma cycle_gate_not_l_plus_1 :
  (exists self ops,
     init 1 [0; 1] = Ret self /\
     _decompose_ self [LineQubit 0; LineQubit 1] = Ret ops /\
     Py.len ops = 5 /\ Py.len ops <> Py.len [0; 1] + 1) /\
  (exists self,
     init 1 [] = Ret self /\
     _decompose_ self [LineQubit 0; LineQubit 1] = Raise IndexError) /\
  (exists self,
     init 0 [0] = Ret self /\ _decompose_ self [LineQubit 0] = Raise ValueError).
Proof.
  split; [|split].
  - eexists _, _. repeat split; try reflexivity. vm_compute. discriminate.
  - eexists. split; reflexivity.
  - eexists. split; reflexivity.
Qed.

(** C6, amended.  For [num_qubits >= 1], a non-empty cycle of length [l]
    with elements in [[0, 2^num_qubits)] and [num_qubits + 1] pairwise
    distinct qubits, the decomposition consists of exactly [2 l + 1]
    operations: for each [k] the marking gate of [x_k]
    followed by the ancilla-controlled Gray-code gate from [x_k] to
    [x_(k+1 mod l)], then the marking gate of [x_0].  Every operation acts on
    the [num_qubits] data qubits and on the one ancilla, the qubit at
    position [num_qubits]. *)
Theorem cycle_gate_operations
    (num_qubits : Z) (cycle : list Z) (qubits : list Qid) :
  1 <= num_qubits -> cycle <> [] ->
  Forall (fun x => 0 <= x < 2 ^ num_qubits) cycle ->
  Py.len qubits = num_qubits + 1 -> NoDup qubits ->
  exists self ops,
    init num_qubits cycle = Ret self /\
    _decompose_ self qubits = Ret ops /\
    ops = cycle_circuit num_qubits qubits cycle /\
    Py.len ops = 2 * Py.len cycle + 1 /\
    let data := firstn (Z.to_nat num_qubits) qubits in
    let ancilla := nth (Z.to_nat num_qubits) qubits (LineQubit 0) in
    qubits = data ++ [ancilla] /\
    forall op, In op ops ->
      op_qubits op = data ++ [ancilla] \/ op_qubits op = ancilla :: data.
Proof.
  intros Hn Hne Hall Hq _.
  exists (Build num_qubits cycle), (cycle_circuit num_qubits qubits cycle).
  split; [apply init_ok; [lia | assumption]|].
  split; [now apply decompose_ok|]. split; [reflexivity|]. split; [|split].
  - unfold cycle_circuit, Py.len. rewrite length_app, flat_map_pair_length.
    unfold Py.range. rewrite length_map, length_seq. simpl length. lia.
  - rewrite <- (firstn_skipn (Z.to_nat num_qubits) qubits) at 1. f_equal.
    assert (Hs : length (skipn (Z.to_nat num_qubits) qubits) = 1%nat)
      by (rewrite length_skipn; unfold Py.len in Hq; lia).
    rewrite <- (firstn_skipn (Z.to_nat num_qubits) qubits) at 2.
    rewrite app_nth2 by (rewrite length_firstn; unfold Py.len in Hq; lia).
    rewrite length_firstn.
    replace (Z.to_nat num_qubits - Nat.min (Z.to_nat num_qubits) (length qubits))%nat
      with 0%nat by (unfold Py.len in Hq; lia).
    destruct (skipn (Z.to_nat num_qubits) qubits) as [|q [|q' r]];
      simpl in Hs; try lia. reflexivity.
  - intros op Hin. unfold cycle_circuit in Hin.
    apply in_app_or in Hin as [Hin|[<-|[]]]; [|left; reflexivity].
    apply in_flat_map in Hin as (k & _ & [<-|[<-|[]]]);
      [left | right]; reflexivity.
Qed.

Lemma cycle_gate_operations_witness :
  exists self ops,
    init 2 [0; 1; 3] = Ret self /\
    _decompose_ self [LineQubit 0; LineQubit 1; LineQubit 2] = Ret ops /\
    Py.len ops = 2 * Py.len [0; 1; 3] + 1.
Proof.
  destruct (cycle_gate_operations 2 [0; 1; 3]
              [LineQubit 0; LineQubit 1; LineQubit 2])
    as (self & ops & Ei & Ed & _ & L & _).
  - lia.
  - discriminate.
  - repeat constructor; cbn; lia.
  - reflexivity.
  - repeat constructor; simpl; intuition discriminate.
  - exists self, ops. auto.
Defined.

End CycleGate.

(** ** Entry validation *)

Section Validation.

Lemma fold_max_ge t : forall x, x <= fold_left Z.max t x.
Proof.
  induction t as [|y t IH]; intros x; cbn [fold_left]; [lia|].
  specialize (IH (Z.max x y)). lia.
Qed.

Lemma fold_max_in t : forall x y, In y t -> y <= fold_left Z.max t x.
Proof.
  induction t as [|z t IH]; intros x y Hin; cbn [fold_left]; [contradiction|].
  destruct Hin as [->|Hin]; [|now apply IH].
  pose proof (fold_max_ge t (Z.max x y)). lia.
Qed.

Lemma fold_max_lt t b : forall x,
  x < b -> Forall (fun y => y < b) t -> fold_left Z.max t x < b.
Proof.
  induction t as [|z t IH]; intros x Hx Hall; cbn [fold_left]; [assumption|].
  inversion Hall; subst. apply IH; [lia | assumption].
Qed.

(** C7, as stated, fails: the subset [[5, 5, 6]] on three qubits has a
    repeated element and passes the validation. *)
Lemma validation_accepts_repeated_elements : ~ rejects_bad_subsets 3 3 [5; 5; 6].
Proof.
  unfold rejects_bad_subsets. intros H.
  assert (Hbad : ~ NoDup [5; 5; 6]).
  { intros ND. inversion ND as [|? ? Hnin _]; subst. apply Hnin. now left. }
  specialize (H (or_intror Hbad)). vm_compute in H. discriminate.
Qed.

(** The range test of [main] lets through the bound [2^num_qubits] itself
    and negative elements, which the validation of
    [SubsetGenerator.generate_custom_subset] turns down. *)
Lemma validation_range_slip :
  main_error_checking 3 3 [8; 1; 2] = Ret tt /\
  main_error_checking 3 3 [-1; 1; 2] = Ret tt /\
  SubsetGenerator.generate_custom_subset (SubsetGenerator.Build 3 3) [8; 1; 2]
    = Raise ValueError /\
  SubsetGenerator.generate_custom_subset (SubsetGenerator.Build 3 3) [-1; 1; 2]
    = Raise ValueError /\
  SubsetGenerator.generate_custom_subset (SubsetGenerator.Build 3 3) [5; 5; 6]
    = Ret tt.
Proof. repeat split; reflexivity. Qed.

(** C7, amended.  The validation that opens [main] raises [ValueError]
    when the subset length differs from the cardinality and when some
    element is greater than [2^num_qubits]; it returns on every non-empty
    subset of that length whose elements all lie in [[0, 2^num_qubits)],
    whether or not they are distinct. *)
Theorem main_error_checking_spec
    (num_qubits cardinality : Z) (target_subset : list Z) :
  (Py.len target_subset <> cardinality ->
   main_error_checking num_qubits cardinality target_subset = Raise ValueError) /\
  (Exists (fun x => 2 ^ num_qubits < x) target_subset ->
   main_error_checking num_qubits cardinality target_subset = Raise ValueError) /\
  (Py.len target_subset = cardinality -> target_subset <> [] ->
   Forall (fun x => 0 <= x < 2 ^ num_qubits) target_subset ->
   main_error_checking num_qubits cardinality target_subset = Ret tt) /\
  main_error_checking 3 3 [5; 5; 6] = Ret tt.
Proof.
  split; [|split; [|split]].
  - intros H. unfold main_error_checking.
    destruct (Z.eqb_spec (Py.len target_subset) cardinality); [contradiction|].
    reflexivity.
  - intros H. unfold main_error_checking.
    destruct (Z.eqb_spec (Py.len target_subset) cardinality); [|reflexivity].
    cbn [negb]. apply Exists_exists in H as (x & Hin & Hx).
    destruct target_subset as [|y t]; [contradiction|]. cbn [Py.max bind].
    assert (Hm : x <= fold_left Z.max t y).
    { destruct Hin as [->|Hin]; [apply fold_max_ge | now apply fold_max_in]. }
    unfold Py.gt_pow2. destruct (Z.ltb_spec num_qubits 0) as [Hneg|Hpos].
    + rewrite Z.pow_neg_r in Hx by lia.
      destruct (Z.ltb_spec 0 (fold_left Z.max t y)); [reflexivity | lia].
    + destruct (Z.ltb_spec (2 ^ num_qubits) (fold_left Z.max t y));
        [reflexivity | lia].
  - intros Hl Hne Hall. unfold main_error_checking.
    destruct (Z.eqb_spec (Py.len target_subset) cardinality); [|contradiction].
    cbn [negb]. destruct target_subset as [|y t]; [congruence|].
    cbn [Py.max bind]. inversion Hall as [|? ? Hy Ht]; subst.
    assert (Hm : fold_left Z.max t y < 2 ^ num_qubits).
    { apply fold_max_lt; [lia|]. eapply Forall_impl; [|exact Ht].
      cbn. intros; lia. }
    unfold Py.gt_pow2. destruct (Z.ltb_spec num_qubits 0) as [Hneg|Hpos].
    + rewrite Z.pow_neg_r in Hy by lia. lia.
    + destruct (Z.ltb_spec (2 ^ num_qubits) (fold_left Z.max t y)); [lia|].
      replace (forallb (fun _ : Z => true) (y :: t)) with true; [reflexivity|].
      symmetry. now apply forallb_forall.
  - reflexivity.
Qed.

Lemma main_error_checking_spec_witness :
  main_error_checking 3 4 [1; 2; 4] = Raise ValueError /\
  main_error_checking 3 3 [1; 9; 4] = Raise ValueError /\
  main_error_checking 3 3 [1; 2; 4] = Ret tt.
Proof.
  split; [|split].
  - apply (proj1 (main_error_checking_spec 3 4 [1; 2; 4])). vm_compute. discriminate.
  - apply (proj1 (proj2 (main_error_checking_spec 3 3 [1; 9; 4]))).
    apply Exists_cons_tl, Exists_cons_hd. vm_compute. reflexivity.
  - apply (proj1 (proj2 (proj2 (main_error_checking_spec 3 3 [1; 2; 4])))).
    + reflexivity.
    + discriminate.
    + repeat constructor; vm_compute; discriminate.
Defined.

End Validation.

(** ** Chains returned by the cycle decomposition *)

Section Chains.

Import SubsetPermutation.

Variable target : list Z.
Variable d : Z.

Lemma chain_head_tail a c :
  chain target d (a :: c) ->
  (c = [] /\ d <= a) \/
  (exists b c', c = b :: c' /\ a < d /\ Py.getitem target a = Ret b /\
                chain target d (b :: c')).
Proof.
  intros H. inversion H; subst; [left; auto | right; eauto 10].
Qed.

(** Following [target] from one start gives one chain. *)
Lemma chain_det a c1 : forall c2,
  chain target d (a :: c1) -> chain target d (a :: c2) -> c1 = c2.
Proof.
  revert a. induction c1 as [|b c1 IH]; intros a c2 H1 H2.
  - apply chain_head_tail in H1 as [[_ Hd]|(b & c' & E & _)]; [|discriminate].
    apply chain_head_tail in H2 as [[E _]|(b & c' & _ & Hlt & _)]; [auto | lia].
  - apply chain_head_tail in H1 as [[E _]|(b' & c' & E & Hlt & Hg & Hc)];
      [discriminate|]. injection E as <- <-.
    apply chain_head_tail in H2 as [[_ Hd]|(b2 & c2' & -> & _ & Hg2 & Hc2)];
      [lia|].
    rewrite Hg in Hg2. injection Hg2 as <-. f_equal. eapply IH; eassumption.
Qed.

Lemma chain_suffix p : forall a s,
  chain target d (p ++ a :: s) -> chain target d (a :: s).
Proof.
  induction p as [|x p IH]; intros a s H; [exact H|].
  apply IH. cbn [app] in H.
  apply chain_head_tail in H as [[E _]|(b & c' & E & _ & _ & Hc)].
  - destruct p; discriminate.
  - rewrite E. exact Hc.
Qed.

(** A chain visits no value twice. *)
Lemma chain_NoDup c : chain target d c -> NoDup c.
Proof.
  induction 1 as [a Ha|a b c Hlt Hg Hc IH].
  - constructor; [intros [] | constructor].
  - constructor; [|exact IH]. intros Hin.
    apply in_split in Hin as (p & s & E).
    assert (Hs : chain target d (a :: s)) by (apply (chain_suffix p); now rewrite <- E).
    assert (Hfull : chain target d (a :: b :: c)) by (now constructor).
    pose proof (chain_det a _ _ Hs Hfull) as E'.
    apply (f_equal (@length Z)) in E. rewrite <- E' in E.
    rewrite length_app in E. simpl in E. lia.
Qed.

Lemma chain_last c : chain target d c -> d <= last c 0.
Proof.
  induction 1 as [a Ha|a b c Hlt Hg Hc IH]; [exact Ha|].
  change (last (a :: b :: c) 0) with (last (b :: c) 0). exact IH.
Qed.

Lemma chain_inner c x :
  chain target d c -> In x (removelast c) -> x < d.
Proof.
  induction 1 as [a Ha|a b c Hlt Hg Hc IH]; [intros []|].
  change (removelast (a :: b :: c)) with (a :: removelast (b :: c)).
  intros [<-|Hin]; auto.
Qed.

(** A chain passes through no fixed point of [target]. *)
Lemma chain_no_fixed_point c f :
  chain target d c -> f < d -> Py.getitem target f = Ret f -> ~ In f c.
Proof.
  intros Hc Hf Hfix Hin. apply in_split in Hin as (p & s & ->).
  pose proof (chain_NoDup _ Hc) as Hnd.
  apply chain_suffix in Hc.
  apply chain_head_tail in Hc as [[_ Hd]|(b & c' & -> & _ & Hg & _)]; [lia|].
  rewrite Hfix in Hg. injection Hg as <-.
  apply NoDup_remove_2 in Hnd. apply Hnd. apply in_or_app. right. now left.
Qed.

End Chains.

Section CycleDecomposition.

Import SubsetPermutation.

(** What the [while] loop appends is the chain that starts at [j]. *)
Lemma cycle_while_chain self dd fuel : forall used j cycle used' cycle',
  cycle_while fuel self dd used j cycle = Ret (used', cycle') ->
  exists tail, cycle' = cycle ++ tail /\
               chain (target_subset self) dd (j :: tail).
Proof.
  induction fuel as [|fuel IH]; intros used j cycle used' cycle' H;
    cbn [cycle_while] in H; destruct (Z.ltb_spec j dd) as [Hlt|Hge];
    try discriminate.
  - injection H as <- <-. exists []. rewrite app_nil_r. split; [reflexivity|].
    now constructor.
  - destruct (Py.setitem used j true) as [u1| |]; cbn [bind] in H; try discriminate.
    destruct (Py.getitem (target_subset self) j) as [j'| |] eqn:Eg;
      cbn [bind] in H; try discriminate.
    apply IH in H as (tail & -> & Hc).
    exists (j' :: tail). rewrite <- app_assoc. split; [reflexivity|].
    now constructor.
  - injection H as <- <-. exists []. rewrite app_nil_r. split; [reflexivity|].
    now constructor.
Qed.

Lemma cycles_for_emitted self fuel : forall idxs used cycles res,
  Forall (fun i => 0 <= i < Py.len (target_subset self)) idxs ->
  Forall (emitted self) cycles ->
  cycles_for fuel self (Py.len (target_subset self)) idxs used cycles = Ret res ->
  Forall (emitted self) res.
Proof.
  induction idxs as [|i rest IH]; intros used cycles res Hidx Hcs H;
    cbn [cycles_for] in H.
  - now injection H as <-.
  - inversion Hidx as [|? ? Hi Hrest]; subst.
    destruct (Py.getitem used i) as [u| |]; cbn [bind] in H; try discriminate.
    rewrite (getitem_nth _ _ 0) in H by assumption.
    set (ti := nth (Z.to_nat i) (target_subset self) 0) in *.
    destruct u; cbn [bind] in H.
    + eapply IH; eassumption.
    + destruct (Z.eqb_spec ti i) as [E|E].
      * eapply IH; eassumption.
      * destruct (cycle_while fuel self _ used ti [i; ti]) as [[u' c']| |] eqn:Ew;
          cbn [bind] in H; try discriminate.
        apply cycle_while_chain in Ew as (tail & -> & Hc).
        eapply IH; [exact Hrest | | exact H].
        apply Forall_app. split; [exact Hcs|]. constructor; [|constructor].
        split.
        -- cbn [app]. constructor; [lia | | exact Hc].
           now rewrite (getitem_nth _ _ 0) by assumption.
        -- exists i, ti, tail. auto.
Qed.

Lemma returned_cycles_emitted (self : t) (fuel : nat) (cycles : list (list Z)) :
  permutation_cycles fuel self = Ret cycles -> Forall (emitted self) cycles.
Proof.
  intros H. unfold permutation_cycles in H.
  apply cycles_for_emitted in H; [assumption | |constructor].
  apply Forall_forall. intros k Hk. now apply range_in in Hk.
Qed.

(** X1. Whenever [permutation_cycles] returns, every cycle it returns is a
    chain: it starts at an index of [[0, d)] that is not a fixed point, each
    value is followed by the value [target_subset] gives it, every value but
    the last is below [d], the last is not, no value occurs twice, and no
    fixed point of [target_subset] occurs at all. *)
Theorem permutation_cycles_returns_chains
    (self : t) (fuel : nat) (cycles : list (list Z)) :
  permutation_cycles fuel self = Ret cycles ->
  forall c, In c cycles ->
    let d := Py.len (target_subset self) in
    chain (target_subset self) d c /\
    (exists i ti rest, c = i :: ti :: rest /\ 0 <= i < d /\ ti <> i) /\
    NoDup c /\
    d <= last c 0 /\
    (forall x, In x (removelast c) -> x < d) /\
    (forall f, 0 <= f < d -> Py.getitem (target_subset self) f = Ret f ->
               ~ In f c).
Proof.
  intros H c Hin d. apply returned_cycles_emitted in H.
  rewrite Forall_forall in H. destruct (H c Hin) as (Hc & Hhead).
  split; [exact Hc|]. split; [exact Hhead|].
  split; [exact (chain_NoDup _ _ _ Hc)|].
  split; [exact (chain_last _ _ _ Hc)|]. split.
  - intros x. exact (chain_inner _ _ _ _ Hc).
  - intros f Hf Hfix. apply (chain_no_fixed_point _ _ _ _ Hc); [lia | exact Hfix].
Qed.

Lemma permutation_cycles_returns_chains_witness :
  permutation_cycles 8 (Build [0; 1; 2; 3] [2; 4; 6; 8])
    = Ret [[0; 2; 6]; [1; 4]; [3; 8]] /\
  chain [2; 4; 6; 8] 4 [0; 2; 6] /\
  (exists i ti rest, [0; 2; 6] = i :: ti :: rest /\ 0 <= i < 4 /\ ti <> i) /\
  NoDup [0; 2; 6] /\
  4 <= last [0; 2; 6] 0 /\
  (forall x, In x (removelast [0; 2; 6]) -> x < 4) /\
  (forall f, 0 <= f < 4 -> Py.getitem [2; 4; 6; 8] f = Ret f ->
             ~ In f [0; 2; 6]).
Proof.
  split; [reflexivity|].
  apply (permutation_cycles_returns_chains
           (Build [0; 1; 2; 3] [2; 4; 6; 8]) 8 [[0; 2; 6]; [1; 4]; [3; 8]]).
  - reflexivity.
  - left. reflexivity.
Defined.

(** *** Every moved index is reached *)

Lemma update_nth {A : Type} (v d0 : A) l : forall k i,
  nth i (Py.update l k v) d0 =
    if (Nat.eqb i k && Nat.ltb i (length l))%bool then v else nth i l d0.
Proof.
  induction l as [|a l IH]; intros k i.
  - cbn [Py.update length]. replace (Nat.ltb i 0) with false
      by (symmetry; apply Nat.ltb_ge; lia).
    rewrite andb_false_r. destruct k; reflexivity.
  - destruct k as [|k], i as [|i]; cbn [Py.update nth length]; try reflexivity.
    rewrite IH. reflexivity.
Qed.

Lemma setitem_nonneg_used used j used' k :
  0 <= j -> Py.setitem used j true = Ret used' ->
  nth k used' false = true -> nth k used false = true \/ j = Z.of_nat k.
Proof.
  intros Hj H Hk. unfold Py.setitem in H.
  destruct (Z.ltb_spec j 0); [lia|].
  destruct ((j <? 0) || (Py.len used <=? j)); [discriminate|].
  injection H as <-. rewrite update_nth in Hk.
  destruct (Nat.eqb_spec k (Z.to_nat j)); cbn [andb] in Hk; [|now left].
  right. lia.
Qed.

Lemma getitem_In {A : Type} (l : list A) j a : Py.getitem l j = Ret a -> In a l.
Proof.
  unfold Py.getitem.
  destruct (_ || _); [discriminate|].
  destruct (nth_error l _) eqn:E; [|discriminate].
  intros [= <-]. eapply nth_error_In; eassumption.
Qed.

(** With no negative target value, an index the loop marks as used is a
    value of the cycle being built. *)
Lemma cycle_while_used self dd fuel : forall used j cycle used' cycle',
  Forall (fun x => 0 <= x) (target_subset self) ->
  0 <= j -> In j cycle ->
  cycle_while fuel self dd used j cycle = Ret (used', cycle') ->
  forall k, nth k used' false = true ->
            nth k used false = true \/ In (Z.of_nat k) cycle'.
Proof.
  induction fuel as [|fuel IH]; intros used j cycle used' cycle' Hpos Hj Hin H k Hk;
    cbn [cycle_while] in H; destruct (Z.ltb_spec j dd) as [Hlt|Hge];
    try discriminate; try (injection H as <- <-; now left).
  destruct (Py.setitem used j true) as [u1| |] eqn:Es; cbn [bind] in H;
    try discriminate.
  destruct (Py.getitem (target_subset self) j) as [j'| |] eqn:Eg;
    cbn [bind] in H; try discriminate.
  assert (Hj' : 0 <= j').
  { apply getitem_In in Eg. rewrite Forall_forall in Hpos. auto. }
  pose proof (cycle_while_chain _ _ _ _ _ _ _ _ H) as (tail & E & _).
  assert (Hin' : In j' (cycle ++ [j'])) by (apply in_or_app; right; now left).
  destruct (IH _ _ _ _ _ Hpos Hj' Hin' H k Hk) as [Hu|Hc]; [|now right].
  destruct (setitem_nonneg_used _ _ _ _ Hj Es Hu) as [Hu'| ->]; [now left|].
  right. rewrite E, <- app_assoc. apply in_or_app. now left.
Qed.

Lemma cycles_for_covers self fuel : forall idxs used cycles res,
  Forall (fun x => 0 <= x) (target_subset self) ->
  Forall (fun i => 0 <= i < Py.len (target_subset self)) idxs ->
  (forall k, nth k used false = true -> In (Z.of_nat k) (concat cycles)) ->
  cycles_for fuel self (Py.len (target_subset self)) idxs used cycles = Ret res ->
  (forall x, In x (concat cycles) -> In x (concat res)) /\
  forall i, In i idxs -> nth (Z.to_nat i) (target_subset self) 0 <> i ->
            In i (concat res).
Proof.
  induction idxs as [|i rest IH]; intros used cycles res Hpos Hidx Hinv H;
    cbn [cycles_for] in H.
  - injection H as <-. split; [auto | intros ? []].
  - inversion Hidx as [|? ? Hi Hrest]; subst.
    destruct (Py.getitem used i) as [u| |] eqn:Eu; cbn [bind] in H; try discriminate.
    rewrite (getitem_nth _ _ 0) in H by assumption.
    set (ti := nth (Z.to_nat i) (target_subset self) 0) in *.
    assert (Hu : u = true -> In i (concat cycles)).
    { intros ->. unfold Py.getitem in Eu.
      destruct (Z.ltb_spec i 0); [lia|].
      destruct (_ || _); [discriminate|].
      destruct (nth_error used (Z.to_nat i)) eqn:E; [|discriminate].
      injection Eu as ->. apply (nth_error_nth _ _ false) in E.
      apply Hinv in E. now rewrite Z2Nat.id in E by lia. }
    destruct u; cbn [bind] in H.
    + destruct (IH _ _ _ Hpos Hrest Hinv H) as [Hmono Hcov].
      split; [exact Hmono|]. intros x [<-|Hx] Hne; auto.
    + destruct (Z.eqb_spec ti i) as [E|E].
      * destruct (IH _ _ _ Hpos Hrest Hinv H) as [Hmono Hcov].
        split; [exact Hmono|]. intros x [<-|Hx] Hne; [contradiction | auto].
      * destruct (cycle_while fuel self _ used ti [i; ti]) as [[u' c']| |] eqn:Ew;
          cbn [bind] in H; try discriminate.
        assert (Hti : 0 <= ti).
        { rewrite Forall_forall in Hpos. apply Hpos, nth_In.
          unfold Py.len in Hi. lia. }
        assert (Hin0 : In ti [i; ti]) by (right; now left).
        pose proof (cycle_while_used _ _ _ _ _ _ _ _ Hpos Hti Hin0 Ew) as Hused.
        pose proof (cycle_while_chain _ _ _ _ _ _ _ _ Ew) as (tail & Ec & _).
        assert (Hinv' : forall k, nth k u' false = true ->
                                  In (Z.of_nat k) (concat (cycles ++ [c']))).
        { intros k Hk. rewrite concat_app. apply in_or_app.
          destruct (Hused k Hk) as [Hold|Hnew]; [left; auto|].
          right. cbn [concat]. now rewrite app_nil_r. }
        destruct (IH _ _ _ Hpos Hrest Hinv' H) as [Hmono Hcov].
        split.
        -- intros x Hx. apply Hmono. rewrite concat_app. apply in_or_app. now left.
        -- intros x [<-|Hx] Hne; [|auto].
           apply Hmono. rewrite concat_app. apply in_or_app. right.
           cbn [concat]. rewrite app_nil_r, Ec. now left.
Qed.

Lemma cycles_cover_moved (self : t) (fuel : nat) (cycles : list (list Z)) (i : Z) :
  Forall (fun x => 0 <= x) (target_subset self) ->
  permutation_cycles fuel self = Ret cycles ->
  0 <= i < Py.len (target_subset self) ->
  nth (Z.to_nat i) (target_subset self) 0 <> i ->
  exists c, In c cycles /\ In i c.
Proof.
  intros Hpos H Hi Hne. unfold permutation_cycles in H.
  apply cycles_for_covers in H; auto.
  - destruct H as [_ Hcov].
    assert (Hr : In i (Py.range (Py.len (target_subset self))))
      by (now apply range_in).
    pose proof (Hcov i Hr Hne) as Hin.
    apply in_concat in Hin as (c & Hc & Hic). eauto.
  - apply Forall_forall. intros k Hk. now apply range_in in Hk.
  - intros k Hk. rewrite nth_repeat in Hk. discriminate.
Qed.

(** X2. With no negative target value, whenever [permutation_cycles]
    returns, every index of [[0, d)] that is not a fixed point occurs in at
    least one returned cycle. *)
Theorem permutation_cycles_covers_moved_indices
    (self : t) (fuel : nat) (cycles : list (list Z)) (i : Z) :
  Forall (fun x => 0 <= x) (target_subset self) ->
  permutation_cycles fuel self = Ret cycles ->
  0 <= i < Py.len (target_subset self) ->
  nth (Z.to_nat i) (target_subset self) 0 <> i ->
  exists c, In c cycles /\ In i c.
Proof. apply cycles_cover_moved. Qed.

Lemma permutation_cycles_covers_moved_indices_witness :
  exists c, In c [[0; 2; 6]; [1; 4]; [3; 8]] /\ In 2 c.
Proof.
  apply (permutation_cycles_covers_moved_indices
           (Build [0; 1; 2; 3] [2; 4; 6; 8]) 8 [[0; 2; 6]; [1; 4]; [3; 8]] 2).
  - repeat constructor; lia.
  - reflexivity.
  - unfold Py.len; simpl; lia.
  - simpl; lia.
Defined.

(** *** Termination on forward mappings *)

Lemma cycle_while_forward self fuel : forall used j cycle,
  (forall i, 0 <= i < Py.len (target_subset self) ->
             i < nth (Z.to_nat i) (target_subset self) 0) ->
  0 <= j -> (Z.to_nat (Py.len (target_subset self) - j) <= fuel)%nat ->
  Py.len used = Py.len (target_subset self) ->
  exists used' cycle',
    cycle_while fuel self (Py.len (target_subset self)) used j cycle
      = Ret (used', cycle') /\
    Py.len used' = Py.len (target_subset self).
Proof.
  induction fuel as [|fuel IH]; intros used j cycle Hfw Hj Hfuel Hu;
    cbn [cycle_while];
    destruct (Z.ltb_spec j (Py.len (target_subset self))) as [Hlt|Hge];
    try lia; eauto.
  destruct (setitem_in_range used j true ltac:(lia)) as (used1 & -> & Hu1).
  cbn [bind]. rewrite (getitem_nth _ _ 0) by lia. cbn [bind].
  specialize (Hfw j ltac:(lia)) as Hnext.
  apply IH; auto; lia.
Qed.

Lemma cycles_for_forward self fuel : forall idxs used cycles,
  (forall i, 0 <= i < Py.len (target_subset self) ->
             i < nth (Z.to_nat i) (target_subset self) 0) ->
  (Z.to_nat (Py.len (target_subset self)) <= fuel)%nat ->
  Forall (fun i => 0 <= i < Py.len (target_subset self)) idxs ->
  Py.len used = Py.len (target_subset self) ->
  exists res,
    cycles_for fuel self (Py.len (target_subset self)) idxs used cycles = Ret res.
Proof.
  induction idxs as [|i rest IH]; intros used cycles Hfw Hfuel Hidx Hu;
    cbn [cycles_for]; [eauto|].
  inversion Hidx as [|? ? Hi Hrest]; subst.
  rewrite (getitem_nth _ _ false) by lia. cbn [bind].
  rewrite !(getitem_nth _ _ 0) by lia.
  destruct (nth (Z.to_nat i) used false); cbn [bind]; [now apply IH|].
  specialize (Hfw i Hi) as Hnext.
  destruct (Z.eqb_spec (nth (Z.to_nat i) (target_subset self) 0) i); [lia|].
  destruct (cycle_while_forward self fuel used
              (nth (Z.to_nat i) (target_subset self) 0)
              [i; nth (Z.to_nat i) (target_subset self) 0] Hfw)
    as (used' & cycle' & -> & Hu'); try lia.
  cbn [bind]. now apply IH.
Qed.

Lemma forward_mapping_returns (self : t) (fuel : nat) :
  (forall i, 0 <= i < Py.len (target_subset self) ->
             i < nth (Z.to_nat i) (target_subset self) 0) ->
  (Z.to_nat (Py.len (target_subset self)) <= fuel)%nat ->
  exists cycles,
    permutation_cycles fuel self = Ret cycles /\
    forall i, 0 <= i < Py.len (target_subset self) ->
              exists c, In c cycles /\ In i c.
Proof.
  intros Hfw Hfuel.
  destruct (cycles_for_forward self fuel (Py.range (Py.len (target_subset self)))
              (repeat false (Z.to_nat (Py.len (target_subset self)))) []
              Hfw Hfuel) as (res & E).
  - apply Forall_forall. intros k Hk. now apply range_in in Hk.
  - unfold Py.len. rewrite repeat_length. lia.
  - exists res. split; [exact E|]. intros i Hi.
    apply (cycles_cover_moved self fuel res i); auto.
    + apply Forall_forall. intros x Hx.
      apply In_nth with (d := 0) in Hx as (k & Hk & <-).
      specialize (Hfw (Z.of_nat k)). rewrite Nat2Z.id in Hfw.
      unfold Py.len in Hfw. lia.
    + specialize (Hfw i Hi). lia.
Qed.

(** X3. When every index is sent to a larger value ([target_subset[i] > i]
    for all [i]), [permutation_cycles] returns, each run of its inner loop
    taking at most [d] passes; no index is then a fixed point, and every
    index of [[0, d)] lies in a returned cycle. *)
Theorem permutation_cycles_returns_on_forward_mappings
    (self : t) (fuel : nat) :
  (forall i, 0 <= i < Py.len (target_subset self) ->
             i < nth (Z.to_nat i) (target_subset self) 0) ->
  (Z.to_nat (Py.len (target_subset self)) <= fuel)%nat ->
  exists cycles,
    permutation_cycles fuel self = Ret cycles /\
    forall i, 0 <= i < Py.len (target_subset self) ->
              exists c, In c cycles /\ In i c.
Proof. apply forward_mapping_returns. Qed.

Lemma permutation_cycles_returns_on_forward_mappings_witness :
  exists cycles,
    permutation_cycles 3 (Build [0; 1; 2] [1; 2; 4]) = Ret cycles /\
    forall i, 0 <= i < Py.len [1; 2; 4] -> exists c, In c cycles /\ In i c.
Proof.
  apply (permutation_cycles_returns_on_forward_mappings (Build [0; 1; 2] [1; 2; 4]) 3).
  - intros i Hi. unfold Py.len in Hi. simpl in Hi.
    assert (Hc : i = 0 \/ i = 1 \/ i = 2) by lia.
    destruct Hc as [->|[->| ->]]; simpl; lia.
  - unfold Py.len; simpl; lia.
Defined.

End CycleDecomposition.

(** ** The positional mapping *)

Section Matching.

Import SubsetPermutation.

Lemma dict_get_set d k v : forall k',
  dict_get (dict_set d k v) k' = if k =? k' then Some v else dict_get d k'.
Proof.
  induction d as [|[k0 v0] d IH]; intros k'; cbn [dict_set dict_get].
  - reflexivity.
  - destruct (Z.eqb_spec k0 k) as [->|Hne]; cbn [dict_get].
    + destruct (Z.eqb_spec k k'); reflexivity.
    + rewrite IH. destruct (Z.eqb_spec k0 k'), (Z.eqb_spec k k');
        try reflexivity; lia.
Qed.

Lemma dict_set_fresh d k v :
  ~ In k (map fst d) -> dict_set d k v = d ++ [(k, v)].
Proof.
  induction d as [|[k0 v0] d IH]; intros Hn; cbn [dict_set app]; [reflexivity|].
  cbn [map fst In] in Hn.
  destruct (Z.eqb_spec k0 k); [tauto|]. rewrite IH by tauto. reflexivity.
Qed.

Lemma set_all_untouched l key : forall d,
  ~ In key (map fst l) -> dict_get (set_all d l) key = dict_get d key.
Proof.
  induction l as [|[k v] l IH]; intros d Hn; [reflexivity|].
  cbn [map fst In] in Hn. unfold set_all in *. cbn [fold_left fst snd].
  rewrite IH by tauto. rewrite dict_get_set.
  destruct (Z.eqb_spec k key); [tauto | reflexivity].
Qed.

Lemma set_all_app d l1 l2 : set_all d (l1 ++ l2) = set_all (set_all d l1) l2.
Proof. unfold set_all. apply fold_left_app. Qed.

Lemma set_all_keys l key : forall d,
  dict_get (set_all d l) key <> None <->
  dict_get d key <> None \/ In key (map fst l).
Proof.
  induction l as [|[k v] l IH]; intros d.
  - cbn. tauto.
  - unfold set_all in *. cbn [fold_left fst snd map In]. rewrite IH, dict_get_set.
    destruct (Z.eqb_spec k key);
      intuition (try discriminate; try lia; auto).
Qed.

Lemma set_all_distinct l : forall d,
  NoDup (map fst d ++ map fst l) -> set_all d l = d ++ l.
Proof.
  induction l as [|[k v] l IH]; intros d Hnd.
  - now rewrite app_nil_r.
  - unfold set_all in *. cbn [fold_left fst snd map] in *.
    assert (Hk : ~ In k (map fst d)).
    { apply NoDup_remove_2 in Hnd. intros Hin. apply Hnd, in_or_app. now left. }
    rewrite dict_set_fresh by exact Hk. rewrite IH.
    + now rewrite <- app_assoc.
    + rewrite map_app, <- app_assoc. exact Hnd.
Qed.

Lemma skipn_cons_nth {A : Type} (d0 : A) l : forall k,
  (k < length l)%nat -> skipn k l = nth k l d0 :: skipn (S k) l.
Proof.
  induction l as [|a l IH]; intros [|k] Hk; simpl in Hk; try lia;
    [reflexivity|].
  cbn [skipn nth]. rewrite (IH k) by lia. reflexivity.
Qed.

Lemma matching_for_spec self m : forall k mapping,
  length (gr_subset self) = length (target_subset self) ->
  (k + m = length (gr_subset self))%nat ->
  matching_for self (map Z.of_nat (seq k m)) mapping =
    Ret (set_all mapping
           (combine (skipn k (gr_subset self)) (skipn k (target_subset self)))).
Proof.
  induction m as [|m IH]; intros k mapping Hl Hk.
  - cbn [seq map matching_for].
    rewrite (skipn_all2 (gr_subset self)) by lia. reflexivity.
  - cbn [seq map matching_for].
    rewrite !(getitem_nth _ _ 0) by (unfold Py.len; lia). cbn [bind].
    rewrite Nat2Z.id, IH by lia.
    rewrite (skipn_cons_nth 0 (gr_subset self) k) by lia.
    rewrite (skipn_cons_nth 0 (target_subset self) k) by lia.
    reflexivity.
Qed.

Lemma combine_split_at {A B : Type} (da : A) (db : B) i : forall a b,
  (i < length a)%nat -> length a = length b ->
  combine a b =
    combine (firstn i a) (firstn i b)
    ++ (nth i a da, nth i b db) :: combine (skipn (S i) a) (skipn (S i) b).
Proof.
  induction i as [|i IH]; intros [|x a] [|y b] Hi Hl; simpl in *; try lia.
  - reflexivity.
  - f_equal. apply IH; lia.
Qed.

Lemma in_skipn_nth {A : Type} (d0 : A) x k l :
  In x (skipn k l) -> exists j, (k <= j < length l)%nat /\ nth j l d0 = x.
Proof.
  intros Hin. apply (In_nth _ _ d0) in Hin as (i & Hi & E).
  rewrite length_skipn in Hi. rewrite nth_skipn in E.
  exists (k + i)%nat. split; [lia | exact E].
Qed.

Lemma combine_map_fst {A B : Type} (a : list A) : forall b : list B,
  length a = length b -> map fst (combine a b) = a.
Proof.
  induction a as [|x a IH]; intros [|y b] H; simpl in *; try lia; auto.
  f_equal. apply IH. lia.
Qed.

Lemma matching_mapping self :
  Py.len (gr_subset self) = Py.len (target_subset self) ->
  subset_element_matching self =
    Ret (set_all [] (combine (gr_subset self) (target_subset self)),
         dict_to_str (set_all [] (combine (gr_subset self) (target_subset self)))).
Proof.
  intros Hl. unfold subset_element_matching.
  rewrite Hl, Z.eqb_refl. cbn [negb].
  unfold Py.range. rewrite <- Hl. unfold Py.len at 1. rewrite Nat2Z.id.
  rewrite matching_for_spec; [reflexivity | unfold Py.len in Hl; lia | lia].
Qed.

(** X4. [subset_element_matching] raises [ValueError] exactly when the two
    subsets differ in length.  Otherwise it returns a mapping whose keys are
    the elements of [gr_subset] and which sends [gr_subset[i]] to
    [target_subset[i]] whenever no later element of [gr_subset] equals
    [gr_subset[i]]; when [gr_subset] has no repeated element the mapping is
    the positional pairing of the two subsets, in order. *)
Theorem subset_element_matching_spec (self : t) :
  (Py.len (gr_subset self) <> Py.len (target_subset self) ->
   subset_element_matching self = Raise ValueError) /\
  (Py.len (gr_subset self) = Py.len (target_subset self) ->
   exists mapping text,
     subset_element_matching self = Ret (mapping, text) /\
     (forall k, dict_get mapping k <> None <-> In k (gr_subset self)) /\
     (forall i, (i < length (gr_subset self))%nat ->
        (forall j, (i < j < length (gr_subset self))%nat ->
                   nth j (gr_subset self) 0 <> nth i (gr_subset self) 0) ->
        dict_get mapping (nth i (gr_subset self) 0)
          = Some (nth i (target_subset self) 0)) /\
     (NoDup (gr_subset self) ->
      mapping = combine (gr_subset self) (target_subset self))).
Proof.
  split.
  - intros Hne. unfold subset_element_matching.
    destruct (Z.eqb_spec (Py.len (gr_subset self)) (Py.len (target_subset self)));
      [contradiction | reflexivity].
  - intros Hl. rewrite (matching_mapping self Hl).
    assert (Hl' : length (gr_subset self) = length (target_subset self))
      by (unfold Py.len in Hl; lia).
    eexists _, _. split; [reflexivity|]. split; [|split].
    + intros k. rewrite set_all_keys. cbn [dict_get].
      rewrite combine_map_fst by exact Hl'.
      split; [intros [H|H]; [congruence | exact H] | auto].
    + intros i Hi Hlast.
      rewrite (combine_split_at 0 0 i) by assumption.
      rewrite set_all_app. change (?a :: ?l) with ([a] ++ l).
      rewrite set_all_app, set_all_untouched.
      * unfold set_all at 1. cbn [fold_left fst snd].
        rewrite dict_get_set, Z.eqb_refl. reflexivity.
      * intros Hin. apply in_map_iff in Hin as ([k v] & E & Hin).
        cbn [fst] in E. subst k. apply in_combine_l in Hin.
        apply (in_skipn_nth 0) in Hin as (j & Hj & E).
        apply (Hlast j); [lia | exact E].
    + intros Hnd. apply (set_all_distinct _ []). cbn [map app].
      rewrite combine_map_fst by exact Hl'. exact Hnd.
Qed.

Lemma subset_element_matching_spec_witness :
  subset_element_matching (Build [0; 1] [5]) = Raise ValueError /\
  exists mapping text,
    subset_element_matching (Build [0; 1; 2] [4; 2; 7]) = Ret (mapping, text) /\
    mapping = [(0, 4); (1, 2); (2, 7)].
Proof.
  split.
  - apply (proj1 (subset_element_matching_spec (Build [0; 1] [5]))).
    vm_compute. discriminate.
  - destruct (proj2 (subset_element_matching_spec (Build [0; 1; 2] [4; 2; 7])))
      as (mapping & text & E & _ & _ & Hc); [reflexivity|].
    exists mapping, text. split; [exact E|]. apply Hc.
    repeat constructor; simpl; intuition discriminate.
Defined.

End Matching.

(** ** The subset generator *)

Section Generator.

Import SubsetGenerator.

Lemma generated_nth m i :
  0 <= i < m ->
  nth (Z.to_nat i) (map (fun i => Z.shiftl 1 i) (Py.range m)) 0 = 2 ^ i.
Proof.
  intros Hi.
  rewrite (nth_indep _ 0 ((fun i => Z.shiftl 1 i) 0))
    by (rewrite length_map; pose proof (range_len m ltac:(lia)) as E;
        unfold Py.len in E; lia).
  rewrite (map_nth (fun i => Z.shiftl 1 i)).
  rewrite (nth_error_nth (Py.range m) (Z.to_nat i) 0 (range_nth_ok m i Hi)).
  apply Z.shiftl_1_l.
Qed.

Lemma generated_range m x :
  1 <= m -> In x (map (fun i => Z.shiftl 1 i) (Py.range m)) -> 1 <= x < 2 ^ m.
Proof.
  intros Hm Hin. apply in_map_iff in Hin as (i & <- & Hi).
  apply range_in in Hi. rewrite Z.shiftl_1_l.
  assert (0 < 2 ^ i) by (apply Z.pow_pos_nonneg; lia).
  assert (2 ^ i < 2 ^ m) by (apply Z.pow_lt_mono_r; lia). lia.
Qed.

Lemma NoDup_map_inj {A B : Type} (f : A -> B) l :
  (forall a b, In a l -> In b l -> f a = f b -> a = b) ->
  NoDup l -> NoDup (map f l).
Proof.
  intros Hinj Hnd. induction Hnd as [|a l Hn Hnd IH]; cbn [map]; constructor.
  - intros Hin. apply in_map_iff in Hin as (b & E & Hb).
    apply Hinj in E; [subst; contradiction | now right | now left].
  - apply IH. intros x y Hx Hy. apply Hinj; now right.
Qed.

Lemma generated_NoDup m : NoDup (map (fun i => Z.shiftl 1 i) (Py.range m)).
Proof.
  apply NoDup_map_inj.
  - intros a b Ha Hb E. apply range_in in Ha, Hb.
    rewrite !Z.shiftl_1_l in E. apply (Z.pow_inj_r 2); lia.
  - unfold Py.range. apply NoDup_map_inj; [intros; lia | apply seq_NoDup].
Qed.

(** X5. [generate_subset] raises [ValueError] for negative [n], returns
    [[0]] for [n = 0], and for [n >= 1] returns the [n] powers of two
    [1, 2, ..., 2^(n-1)] in order: pairwise distinct values of
    [[1, 2^n)].  The cardinality the generator was built with plays no
    part. *)
Theorem generate_subset_spec (self : t) :
  (n self < 0 -> generate_subset self = Raise ValueError) /\
  (n self = 0 -> generate_subset self = Ret [0]) /\
  (1 <= n self ->
   exists subset,
     generate_subset self = Ret subset /\
     Py.len subset = n self /\
     (forall i, 0 <= i < n self -> nth (Z.to_nat i) subset 0 = 2 ^ i) /\
     NoDup subset /\
     Forall (fun x => 1 <= x < 2 ^ n self) subset).
Proof.
  unfold generate_subset. split; [|split]; intros Hn.
  - destruct (Z.ltb_spec (n self) 0); [reflexivity | lia].
  - rewrite Hn. reflexivity.
  - destruct (Z.ltb_spec (n self) 0); [lia|].
    destruct (Z.eqb_spec (n self) 0); [lia|].
    eexists. split; [reflexivity|]. split; [|split; [|split]].
    + unfold Py.len. rewrite length_map. apply range_len. lia.
    + intros i Hi. now apply generated_nth.
    + apply generated_NoDup.
    + apply Forall_forall. intros x. now apply generated_range.
Qed.

Lemma generate_subset_spec_witness :
  generate_subset (Build (-1) 3) = Raise ValueError /\
  generate_subset (Build 0 3) = Ret [0] /\
  exists subset,
    generate_subset (Build 5 6) = Ret subset /\ Py.len subset = 5.
Proof.
  split; [|split].
  - apply (proj1 (generate_subset_spec (Build (-1) 3))). simpl. lia.
  - apply (proj1 (proj2 (generate_subset_spec (Build 0 3)))). reflexivity.
  - destruct (proj2 (proj2 (generate_subset_spec (Build 5 6))))
      as (subset & E & L & _); [simpl; lia|].
    exists subset. auto.
Defined.

(** *** The validation of custom subsets *)

Lemma check_elements_forallb self subset idxs :
  Forall (fun i => 0 <= i < Py.len subset) idxs ->
  check_elements self subset idxs =
    if forallb (element_ok self subset) idxs then Ret tt else Raise ValueError.
Proof.
  induction 1 as [|i idxs Hi _ IH]; cbn [check_elements forallb]; [reflexivity|].
  rewrite !(getitem_nth _ _ 0) by assumption. cbn [bind].
  unfold element_ok at 1, shift_one.
  destruct (Z.ltb_spec (nth (Z.to_nat i) subset 0) 0) as [Hneg|Hpos].
  - destruct (Z.leb_spec 0 (nth (Z.to_nat i) subset 0)); [lia | reflexivity].
  - destruct (Z.leb_spec 0 (nth (Z.to_nat i) subset 0)); [|lia].
    destruct (Z.ltb_spec (n self) 0) as [Hn|Hn]; cbn [bind andb].
    + destruct (Z.leb_spec 0 (n self)); [lia | reflexivity].
    + destruct (Z.leb_spec 0 (n self)); [|lia]. cbn [andb].
      rewrite Z.shiftl_1_l.
      destruct (Z.leb_spec (2 ^ n self) (nth (Z.to_nat i) subset 0));
        destruct (Z.ltb_spec (nth (Z.to_nat i) subset 0) (2 ^ n self));
        try lia; [reflexivity | exact IH].
Qed.

Lemma forallb_element_ok self subset :
  forallb (element_ok self subset) (Py.range (Py.len subset)) = true <->
  (subset = [] \/ 0 <= n self) /\ Forall (fun x => 0 <= x < 2 ^ n self) subset.
Proof.
  rewrite forallb_forall. split.
  - intros H. split.
    + destruct subset as [|x r]; [now left | right].
      specialize (H 0). unfold element_ok in H.
      assert (Hin : In 0 (Py.range (Py.len (x :: r))))
        by (apply range_in; unfold Py.len; simpl length; lia).
      apply H in Hin. apply andb_true_iff in Hin as [Hin _].
      apply andb_true_iff in Hin as [_ Hin]. now apply Z.leb_le.
    + apply Forall_forall. intros x Hx.
      apply (In_nth _ _ 0) in Hx as (k & Hk & <-).
      specialize (H (Z.of_nat k)). unfold element_ok in H.
      rewrite Nat2Z.id in H.
      assert (Hin : In (Z.of_nat k) (Py.range (Py.len subset)))
        by (apply range_in; unfold Py.len; lia).
      apply H in Hin. apply andb_true_iff in Hin as [Hin H3].
      apply andb_true_iff in Hin as [H1 _].
      apply Z.leb_le in H1. apply Z.ltb_lt in H3. lia.
  - intros [Hn Hall] i Hi. apply range_in in Hi.
    rewrite Forall_forall in Hall. unfold element_ok.
    assert (Hin : In (nth (Z.to_nat i) subset 0) subset)
      by (apply nth_In; unfold Py.len in Hi; lia).
    specialize (Hall _ Hin).
    destruct Hn as [->|Hn]; [contradiction|].
    rewrite !andb_true_iff. repeat split;
      [apply Z.leb_le | apply Z.leb_le | apply Z.ltb_lt]; lia.
Qed.

Lemma custom_subset_validation
    (self : t) (subset : list Z) (subset_type : string) :
  (generate_custom_subset_of_type self subset subset_type = Ret tt \/
   generate_custom_subset_of_type self subset subset_type = Raise ValueError) /\
  (generate_custom_subset_of_type self subset subset_type = Ret tt <->
   subset <> [] /\ Py.len subset = card self /\ 0 <= n self /\
   Forall (fun x => 0 <= x < 2 ^ n self) subset /\
   (subset_type = "D"%string \/ subset_type = "B"%string)).
Proof.
  unfold generate_custom_subset_of_type.
  destruct subset as [|x r] eqn:Es.
  { split; [now right|]. split; [discriminate | intros (H & _); congruence]. }
  rewrite <- Es in *. assert (Hne : subset <> []) by (rewrite Es; discriminate).
  clear Es x r.
  destruct (Z.eqb_spec (Py.len subset) (card self)) as [Hl|Hl]; cbn [negb].
  2:{ split; [now right|]. split; [discriminate | intros (_ & H & _); congruence]. }
  rewrite <- Hl.
  assert (Hidx : Forall (fun i => 0 <= i < Py.len subset) (Py.range (Py.len subset))).
  { apply Forall_forall. intros i Hi. now apply range_in in Hi. }
  rewrite (check_elements_forallb self subset _ Hidx).
  pose proof (forallb_element_ok self subset) as Hok.
  destruct (String.eqb_spec subset_type "D") as [HD|HD];
    [|destruct (String.eqb_spec subset_type "B") as [HB|HB]].
  3:{ split; [now right|]. split; [discriminate | intros (_ & _ & _ & _ & [H|H]); congruence]. }
  all: destruct (forallb (element_ok self subset) (Py.range (Py.len subset)));
    (split; [auto|]); split; try discriminate.
  all: try (intros _; destruct (proj1 Hok eq_refl) as [[Hn|Hn] Hall];
            [congruence | repeat split; auto]).
  all: intros (_ & _ & Hn & Hall & _);
    assert (Ht : false = true) by (apply Hok; auto); discriminate.
Qed.


(** X6. [generate_custom_subset] returns (with [None]) exactly on the
    non-empty subsets whose length is the cardinality, whose elements all lie
    in [[0, 2^n)] with [n >= 0], and with subset type "D" or "B"; on every
    other input it raises [ValueError], and it never fails with an
    [IndexError]. *)
Theorem generate_custom_subset_accepts
    (self : t) (subset : list Z) (subset_type : string) :
  (generate_custom_subset_of_type self subset subset_type = Ret tt \/
   generate_custom_subset_of_type self subset subset_type = Raise ValueError) /\
  (generate_custom_subset_of_type self subset subset_type = Ret tt <->
   subset <> [] /\ Py.len subset = card self /\ 0 <= n self /\
   Forall (fun x => 0 <= x < 2 ^ n self) subset /\
   (subset_type = "D"%string \/ subset_type = "B"%string)).
Proof. apply custom_subset_validation. Qed.

Lemma generate_custom_subset_accepts_witness :
  generate_custom_subset_of_type (Build 3 3) [1; 2; 4] "D" = Ret tt.
Proof.
  apply (proj2 (generate_custom_subset_accepts (Build 3 3) [1; 2; 4] "D")).
  split; [discriminate|]. split; [reflexivity|]. split; [simpl; lia|].
  split; [repeat constructor; simpl; lia | now left].
Defined.

(** *** The generated subset in the rest of the pipeline *)

Lemma main_error_checking_in_range num_qubits cardinality target_subset :
  Py.len target_subset = cardinality -> target_subset <> [] ->
  Forall (fun x => 0 <= x < 2 ^ num_qubits) target_subset ->
  main_error_checking num_qubits cardinality target_subset = Ret tt.
Proof.
  intros Hl Hne Hall. unfold main_error_checking.
  destruct (Z.eqb_spec (Py.len target_subset) cardinality); [|contradiction].
  cbn [negb]. destruct target_subset as [|y r]; [congruence|].
  cbn [Py.max bind]. inversion Hall as [|? ? Hy Ht]; subst.
  assert (Hm : fold_left Z.max r y < 2 ^ num_qubits).
  { apply fold_max_lt; [lia|]. eapply Forall_impl; [|exact Ht].
    cbn. intros; lia. }
  unfold Py.gt_pow2. destruct (Z.ltb_spec num_qubits 0) as [Hneg|Hpos].
  - rewrite Z.pow_neg_r in Hy by lia. lia.
  - destruct (Z.ltb_spec (2 ^ num_qubits) (fold_left Z.max r y)); [lia|].
    replace (forallb (fun _ : Z => true) (y :: r)) with true; [reflexivity|].
    symmetry. now apply forallb_forall.
Qed.

(** X7. The subset that [generate_subset] returns for [n >= 1] has [n]
    elements whatever the cardinality: the validation of [main] (with
    [num_qubits = n]) and [generate_custom_subset] accept it when the
    cardinality is [n] and raise [ValueError] when it is not, and
    [permutation_cycles] returns on it within [n] passes of its inner
    loop. *)
Theorem generated_subset_in_pipeline (self : t) (subset : list Z) :
  1 <= n self ->
  generate_subset self = Ret subset ->
  (card self = n self ->
   main_error_checking (n self) (card self) subset = Ret tt /\
   generate_custom_subset self subset = Ret tt) /\
  (card self <> n self ->
   main_error_checking (n self) (card self) subset = Raise ValueError /\
   generate_custom_subset self subset = Raise ValueError) /\
  exists cycles,
    SubsetPermutation.permutation_cycles (Z.to_nat (n self))
      (SubsetPermutation.Build (Py.range (n self)) subset) = Ret cycles.
Proof.
  intros Hn E. unfold generate_subset in E.
  destruct (Z.ltb_spec (n self) 0); [lia|].
  destruct (Z.eqb_spec (n self) 0); [lia|]. injection E as <-.
  set (subset := map (fun i => Z.shiftl 1 i) (Py.range (n self))).
  assert (Hl : Py.len subset = n self).
  { unfold subset, Py.len. rewrite length_map. apply range_len. lia. }
  assert (Hne : subset <> []).
  { intros E. rewrite E in Hl. unfold Py.len in Hl. simpl in Hl. lia. }
  assert (Hall : Forall (fun x => 0 <= x < 2 ^ n self) subset).
  { apply Forall_forall. intros x Hx. apply generated_range in Hx; lia. }
  assert (Hfw : forall i, 0 <= i < n self -> i < nth (Z.to_nat i) subset 0).
  { intros i Hi. unfold subset. rewrite generated_nth by assumption.
    apply Z.pow_gt_lin_r; lia. }
  clearbody subset.
  assert (Hcustom : generate_custom_subset self subset =
                    generate_custom_subset_of_type self subset "D").
  { unfold generate_custom_subset, generate_custom_subset_of_type.
    destruct subset; [reflexivity|]. cbn [String.eqb Ascii.eqb Bool.eqb].
    destruct (negb _); reflexivity. }
  split; [|split].
  - intros Hc. split.
    + apply main_error_checking_in_range; auto. lia.
    + rewrite Hcustom. apply custom_subset_validation.
      repeat split; auto; lia.
  - intros Hc. split.
    + unfold main_error_checking.
      destruct (Z.eqb_spec (Py.len subset) (card self)); [lia | reflexivity].
    + unfold generate_custom_subset. destruct subset as [|z0 r0]; [reflexivity|].
      destruct (Z.eqb_spec (Py.len (z0 :: r0)) (card self)); [lia | reflexivity].
  - destruct (forward_mapping_returns
                (SubsetPermutation.Build (Py.range (n self)) subset)
                (Z.to_nat (n self))) as (cycles & Ec & _).
    + cbn [SubsetPermutation.target_subset]. rewrite Hl. exact Hfw.
    + cbn [SubsetPermutation.target_subset]. rewrite Hl. lia.
    + now exists cycles.
Qed.

Lemma generated_subset_in_pipeline_witness :
  main_error_checking 5 6 [1; 2; 4; 8; 16] = Raise ValueError /\
  exists cycles,
    SubsetPermutation.permutation_cycles 5
      (SubsetPermutation.Build [0; 1; 2; 3; 4] [1; 2; 4; 8; 16]) = Ret cycles.
Proof.
  destruct (generated_subset_in_pipeline (Build 5 6) [1; 2; 4; 8; 16])
    as (_ & Hbad & Hcyc).
  - simpl. lia.
  - reflexivity.
  - split; [apply Hbad; simpl; lia | exact Hcyc].
Defined.

End Generator.

(** ** How the indices split at a prefix *)

Section PartitionCounts.

Import GroverRudolphAngles.

Lemma residue_count_hit c w r :
  0 <= r < w -> 0 <= c -> c mod w = r ->
  residue_count c w r = c / w /\ residue_count (c + 1) w r = c / w + 1.
Proof.
  intros Hr Hc Hm. unfold residue_count.
  pose proof (Z.div_mod c w ltac:(lia)) as E. rewrite Hm in E.
  split; symmetry.
  - apply (Z.div_unique _ _ _ (w - 1)); lia.
  - apply (Z.div_unique _ _ _ 0); lia.
Qed.

Lemma residue_count_miss c w r :
  0 <= r < w -> 0 <= c -> c mod w <> r ->
  residue_count (c + 1) w r = residue_count c w r.
Proof.
  intros Hr Hc Hm. unfold residue_count.
  pose proof (Z.div_mod c w ltac:(lia)) as E.
  pose proof (Z.mod_pos_bound c w ltac:(lia)) as Hb.
  destruct (Z.lt_ge_cases (c mod w) r) as [Hlt|Hge].
  - rewrite <- (Z.div_unique (c + 1 + w - 1 - r) w (c / w) (c mod w - r + w)) by lia.
    rewrite <- (Z.div_unique (c + w - 1 - r) w (c / w) (c mod w - r + w - 1)) by lia.
    reflexivity.
  - rewrite <- (Z.div_unique (c + 1 + w - 1 - r) w (c / w + 1) (c mod w - r)) by lia.
    rewrite <- (Z.div_unique (c + w - 1 - r) w (c / w + 1) (c mod w - r - 1)) by lia.
    reflexivity.
Qed.

Lemma range_succ c : 0 <= c -> Py.range (c + 1) = Py.range c ++ [c].
Proof.
  intros Hc. unfold Py.range.
  replace (Z.to_nat (c + 1)) with (S (Z.to_nat c)) by lia.
  rewrite seq_S, map_app. cbn [map Nat.add]. do 2 f_equal. lia.
Qed.

Lemma half_even q : Z.even q = true -> (q + 2) / 2 = (q + 1) / 2 + 1 /\ (q + 1) / 2 = q / 2.
Proof.
  intros H. apply Z.even_spec in H as [k ->].
  split; symmetry.
  - rewrite <- (Z.div_unique (2 * k + 2) 2 (k + 1) 0) by lia.
    rewrite <- (Z.div_unique (2 * k + 1) 2 k 1) by lia. lia.
  - rewrite <- (Z.div_unique (2 * k + 1) 2 k 1) by lia.
    rewrite <- (Z.div_unique (2 * k) 2 k 0) by lia. lia.
Qed.

Lemma half_odd q : Z.odd q = true -> (q + 2) / 2 = (q + 1) / 2 /\ (q + 1) / 2 = q / 2 + 1.
Proof.
  intros H. apply Z.odd_spec in H as [k ->].
  split; symmetry.
  - rewrite <- (Z.div_unique (2 * k + 1 + 2) 2 (k + 1) 1) by lia.
    rewrite <- (Z.div_unique (2 * k + 1 + 1) 2 (k + 1) 0) by lia. lia.
  - rewrite <- (Z.div_unique (2 * k + 1 + 1) 2 (k + 1) 0) by lia.
    rewrite <- (Z.div_unique (2 * k + 1) 2 k 1) by lia. lia.
Qed.

(** Among the indices below [c] with residue [r], the quotients run through
    0, 1, 2, ...: half of them (rounded up) are even, half (rounded down)
    odd. *)
Lemma under_prefix_counts w r (c : nat) :
  0 <= r < w ->
  Py.len (filter (under_prefix w r false) (Py.range (Z.of_nat c)))
    = (residue_count (Z.of_nat c) w r + 1) / 2 /\
  Py.len (filter (under_prefix w r true) (Py.range (Z.of_nat c)))
    = residue_count (Z.of_nat c) w r / 2.
Proof.
  intros Hr. induction c as [|c [IH0 IH1]].
  - unfold residue_count. cbn [Z.of_nat Py.range Z.to_nat seq map filter].
    rewrite <- (Z.div_unique (0 + w - 1 - r) w 0 (w - 1 - r)) by lia.
    split; reflexivity.
  - rewrite Nat2Z.inj_succ, <- Z.add_1_r.
    rewrite range_succ, !filter_app, !len_app, IH0, IH1 by lia.
    cbn [filter]. unfold under_prefix.
    destruct (Z.eqb_spec (Z.of_nat c mod w) r) as [Hhit|Hmiss]; cbn [andb].
    + destruct (residue_count_hit (Z.of_nat c) w r Hr ltac:(lia) Hhit) as [E1 E2].
      rewrite E2, E1. rewrite <- Z.negb_even.
      destruct (Z.even (Z.of_nat c / w)) eqn:Ev; cbn [negb].
      * destruct (half_even _ Ev) as [H1 H2].
        replace (Z.of_nat c / w + 1 + 1) with (Z.of_nat c / w + 2) by lia.
        change (Py.len [Z.of_nat c]) with 1. change (Py.len (@nil Z)) with 0.
        lia.
      * assert (Ho : Z.odd (Z.of_nat c / w) = true)
          by (rewrite <- Z.negb_even, Ev; reflexivity).
        destruct (half_odd _ Ho) as [H1 H2].
        replace (Z.of_nat c / w + 1 + 1) with (Z.of_nat c / w + 2) by lia.
        change (Py.len [Z.of_nat c]) with 1. change (Py.len (@nil Z)) with 0.
        lia.
    + rewrite (residue_count_miss (Z.of_nat c) w r Hr ltac:(lia) Hmiss).
      change (Py.len (@nil Z)) with 0. lia.
Qed.

(** *** From strings to arithmetic *)

Lemma binary_firstn s k : binary s -> binary (firstn k s).
Proof.
  intros H. rewrite <- (firstn_skipn k s) in H. now apply Forall_app in H.
Qed.

Lemma binary_skipn s k : binary s -> binary (skipn k s).
Proof.
  intros H. rewrite <- (firstn_skipn k s) in H. now apply Forall_app in H.
Qed.

Lemma last_bit_parity s c :
  is_bit c -> Z.even (val (s ++ [c])) = Ascii.eqb c "0".
Proof.
  intros Hc. rewrite val_app. change (Py.len [c]) with 1. change (2 ^ 1) with 2.
  replace (val s * 2 + val [c]) with (val [c] + 2 * val s) by lia.
  rewrite Z.even_add_mul_2. destruct Hc as [->| ->]; reflexivity.
Qed.

(** The two tests [partition_counter] makes on the reversed rendering of
    [i], read on [i] itself. *)
Lemma reversed_tests card prefix i :
  2 < card -> binary prefix -> 2 ^ Py.len prefix < card -> 0 <= i < card ->
  let l := length prefix in
  let r := reversed_index_string card i in
  let w := 2 ^ Py.len prefix in
  str_eqb (firstn l r) prefix = (i mod w =? val (rev prefix)) /\
  starts_with "0" (skipn l r) = Z.even (i / w) /\
  starts_with "1" (skipn l r) = Z.odd (i / w).
Proof.
  intros Hc Hb Hlt Hi l r w.
  destruct (ceil_log2_spec card Hc) as [[_ Hup] Hn2].
  set (n := Py.ceil_log2 card) in *.
  assert (Hl : Py.len prefix < n) by (apply (Z.pow_lt_mono_r_iff 2); lia).
  destruct (format_0b_spec n i ltac:(lia) ltac:(lia)) as (Bs & Ls & Vs).
  set (s := Py.format_0b n i) in *.
  set (k := (length s - l)%nat).
  assert (Hk : (k + l = length s)%nat) by (unfold k, l, Py.len in *; lia).
  set (hi := firstn k s). set (lo := skipn k s).
  assert (Es : s = hi ++ lo) by (symmetry; apply firstn_skipn).
  assert (Llo : length lo = l) by (unfold lo; rewrite length_skipn; lia).
  assert (Lhi : length hi = k) by (unfold hi; rewrite length_firstn; lia).
  assert (Er : r = rev lo ++ rev hi).
  { unfold r, reversed_index_string. fold n. fold s.
    rewrite Es at 1. apply rev_app_distr. }
  assert (Hf : firstn l r = rev lo).
  { rewrite Er, firstn_app, firstn_all2 by (rewrite length_rev; lia).
    rewrite length_rev, Llo, Nat.sub_diag, firstn_O. apply app_nil_r. }
  assert (Hs : skipn l r = rev hi).
  { rewrite Er, skipn_app, skipn_all2 by (rewrite length_rev; lia).
    rewrite length_rev, Llo, Nat.sub_diag. reflexivity. }
  assert (Blo : binary lo) by (now apply binary_skipn).
  assert (Bhi : binary hi) by (now apply binary_firstn).
  assert (Hv : i = val hi * w + val lo).
  { rewrite <- Vs, Es, val_app. unfold w, Py.len. now rewrite Llo. }
  pose proof (val_range lo) as Rlo.
  replace (Py.len lo) with (Py.len prefix) in Rlo by (unfold Py.len; now rewrite Llo).
  fold w in Rlo.
  assert (Hmod : i mod w = val lo).
  { symmetry. apply (Z.mod_unique _ _ (val hi)); lia. }
  assert (Hdiv : i / w = val hi).
  { symmetry. apply (Z.div_unique _ _ _ (val lo)); lia. }
  rewrite Hf, Hs, Hmod, Hdiv. split; [|split].
  - unfold str_eqb. destruct (list_eq_dec ascii_dec (rev lo) prefix) as [E|E].
    + symmetry. apply Z.eqb_eq. now rewrite <- E, rev_involutive.
    + symmetry. apply Z.eqb_neq. intros Ev. apply E.
      rewrite <- (rev_involutive prefix). f_equal.
      apply val_inj; auto.
      * now apply binary_rev.
      * rewrite length_rev. exact Llo.
  - destruct (exists_last (l := hi)) as (h' & c & Eh).
    { intros E. rewrite E in Lhi. simpl in Lhi. unfold l, Py.len in *. lia. }
    rewrite Eh, rev_app_distr. cbn [rev app starts_with].
    rewrite last_bit_parity; [reflexivity|].
    rewrite Eh in Bhi. apply Forall_app in Bhi as [_ Bc]. now inversion Bc.
  - destruct (exists_last (l := hi)) as (h' & c & Eh).
    { intros E. rewrite E in Lhi. simpl in Lhi. unfold l, Py.len in *. lia. }
    rewrite Eh, rev_app_distr. cbn [rev app starts_with].
    rewrite <- Z.negb_even, last_bit_parity.
    + rewrite Eh in Bhi. apply Forall_app in Bhi as [_ Bc].
      inversion Bc as [|? ? [->| ->] _]; reflexivity.
    + rewrite Eh in Bhi. apply Forall_app in Bhi as [_ Bc]. now inversion Bc.
Qed.

Lemma filter_filter {A : Type} (f g : A -> bool) l :
  filter f (filter g l) = filter (fun a => g a && f a) l.
Proof.
  induction l as [|a l IH]; [reflexivity|]. cbn [filter].
  destruct (g a); cbn [filter andb]; [destruct (f a)|]; now rewrite IH.
Qed.

(** The counts of [partition_counter], as counts of indices. *)
Lemma partition_counter_counts self prefix :
  2 < card self -> binary prefix -> 2 ^ Py.len prefix < card self ->
  let w := 2 ^ Py.len prefix in
  let r := val (rev prefix) in
  partition_counter self prefix =
    Ret (Py.len (filter (under_prefix w r false) (Py.range (card self))),
         Py.len (filter (under_prefix w r true) (Py.range (card self)))).
Proof.
  intros Hc Hb Hlt w r.
  destruct (reversed_of_prefix (card self) prefix Hc Hb Hlt) as (Hl & _ & _).
  unfold partition_counter. destruct (Z.leb_spec (card self) 2); [lia|].
  set (n := Py.ceil_log2 (card self)) in *.
  rewrite map_map.
  change (map (fun x => rev (Py.format_0b n x)) (Py.range (card self)))
    with (map (reversed_index_string (card self)) (Py.range (card self))).
  rewrite filter_map_swap, map_map.
  set (matching := filter _ (Py.range (card self))).
  assert (Hne : Forall (fun i : str * str => snd i <> [])
                  (map (fun x => (reversed_index_string (card self) x,
                                  skipn (length prefix)
                                        (reversed_index_string (card self) x)))
                       matching)).
  { apply Forall_forall. intros [a b] Hin. cbn [snd].
    apply in_map_iff in Hin as (i & [= <- <-] & Hi).
    apply filter_In in Hi as [Hi _]. apply range_in in Hi.
    pose proof (reversed_len (card self) i Hc Hi) as Hlen. fold n in Hlen.
    intros E. apply (f_equal (@length ascii)) in E.
    rewrite length_skipn in E. unfold Py.len in *. simpl in E. lia. }
  rewrite !filterM_first_char by exact Hne. cbn [bind].
  rewrite !filter_map_swap. unfold Py.len at 1 2. rewrite !length_map.
  cbn [snd]. unfold matching. rewrite !filter_filter.
  f_equal. f_equal; unfold Py.len; do 2 f_equal;
    apply filter_ext_in; intros i Hi; apply range_in in Hi;
    destruct (reversed_tests (card self) prefix i Hc Hb Hlt Hi) as (E1 & E2 & E3);
    unfold under_prefix; fold w r; [rewrite E1, E2 | rewrite E1, E3]; reflexivity.
Qed.

Lemma balanced_partition self prefix :
  2 < card self -> binary prefix -> 2 ^ Py.len prefix < card self ->
  let t := residue_count (card self) (2 ^ Py.len prefix) (val (rev prefix)) in
  partition_counter self prefix = Ret ((t + 1) / 2, t / 2) /\ 1 <= t.
Proof.
  intros Hc Hb Hlt t.
  rewrite (partition_counter_counts self prefix Hc Hb Hlt).
  pose proof (val_range (rev prefix)) as Hr.
  replace (Py.len (rev prefix)) with (Py.len prefix) in Hr
    by (unfold Py.len; now rewrite length_rev).
  destruct (under_prefix_counts (2 ^ Py.len prefix) (val (rev prefix))
              (Z.to_nat (card self)) Hr) as [E0 E1].
  rewrite Z2Nat.id in E0, E1 by lia. rewrite E0, E1.
  split; [reflexivity|]. unfold t, residue_count.
  apply Z.div_le_lower_bound; lia.
Qed.

(** X8. For every [card > 2] and every prefix that [get_angles] visits,
    with [l] its length and [r] the number whose [l] low bits, lowest first,
    spell the prefix, [partition_counter] counts the [t] indices below
    [card] that are [r] modulo [2^l]: [N0] is [t] halved and rounded up,
    [N1] is [t] halved and rounded down.  So [N1 <= N0 <= N1 + 1] at every
    node, and at the empty prefix [N0 + N1 = card]. *)
Theorem partition_counter_balanced (self : t) :
  2 < card self ->
  exists seq,
    generate_prefix_binary_sequence self = Ret seq /\
    (forall prefix, In prefix ([] :: seq) ->
       let t := residue_count (card self) (2 ^ Py.len prefix) (val (rev prefix)) in
       partition_counter self prefix = Ret ((t + 1) / 2, t / 2) /\
       1 <= t /\ t / 2 <= (t + 1) / 2 <= t / 2 + 1 /\ (t + 1) / 2 + t / 2 = t) /\
    partition_counter self [] = Ret ((card self + 1) / 2, card self / 2).
Proof.
  intros Hc.
  pose proof (levels_len_ge 1 (Z.to_nat (card self)) ltac:(lia)) as Hf.
  pose proof (generate_prefix_spec self (Z.to_nat (card self)) Hc ltac:(lia)) as E.
  pose proof (generated_prefixes_fit self _ Hc E) as Hfit.
  eexists. split; [exact E|]. split.
  - intros prefix Hin t. rewrite Forall_forall in Hfit.
    destruct (Hfit prefix Hin) as [Hb Hp].
    destruct (balanced_partition self prefix Hc Hb Hp) as [Ep Ht]. fold t in Ep, Ht.
    split; [exact Ep|]. split; [exact Ht|].
    pose proof (Z.div_mod t 2 ltac:(lia)) as D1.
    pose proof (Z.mod_pos_bound t 2 ltac:(lia)) as B1.
    pose proof (Z.div_mod (t + 1) 2 ltac:(lia)) as D2.
    pose proof (Z.mod_pos_bound (t + 1) 2 ltac:(lia)) as B2.
    assert (Hcase : t mod 2 = 0 \/ t mod 2 = 1) by lia.
    destruct Hcase as [Hm|Hm].
    + assert (H2 : (t + 1) / 2 = t / 2)
        by (symmetry; apply (Z.div_unique _ _ _ 1); lia).
      lia.
    + assert (H2 : (t + 1) / 2 = t / 2 + 1)
        by (symmetry; apply (Z.div_unique _ _ _ 0); lia).
      lia.
  - destruct (balanced_partition self [] Hc ltac:(constructor)) as [Ep _].
    { change (Py.len (@nil ascii)) with 0. change (2 ^ 0) with 1. lia. }
    rewrite Ep. unfold residue_count. cbn [rev]. change (val []) with 0.
    change (Py.len (@nil ascii)) with 0. change (2 ^ 0) with 1.
    rewrite !Z.div_1_r. do 3 f_equal; lia.
Qed.

Lemma partition_counter_balanced_witness :
  exists seq,
    generate_prefix_binary_sequence (Build 5) = Ret seq /\
    partition_counter (Build 5) [] = Ret ((5 + 1) / 2, 5 / 2).
Proof.
  destruct (partition_counter_balanced (Build 5)) as (seq & E & _ & H0).
  - simpl. lia.
  - exists seq. split; [exact E | exact H0].
Defined.

End PartitionCounts.

(** ** Prefixes outside the partition tree, and the prefix loop *)

Section PrefixEdges.

Import GroverRudolphAngles.

Lemma filter_none {A : Type} (f : A -> bool) l :
  (forall a, In a l -> f a = false) -> filter f l = [].
Proof.
  induction l as [|a l IH]; intros H; [reflexivity|]. cbn [filter].
  rewrite H by (now left). apply IH. intros; apply H; now right.
Qed.

Lemma str_eqb_length s u : length s <> length u -> str_eqb s u = false.
Proof.
  intros H. unfold str_eqb. destruct (list_eq_dec ascii_dec s u); [|reflexivity].
  subst. contradiction.
Qed.

Lemma str_eqb_refl s : str_eqb s s = true.
Proof. unfold str_eqb. destruct (list_eq_dec ascii_dec s s); congruence. Qed.

(** X9. [partition_counter] is safe only inside the tree.  For [card > 2]
    and [n = ceil(log2(card))]: on a prefix longer than [n] it returns
    [(0, 0)], on which [partition_angle] raises [ValueError]; on a prefix
    that is the whole reversed [n]-bit rendering of an index below [card]
    it raises [IndexError]. *)
Theorem partition_counter_outside_tree (self : t) (prefix : str) :
  2 < card self ->
  (Py.ceil_log2 (card self) < Py.len prefix ->
   partition_counter self prefix = Ret (0, 0) /\
   partition_angle 0 0 = Raise ValueError) /\
  (forall i, 0 <= i < card self ->
     prefix = reversed_index_string (card self) i ->
     partition_counter self prefix = Raise IndexError).
Proof.
  intros Hc. split.
  - intros Hlong. split; [|reflexivity].
    unfold partition_counter. destruct (Z.leb_spec (card self) 2); [lia|].
    rewrite filter_none; [reflexivity|].
    intros r Hr. apply in_map_iff in Hr as (f & <- & Hf).
    apply in_map_iff in Hf as (i & <- & Hi). apply range_in in Hi.
    pose proof (reversed_len (card self) i Hc Hi) as Hlen.
    unfold reversed_index_string in Hlen.
    apply str_eqb_length. rewrite length_firstn. unfold Py.len in *. lia.
  - intros i Hi ->.
    pose proof (reversed_len (card self) i Hc Hi) as Hlen.
    destruct (ceil_log2_spec (card self) Hc) as [_ Hn2].
    unfold partition_counter. destruct (Z.leb_spec (card self) 2); [lia|].
    set (l := length (reversed_index_string (card self) i)).
    set (rev_bin_vals := map (@rev ascii) _).
    assert (Hin : In (reversed_index_string (card self) i)
                     (filter (fun x => str_eqb (firstn l x)
                                         (reversed_index_string (card self) i))
                             rev_bin_vals)).
    { apply filter_In. split.
      - unfold rev_bin_vals, reversed_index_string.
        apply in_map, in_map, range_in. exact Hi.
      - unfold l. rewrite firstn_all. apply str_eqb_refl. }
    assert (Hall : forall x, In x (filter (fun x => str_eqb (firstn l x)
                                         (reversed_index_string (card self) i))
                             rev_bin_vals) -> skipn l x = []).
    { intros x Hx. apply filter_In in Hx as [Hx _].
      unfold rev_bin_vals in Hx. apply in_map_iff in Hx as (f & <- & Hf).
      apply in_map_iff in Hf as (j & <- & Hj). apply range_in in Hj.
      pose proof (reversed_len (card self) j Hc Hj) as Hlj.
      unfold reversed_index_string in Hlj.
      apply skipn_all2. unfold l, Py.len in *. lia. }
    destruct (filter _ rev_bin_vals) as [|x rest]; [contradiction|].
    cbn [map Py.filterM]. unfold first_char_is at 1. cbn [snd].
    rewrite (Hall x) by (now left). reflexivity.
Qed.

Lemma partition_counter_outside_tree_witness :
  partition_counter (Build 5) ["0"; "0"; "0"; "0"] = Ret (0, 0) /\
  partition_counter (Build 5) ["0"; "1"; "0"] = Raise IndexError.
Proof.
  destruct (partition_counter_outside_tree (Build 5) ["0"; "0"; "0"; "0"])
    as [Hlong _]; [simpl; lia|].
  destruct (partition_counter_outside_tree (Build 5) ["0"; "1"; "0"])
    as [_ Hfull]; [simpl; lia|].
  split.
  - apply Hlong. vm_compute. reflexivity.
  - apply (Hfull 2); [simpl; lia | reflexivity].
Defined.

(** *** The prefix loop *)

Lemma level_in L s :
  0 <= L -> In s (level L) ->
  exists v, 0 <= v < 2 ^ L /\ s = Py.format_0b L v.
Proof.
  intros HL Hin. unfold level in Hin.
  apply in_map_iff in Hin as (v & <- & Hv). apply range_in in Hv. eauto.
Qed.

Lemma level_NoDup L : 1 <= L -> NoDup (level L).
Proof.
  intros HL. unfold level. apply NoDup_map_inj.
  - intros a b Ha Hb E. apply range_in in Ha, Hb.
    destruct (format_0b_spec L a HL Ha) as (_ & _ & Va).
    destruct (format_0b_spec L b HL Hb) as (_ & _ & Vb).
    rewrite <- Va, <- Vb, E. reflexivity.
  - unfold Py.range. apply NoDup_map_inj; [intros; lia | apply seq_NoDup].
Qed.

Lemma levels_in_len k : forall L s,
  1 <= L -> In s (levels L k) -> L <= Py.len s /\ binary s.
Proof.
  induction k as [|k IH]; intros L s HL Hin; cbn [levels] in Hin; [contradiction|].
  apply in_app_or in Hin as [Hin|Hin].
  - apply level_in in Hin as (v & Hv & ->); [|lia].
    destruct (format_0b_spec L v HL Hv) as (B & Len & _). split; [lia | exact B].
  - apply IH in Hin; [|lia]. split; [lia | tauto].
Qed.

Lemma levels_NoDup k : forall L, 1 <= L -> NoDup (levels L k).
Proof.
  induction k as [|k IH]; intros L HL; cbn [levels]; [constructor|].
  apply NoDup_app; [now apply level_NoDup | apply IH; lia |].
  intros s Hs Hs'. apply level_in in Hs as (v & Hv & ->); [|lia].
  destruct (format_0b_spec L v HL Hv) as (_ & Len & _).
  apply levels_in_len in Hs' as [Hs' _]; lia.
Qed.

Lemma NoDup_firstn {A : Type} k (l : list A) : NoDup l -> NoDup (firstn k l).
Proof.
  intros H. rewrite <- (firstn_skipn k l) in H. now apply NoDup_app_remove_r in H.
Qed.

(** X10. For [card > 2] the [while] loop of
    [generate_prefix_binary_sequence] ends within [card] passes (more fuel
    changes nothing), and what it returns is a list of exactly [card - 2]
    non-empty bit strings, no two of them equal. *)
Theorem generate_prefix_terminates_distinct (self : t) (fuel : nat) :
  2 < card self -> (Z.to_nat (card self) <= fuel)%nat ->
  exists seq,
    generate_prefix_binary_sequence_fuel fuel self = Ret seq /\
    generate_prefix_binary_sequence self = Ret seq /\
    Py.len seq = card self - 2 /\
    NoDup seq /\
    Forall (fun p => binary p /\ 1 <= Py.len p) seq.
Proof.
  intros Hc Hfuel.
  pose proof (levels_len_ge 1 (Z.to_nat (card self)) ltac:(lia)) as Hf.
  pose proof (generate_prefix_spec self (Z.to_nat (card self)) Hc ltac:(lia)) as E.
  eexists. split; [|split; [exact E|split; [|split]]].
  - rewrite generate_prefix_fuel_irrelevant by assumption. exact E.
  - exact (generate_prefix_len self _ Hc E).
  - apply NoDup_firstn, levels_NoDup. lia.
  - apply Forall_forall. intros p Hp.
    assert (Hin : In p (levels 1 (Z.to_nat (card self)))).
    { rewrite <- (firstn_skipn (Z.to_nat (card self - 2))). apply in_or_app. now left. }
    apply levels_in_len in Hin; [tauto | lia].
Qed.

Lemma generate_prefix_terminates_distinct_witness :
  exists seq,
    generate_prefix_binary_sequence_fuel 9 (Build 6) = Ret seq /\
    Py.len seq = 6 - 2 /\ NoDup seq.
Proof.
  destruct (generate_prefix_terminates_distinct (Build 6) 9)
    as (seq & E & _ & L & N & _).
  - simpl. lia.
  - simpl. lia.
  - exists seq. auto.
Defined.

End PrefixEdges.

(** ** Shape of the Grover-Rudolph circuit *)

Section CircuitShape.

Import GroverRudolphCircuit.

Lemma to_int_not_nil z :
  Z.to_int z <> Decimal.Pos Decimal.Nil /\ Z.to_int z <> Decimal.Neg Decimal.Nil.
Proof.
  split; intros E; pose proof (DecimalZ.of_to z) as H; rewrite E in H;
    cbn in H; subst z; discriminate.
Qed.

Lemma fstring_inj prefix a b : Py.fstring prefix a = Py.fstring prefix b -> a = b.
Proof.
  unfold Py.fstring. intros E.
  assert (E' : NilZero.string_of_int (Z.to_int a) = NilZero.string_of_int (Z.to_int b)).
  { induction prefix as [|c prefix IH]; cbn in E; [exact E|].
    injection E as E. auto. }
  apply (f_equal NilZero.int_of_string) in E'.
  destruct (to_int_not_nil a) as [Ha1 Ha2]. destruct (to_int_not_nil b) as [Hb1 Hb2].
  rewrite !NilZero.isi in E' by assumption.
  injection E' as E'. now apply DecimalZ.to_int_inj.
Qed.

Lemma reversed_qubits_NoDup n : NoDup (reversed_qubits n).
Proof.
  unfold reversed_qubits. apply NoDup_rev, NoDup_map_inj.
  - intros a b _ _ E. apply (fstring_inj "x"). congruence.
  - unfold Py.range. apply NoDup_map_inj; [intros; lia | apply seq_NoDup].
Qed.

Lemma firstn_succ_nth {A : Type} (d0 : A) l : forall k,
  (k < length l)%nat -> firstn k l ++ [nth k l d0] = firstn (S k) l.
Proof.
  induction l as [|a l IH]; intros [|k] Hk; simpl in Hk; try lia; [reflexivity|].
  cbn [firstn nth app]. f_equal. apply IH. lia.
Qed.

Lemma bit_val_01 c : bit_val c = 0 \/ bit_val c = 1.
Proof. unfold bit_val. destruct (Ascii.eqb c "1"); auto. Qed.

(** The operation of one step, spelled out. *)
Lemma controlled_rotation_shape n angles card step :
  2 < card -> Py.ceil_log2 card <= n -> 3 <= step <= card ->
  exists a l vs,
    controlled_rotation (reversed_qubits n) angles step =
      on (ControlledGate (Ry a) l vs)
         (firstn (Z.to_nat (l + 1)) (reversed_qubits n)) /\
    1 <= l <= Py.ceil_log2 card - 1 /\
    Py.len vs = l /\ Forall (fun v => v = 0 \/ v = 1) vs.
Proof.
  intros Hc Hn Hs.
  destruct (step_bounds step ltac:(lia)) as (Hl & Hb & HR).
  assert (Hmono : Py.ceil_log2 step <= Py.ceil_log2 card)
    by (apply Z.log2_up_le_mono; lia).
  destruct (format_0b_spec _ _ Hl HR) as (B & L & _).
  eexists _, (Py.ceil_log2 step - 1), _. split; [|split; [lia|split]].
  - unfold controlled_rotation. cbn [tag_of tag_l tag_ctrl_sig].
    rewrite (firstn_succ_nth (LineQubit 0)).
    + replace (Z.to_nat (Py.ceil_log2 step - 1 + 1))
        with (S (Z.to_nat (Py.ceil_log2 step - 1))) by lia.
      reflexivity.
    + pose proof (reversed_qubits_len n ltac:(lia)) as E. unfold Py.len in E. lia.
  - unfold Py.len in *. rewrite length_map. exact L.
  - apply Forall_forall. intros v Hv. apply in_map_iff in Hv as (c & <- & _).
    apply bit_val_01.
Qed.

(** X11. In the circuit [generate_circuit] returns (for [card > 2] and
    enough qubits) the qubits of the reversed register are pairwise
    distinct, the first operation is a plain rotation on its first qubit, and
    every later operation is a rotation with [l] controls, [l] control values
    that are each 0 or 1, acting on exactly the first [l + 1] qubits of the
    register, where [1 <= l <= ceil(log2(card)) - 1].  So only the first
    [ceil(log2(card))] qubits are ever touched. *)
Theorem generate_circuit_well_formed (card num_qbs : Z) :
  2 < card -> Py.ceil_log2 card <= num_qbs ->
  exists circuit first rest,
    generate_circuit (Build card) num_qbs = Ret circuit /\
    circuit = first :: rest /\
    NoDup (reversed_qubits num_qbs) /\
    (exists a, first = on (Ry a) (firstn 1 (reversed_qubits num_qbs))) /\
    (forall op, In op rest ->
       exists a l vs,
         op = on (ControlledGate (Ry a) l vs)
                 (firstn (Z.to_nat (l + 1)) (reversed_qubits num_qbs)) /\
         1 <= l <= Py.ceil_log2 card - 1 /\
         Py.len vs = l /\ Forall (fun v => v = 0 \/ v = 1) vs) /\
    (forall op q, In op circuit -> In q (op_qubits op) ->
       In q (firstn (Z.to_nat (Py.ceil_log2 card)) (reversed_qubits num_qbs))).
Proof.
  intros Hc Hn.
  destruct (generate_circuit_ok (Build card) num_qbs Hc Hn) as (angles & _ & _ & Eg).
  cbn [GroverRudolphCircuit.card] in Eg.
  destruct (ceil_log2_spec card Hc) as [_ Hn2].
  pose proof (reversed_qubits_len num_qbs ltac:(lia)) as Hlen.
  assert (Hfirst : [nth 0 (reversed_qubits num_qbs) (LineQubit 0)]
                   = firstn 1 (reversed_qubits num_qbs)).
  { destruct (reversed_qubits num_qbs); [unfold Py.len in Hlen; simpl in Hlen; lia|].
    reflexivity. }
  assert (Hrest : forall op,
             In op (map (controlled_rotation (reversed_qubits num_qbs) angles)
                        (Py.range2 3 (card + 1))) ->
             exists a l vs,
               op = on (ControlledGate (Ry a) l vs)
                       (firstn (Z.to_nat (l + 1)) (reversed_qubits num_qbs)) /\
               1 <= l <= Py.ceil_log2 card - 1 /\
               Py.len vs = l /\ Forall (fun v => v = 0 \/ v = 1) vs).
  { intros op Hin. apply in_map_iff in Hin as (step & <- & Hs).
    apply range2_in in Hs. apply controlled_rotation_shape; auto; lia. }
  assert (Hsub : forall k q, (k <= Z.to_nat (Py.ceil_log2 card))%nat ->
             In q (firstn k (reversed_qubits num_qbs)) ->
             In q (firstn (Z.to_nat (Py.ceil_log2 card)) (reversed_qubits num_qbs))).
  { intros k q Hk Hq.
    replace (Z.to_nat (Py.ceil_log2 card))
      with (k + (Z.to_nat (Py.ceil_log2 card) - k))%nat by lia.
    rewrite <- (firstn_skipn k (reversed_qubits num_qbs)).
    rewrite firstn_app, length_firstn.
    apply in_or_app. left.
    rewrite firstn_firstn. 
    replace (Nat.min (k + (Z.to_nat (Py.ceil_log2 card) - k)) k) with k by lia.
    exact Hq. }
  eexists _, _, _. split; [exact Eg|]. unfold grover_rudolph_circuit.
  split; [reflexivity|]. split; [apply reversed_qubits_NoDup|].
  split; [rewrite Hfirst; eauto|]. split; [exact Hrest|].
  intros op q [<-|Hin] Hq.
  - cbn [op_qubits] in Hq. rewrite Hfirst in Hq. apply (Hsub 1%nat); [lia | exact Hq].
  - destruct (Hrest op Hin) as (a & l & vs & -> & Hl & _).
    cbn [op_qubits] in Hq. apply (Hsub (Z.to_nat (l + 1))); [lia | exact Hq].
Qed.

Lemma generate_circuit_well_formed_witness :
  exists circuit,
    generate_circuit (Build 5) 4 = Ret circuit /\
    forall op q, In op circuit -> In q (op_qubits op) ->
      In q (firstn (Z.to_nat (Py.ceil_log2 5)) (reversed_qubits 4)).
Proof.
  destruct (generate_circuit_well_formed 5 4)
    as (circuit & first & rest & E & _ & _ & _ & _ & H).
  - lia.
  - vm_compute. discriminate.
  - exists circuit. auto.
Defined.

(** X12. [control_tag] beyond the steps the circuit uses: it raises for
    every [c <= 1]; for every [c >= 2], up to the bound [2^48] below which
    the float64 logarithm of the code has the exact ceiling, it returns,
    with [l = ceil(log2(c)) - 1] and [R = (c - 1) - 2^l], [ctrl_sig] holding
    one control value per character of [bin_sig], namely the bit that
    character shows; [bin_sig] spells [R] and has [l] characters, except at
    [c = 2] where [l = 0] and [bin_sig] is the one character '0'. *)
Theorem control_tag_domain (self : t) (c : Z) :
  (c <= 1 -> exists e, control_tag self c = Raise e) /\
  (2 <= c <= Py.log2_exact_bound ->
   exists tg,
     control_tag self c = Ret tg /\
     tag_l tg = Py.ceil_log2 c - 1 /\
     tag_R tg = (c - 1) - 2 ^ tag_l tg /\
     binary (tag_bin_sig tg) /\
     val (tag_bin_sig tg) = tag_R tg /\
     Py.len (tag_bin_sig tg) = Z.max 1 (tag_l tg) /\
     tag_ctrl_sig tg = map bit_val (tag_bin_sig tg)).
Proof.
  split.
  - intros Hc.
    destruct (Z.eq_dec c 0) as [->|H0]; [cbn; eauto|].
    destruct (Z.eq_dec c 1) as [->|H1]; [cbn; eauto|].
    unfold control_tag, Py.np_ceil_log2.
    destruct (Z.eqb_spec c 0); [lia|].
    destruct (Z.ltb_spec c 0); [cbn [bind]; eauto | lia].
  - intros [Hc _]. destruct (Z.eq_dec c 2) as [->|Hne].
    + eexists. split; [reflexivity|]. cbn.
      repeat split; try reflexivity.
      apply binary_one. now left.
    + exists (tag_of c). split; [apply control_tag_ok; lia|].
      destruct (step_bounds c ltac:(lia)) as (Hl & Hb & HR).
      destruct (format_0b_spec _ _ Hl HR) as (B & L & V).
      cbn [tag_of tag_l tag_R tag_bin_sig tag_ctrl_sig].
      repeat split; auto. lia.
Qed.

Lemma control_tag_domain_witness :
  (exists e, control_tag (Build 5) 0 = Raise e) /\
  exists tg, control_tag (Build 5) 4 = Ret tg /\
             tag_ctrl_sig tg = map bit_val (tag_bin_sig tg).
Proof.
  split.
  - apply (proj1 (control_tag_domain (Build 5) 0)). lia.
  - destruct (proj2 (control_tag_domain (Build 5) 4))
      as (tg & E & _ & _ & _ & _ & _ & Hs); [unfold Py.log2_exact_bound; lia|].
    exists tg. auto.
Defined.

(** X13. [control_tag_list] raises [ValueError] when [card < 3]; otherwise
    it returns [card - 2] entries, the [k]-th being the pair of the step
    [k + 3] and what [control_tag] returns for that step. *)
Theorem control_tag_list_spec (self : t) :
  (card self < 3 -> control_tag_list self = Raise ValueError) /\
  (3 <= card self ->
   exists tags,
     control_tag_list self = Ret tags /\
     Py.len tags = card self - 2 /\
     forall k, 0 <= k < card self - 2 ->
       exists tg,
         control_tag self (k + 3) = Ret tg /\
         Py.getitem tags k = Ret (k + 3, tg)).
Proof.
  split.
  - intros Hc. unfold control_tag_list.
    destruct (Z.ltb_spec (card self) 3); [reflexivity | lia].
  - intros Hc. rewrite control_tag_list_ok by lia.
    eexists. split; [reflexivity|].
    pose proof (range2_len 3 (card self + 1) ltac:(lia)) as Hlen.
    split.
    + unfold Py.len in *. rewrite length_map. lia.
    + intros k Hk. exists (tag_of (k + 3)).
      split; [apply control_tag_ok; lia|].
      set (f := fun c : Z => (c, tag_of c)).
      rewrite (getitem_nth _ _ (f 0))
        by (unfold Py.len in *; rewrite length_map; lia).
      rewrite map_nth.
      replace (Z.to_nat k) with (Z.to_nat (k + 3 - 3)) by lia.
      rewrite range2_nth by lia. reflexivity.
Qed.

Lemma control_tag_list_spec_witness :
  control_tag_list (Build 2) = Raise ValueError /\
  exists tags, control_tag_list (Build 6) = Ret tags /\ Py.len tags = 6 - 2.
Proof.
  split.
  - apply (proj1 (control_tag_list_spec (Build 2))). simpl. lia.
  - destruct (proj2 (control_tag_list_spec (Build 6))) as (tags & E & L & _);
      [simpl; lia|].
    exists tags. auto.
Defined.

End CircuitShape.

(** ** The Grover-Rudolph gate *)

Section GrGate.

Import gr_gate.

(** X14. For [card] up to the bound [2^48] below which the float64
    logarithm of the code has the exact ceiling, [gr_gate] is built only for
    [card > 2] and [num_qubits >= ceil(log2(card))] ([ValueError]
    otherwise).  Its
    decomposition raises [ValueError] when the number of qubits passed is
    not [num_qubits]; when it is, the decomposition is the [card - 1]
    operations of [generate_circuit], which act on the qubits named
    [x0 .. x(num_qubits - 1)] whatever qubits were passed. *)
Theorem gr_gate_spec (num_qubits card : Z) (qubits : list Qid) :
  (card <= Py.log2_exact_bound ->
   card <= 2 \/ num_qubits < Py.ceil_log2 card ->
   init num_qubits card = Raise ValueError) /\
  (2 < card <= Py.log2_exact_bound -> Py.ceil_log2 card <= num_qubits ->
   init num_qubits card = Ret (Build num_qubits card) /\
   (Py.len qubits <> num_qubits ->
    _decompose_ (Build num_qubits card) qubits = Raise ValueError) /\
   (Py.len qubits = num_qubits ->
    exists circuit,
      _decompose_ (Build num_qubits card) qubits = Ret circuit /\
      GroverRudolphCircuit.generate_circuit
        (GroverRudolphCircuit.Build card) num_qubits = Ret circuit /\
      Py.len circuit = card - 1 /\
      forall op q, In op circuit -> In q (op_qubits op) ->
                   In q (reversed_qubits num_qubits))).
Proof.
  split.
  - intros _ H. unfold init. destruct (Z.leb_spec card 2); [reflexivity|].
    destruct H as [H|H]; [lia|].
    destruct (Z.ltb_spec num_qubits (Py.ceil_log2 card)); [|lia].
    now rewrite orb_true_r.
  - intros [Hc _] Hn. destruct (ceil_log2_spec card Hc) as [_ Hn2].
    split; [|split].
    + unfold init. destruct (Z.leb_spec card 2); [lia|].
      destruct (Z.leb_spec num_qubits 0); [lia|].
      destruct (Z.ltb_spec num_qubits (Py.ceil_log2 card)); [lia | reflexivity].
    + intros Hl. unfold _decompose_. cbn [gr_gate.num_qubits].
      destruct (Z.eqb_spec (Py.len qubits) num_qubits); [contradiction | reflexivity].
    + intros Hl.
      destruct (generate_circuit_ok (GroverRudolphCircuit.Build card) num_qubits Hc Hn)
        as (angles & _ & _ & Eg).
      cbn [GroverRudolphCircuit.card] in Eg.
      exists (grover_rudolph_circuit num_qubits card angles).
      split; [|split; [exact Eg|split]].
      * unfold _decompose_. cbn [gr_gate.num_qubits gr_gate.card].
        rewrite Hl, Z.eqb_refl. cbn [negb].
        unfold GroverRudolphCircuit.init.
        destruct (Z.leb_spec card 2); [lia|]. cbn [bind]. exact Eg.
      * unfold grover_rudolph_circuit, Py.len. cbn [length]. rewrite length_map.
        pose proof (range2_len 3 (card + 1) ltac:(lia)) as E. unfold Py.len in E. lia.
      * intros op q Hop Hq. unfold grover_rudolph_circuit in Hop.
        pose proof (reversed_qubits_len num_qubits ltac:(lia)) as Hlen.
        destruct Hop as [<-|Hop].
        -- cbn [op_qubits] in Hq. destruct Hq as [<-|[]].
           apply nth_In. unfold Py.len in Hlen. lia.
        -- apply in_map_iff in Hop as (step & <- & Hs). apply range2_in in Hs.
           destruct (controlled_rotation_shape num_qubits angles card step Hc Hn
                       ltac:(lia)) as (a & l & vs & E & _).
           rewrite E in Hq. cbn [op_qubits] in Hq.
           rewrite <- (firstn_skipn (Z.to_nat (l + 1)) (reversed_qubits num_qubits)).
           apply in_or_app. now left.
Qed.

Lemma gr_gate_spec_witness :
  init 2 5 = Raise ValueError /\
  _decompose_ (Build 3 5) [LineQubit 0; LineQubit 1; LineQubit 2; LineQubit 3]
    = Raise ValueError /\
  exists circuit,
    _decompose_ (Build 3 5) [LineQubit 0; LineQubit 1; LineQubit 2] = Ret circuit /\
    Py.len circuit = 5 - 1.
Proof.
  split; [|split].
  - apply (proj1 (gr_gate_spec 2 5 []));
      [unfold Py.log2_exact_bound; lia | right; vm_compute; reflexivity].
  - apply (proj2 (gr_gate_spec 3 5
                    [LineQubit 0; LineQubit 1; LineQubit 2; LineQubit 3])).
    + unfold Py.log2_exact_bound. lia.
    + vm_compute. discriminate.
    + vm_compute. discriminate.
  - destruct (proj2 (gr_gate_spec 3 5 [LineQubit 0; LineQubit 1; LineQubit 2]))
      as (_ & _ & H);
      [unfold Py.log2_exact_bound; lia | vm_compute; discriminate |].
    destruct H as (circuit & E & _ & L & _); [reflexivity|].
    exists circuit. auto.
Defined.

End GrGate.

(** ** The Gray-code gate on basis states *)

Section GraySemantics.

Import gray_code_gate.

Lemma Qid_eqb_spec a b : reflect (a = b) (Qid_eqb a b).
Proof.
  destruct a as [s|x], b as [u|y]; cbn [Qid_eqb];
    try (constructor; discriminate).
  - destruct (String.eqb_spec s u); constructor; congruence.
  - destruct (Z.eqb_spec x y); constructor; congruence.
Qed.

Lemma flip_same q st : flip q st q = negb (st q).
Proof. unfold flip. destruct (Qid_eqb_spec q q); congruence. Qed.

Lemma flip_other q q' st : q' <> q -> flip q st q' = st q'.
Proof. intros H. unfold flip. destruct (Qid_eqb_spec q' q); congruence. Qed.

Lemma read_flip_notin q st qs : ~ In q qs -> read (flip q st) qs = read st qs.
Proof.
  intros H. unfold read. apply map_ext_in. intros q' Hq'.
  rewrite flip_other; [reflexivity|]. intros ->. contradiction.
Qed.

Lemma read_ext st st' qs :
  (forall q, In q qs -> st' q = st q) -> read st' qs = read st qs.
Proof. intros H. unfold read. apply map_ext_in. intros q Hq. now rewrite H. Qed.

Lemma flips_flips_on qubits s1 : forall s2 k,
  (k + length s1 <= length qubits)%nat ->
  flips qubits k s1 s2 = flips_on (skipn k qubits) s1 s2.
Proof.
  induction s1 as [|b1 r1 IH]; intros [|b2 r2] k Hk; cbn [flips];
    try (destruct (skipn k qubits); reflexivity).
  simpl length in Hk.
  rewrite (skipn_cons_nth (LineQubit 0) qubits k) by lia.
  cbn [flips_on]. rewrite IH by lia. reflexivity.
Qed.

(** What the gate decomposes into, for bit strings as long as the qubit
    list. *)
Lemma gray_decompose_flips num_qubits s1 s2 qubits :
  binary s1 -> binary s2 ->
  length s1 = length qubits -> length s2 = length qubits ->
  _decompose_ (Build num_qubits s1 s2) qubits = Ret (flips_on qubits s1 s2).
Proof.
  intros H1 H2 L1 L2. unfold _decompose_. cbn [binary_str_1 binary_str_2].
  rewrite mapM_xor_chars by assumption. cbn [bind].
  unfold Py.enumerate, Py.range, Py.len.
  rewrite length_map, length_combine, L1, L2, Nat.min_id, Nat2Z.id.
  rewrite <- L1. rewrite decompose_for_flips; auto; try lia.
  rewrite flips_flips_on by lia. reflexivity.
Qed.

Lemma bit_of_negb b c1 c2 :
  is_bit c1 -> is_bit c2 -> c1 <> c2 ->
  bit_of b = bit_val c1 -> bit_of (negb b) = bit_val c2.
Proof.
  intros [->| ->] [->| ->] Hne; try congruence; destruct b; cbn; congruence.
Qed.

(** Flipping the qubits where two bit strings differ turns a state that
    shows the first string into one that shows the second. *)
Lemma apply_flips_on qs : forall s1 s2 st,
  NoDup qs -> binary s1 -> binary s2 ->
  length s1 = length qs -> length s2 = length qs ->
  read st qs = map bit_val s1 ->
  exists st',
    apply_flips (flips_on qs s1 s2) st = Some st' /\
    run (flips_on qs s1 s2) st = Some st' /\
    read st' qs = map bit_val s2 /\
    (forall q, ~ In q qs -> st' q = st q).
Proof.
  induction qs as [|q qs IH]; intros [|b1 r1] [|b2 r2] st Hnd B1 B2 L1 L2 Hr;
    simpl in L1, L2; try discriminate.
  - exists st. repeat split; reflexivity.
  - inversion Hnd as [|? ? Hq Hnd']; subst.
    inversion B1 as [|? ? Hb1 B1']; inversion B2 as [|? ? Hb2 B2']; subst.
    cbn [read map] in Hr. injection Hr as Hq0 Hr'. fold (read st qs) in Hr'.
    cbn [flips_on].
    destruct (Ascii.eqb_spec b1 b2) as [->|Hne]; cbn [app].
    + destruct (IH r1 r2 st Hnd' B1' B2' ltac:(lia) ltac:(lia) Hr')
        as (st' & E1 & E2 & Hr2 & Hframe).
      exists st'. split; [exact E1|]. split; [exact E2|]. split.
      * cbn [read map]. fold (read st' qs). rewrite Hr2, Hframe by assumption.
        now rewrite Hq0.
      * intros q' Hq'. apply Hframe. intros Hin. apply Hq'. now right.
    + destruct (IH r1 r2 (flip q st) Hnd' B1' B2' ltac:(lia) ltac:(lia))
        as (st' & E1 & E2 & Hr2 & Hframe).
      { now rewrite read_flip_notin. }
      exists st'. split; [exact E1|]. split; [exact E2|]. split.
      * cbn [read map]. fold (read st' qs). rewrite Hr2, Hframe by assumption.
        rewrite flip_same. f_equal. now apply (bit_of_negb _ b1 b2).
      * intros q' Hq'. rewrite Hframe by (intros Hin; apply Hq'; now right).
        apply flip_other. intros ->. apply Hq'. now left.
Qed.

Lemma rotation_for_decompose qubits ibits : forall circuit,
  rotation_for qubits ibits circuit =
    (ops <- decompose_for qubits ibits ;; Ret (circuit ++ ops)).
Proof.
  induction ibits as [|[i bit] rest IH]; intros circuit;
    cbn [rotation_for decompose_for bind].
  - now rewrite app_nil_r.
  - destruct (bit =? 1); [|apply IH].
    destruct (Py.getitem qubits i) as [q| |]; cbn [bind]; try reflexivity.
    rewrite IH. destruct (decompose_for qubits rest); cbn [bind]; try reflexivity.
    now rewrite <- app_assoc.
Qed.

Lemma decompose_for_returns qubits offset : forall vec,
  (offset + length vec <= length qubits)%nat ->
  exists ops,
    decompose_for qubits (combine (map Z.of_nat (seq offset (length vec))) vec)
      = Ret ops /\
    length ops = length (filter (fun b => b =? 1) vec) /\
    forall op, In op ops -> exists q, In q qubits /\ op = on X [q].
Proof.
  intros vec. revert offset. induction vec as [|b vec IH]; intros offset Hk.
  - exists []. split; [reflexivity|]. split; [reflexivity | intros ? []].
  - simpl length in Hk. cbn [length seq map combine decompose_for filter].
    destruct (IH (S offset) ltac:(lia)) as (ops & E & L & Hall).
    destruct (b =? 1).
    + rewrite (getitem_nth _ _ (LineQubit 0)) by (unfold Py.len; lia).
      cbn [bind]. rewrite E. cbn [bind]. eexists. split; [reflexivity|].
      split; [simpl; lia|]. intros op [<-|Hin]; [|auto].
      eexists. split; [|reflexivity]. apply nth_In. lia.
    + exists ops. auto.
Qed.

(** X15. [gray_code_rotation_circuit] raises [ValueError] for a negative
    [num_qubits] or a vector of another length; otherwise it returns one [X]
    per entry 1 of the vector, each on one of the qubits [x_0 ..].  On
    the difference vector that [gray_code_gate] computes from two strings it
    returns what that gate decomposes into on the same qubits. *)
Theorem gray_code_rotation_circuit_spec (num_qubits : Z) (vec : list Z) :
  (num_qubits < 0 \/ Py.len vec <> num_qubits ->
   gray_code_rotation_circuit num_qubits vec = Raise ValueError) /\
  (Py.len vec = num_qubits ->
   (exists circuit,
      gray_code_rotation_circuit num_qubits vec = Ret circuit /\
      Py.len circuit = Py.len (filter (fun b => b =? 1) vec) /\
      forall op, In op circuit ->
        exists q, In q (x_qubits num_qubits) /\ op = on X [q]) /\
   forall s1 s2,
     Py.mapM xor_chars (combine s1 s2) = Ret vec ->
     gray_code_rotation_circuit num_qubits vec =
       _decompose_ (Build num_qubits s1 s2) (x_qubits num_qubits)).
Proof.
  assert (Htrue : forallb (fun _ : Z => true) vec = true)
    by (now apply forallb_forall).
  split.
  - intros H. unfold gray_code_rotation_circuit.
    destruct (Z.ltb_spec num_qubits 0); [reflexivity|].
    rewrite Htrue. cbn [negb].
    destruct (Z.eqb_spec (Py.len vec) num_qubits); [lia | reflexivity].
  - intros Hl. pose proof (len_nonneg vec) as Hpos.
    assert (Hrot : gray_code_rotation_circuit num_qubits vec =
                   decompose_for (x_qubits num_qubits) (Py.enumerate vec)).
    { unfold gray_code_rotation_circuit.
      destruct (Z.ltb_spec num_qubits 0); [lia|].
      rewrite Htrue, Hl, Z.eqb_refl. cbn [negb].
      fold (x_qubits num_qubits). rewrite rotation_for_decompose.
      destruct (decompose_for _ _); reflexivity. }
    split.
    + rewrite Hrot. unfold Py.enumerate, Py.range. unfold Py.len at 1.
      rewrite Nat2Z.id.
      destruct (decompose_for_returns (x_qubits num_qubits) 0 vec)
        as (ops & E & L & Hall).
      { unfold x_qubits. rewrite length_map.
        pose proof (range2_len 0 num_qubits ltac:(lia)) as El.
        unfold Py.len in *. lia. }
      exists ops. split; [exact E|]. split; [unfold Py.len; lia | exact Hall].
    + intros s1 s2 Hv. rewrite Hrot. unfold _decompose_.
      cbn [binary_str_1 binary_str_2]. rewrite Hv. reflexivity.
Qed.

Lemma gray_code_rotation_circuit_spec_witness :
  gray_code_rotation_circuit 2 [1; 0; 1] = Raise ValueError /\
  gray_code_rotation_circuit 3 [1; 0; 1] =
    _decompose_ (Build 3 ["0"; "1"; "1"] ["1"; "1"; "0"]) (x_qubits 3).
Proof.
  split.
  - apply (proj1 (gray_code_rotation_circuit_spec 2 [1; 0; 1])).
    right. vm_compute. discriminate.
  - apply (proj2 (gray_code_rotation_circuit_spec 3 [1; 0; 1]));
      reflexivity.
Defined.

(** X16. On distinct qubits that show the first bit string, the operations
    the Gray-code gate decomposes into leave them showing the second, and
    change no other qubit; the gate for the two strings in the other order
    decomposes into the same operations, and takes the second string back
    to the first. *)
Theorem gray_code_gate_maps_first_to_second
    (num_qubits : Z) (s1 s2 : str) (qubits : list Qid) (st : basis_state) :
  binary s1 -> binary s2 ->
  Py.len s1 = num_qubits -> Py.len s2 = num_qubits ->
  Py.len qubits = num_qubits -> NoDup qubits ->
  read st qubits = map bit_val s1 ->
  exists ops st',
    _decompose_ (Build num_qubits s1 s2) qubits = Ret ops /\
    _decompose_ (Build num_qubits s2 s1) qubits = Ret ops /\
    run ops st = Some st' /\
    read st' qubits = map bit_val s2 /\
    (forall q, ~ In q qubits -> st' q = st q) /\
    exists st'', run ops st' = Some st'' /\
                 read st'' qubits = map bit_val s1.
Proof.
  intros B1 B2 L1 L2 Lq Hnd Hr.
  assert (E1 : length s1 = length qubits) by (unfold Py.len in *; lia).
  assert (E2 : length s2 = length qubits) by (unfold Py.len in *; lia).
  assert (Hsym : forall qs a b, flips_on qs a b = flips_on qs b a).
  { induction qs as [|q qs IH]; intros [|x a] [|y b]; cbn [flips_on];
      try reflexivity.
    rewrite IH, (Ascii.eqb_sym x y). reflexivity. }
  destruct (apply_flips_on qubits s1 s2 st Hnd B1 B2 E1 E2 Hr)
    as (st' & _ & Hrun & Hr' & Hframe).
  destruct (apply_flips_on qubits s2 s1 st' Hnd B2 B1 E2 E1 Hr')
    as (st'' & _ & Hrun' & Hr'' & _).
  exists (flips_on qubits s1 s2), st'.
  split; [now apply gray_decompose_flips|].
  split; [rewrite Hsym; now apply gray_decompose_flips|].
  split; [exact Hrun|]. split; [exact Hr'|]. split; [exact Hframe|].
  exists st''. rewrite Hsym. auto.
Qed.

Lemma gray_code_gate_maps_first_to_second_witness :
  exists ops st',
    _decompose_ (Build 2 ["0"; "1"] ["1"; "1"]) [LineQubit 0; LineQubit 1] = Ret ops /\
    run ops (fun q => Qid_eqb q (LineQubit 1)) = Some st' /\
    read st' [LineQubit 0; LineQubit 1] = map bit_val ["1"; "1"].
Proof.
  destruct (gray_code_gate_maps_first_to_second 2 ["0"; "1"] ["1"; "1"]
              [LineQubit 0; LineQubit 1] (fun q => Qid_eqb q (LineQubit 1)))
    as (ops & st' & E & _ & R & Hr & _).
  - repeat constructor; (now left) || (now right).
  - repeat constructor; (now left) || (now right).
  - reflexivity.
  - reflexivity.
  - reflexivity.
  - repeat constructor; simpl; intuition discriminate.
  - reflexivity.
  - exists ops, st'. auto.
Defined.

End GraySemantics.

(** ** The cycle gate on basis states *)

Section CycleSemantics.

Variable nq : Z.
Variable cyc : list Z.
Variable qubits : list Qid.

Hypothesis Hnq : 1 <= nq.
Hypothesis Hrange : Forall (fun x => 0 <= x < 2 ^ nq) cyc.
Hypothesis Hlen : Py.len qubits = nq + 1.
Hypothesis Hdistinct : NoDup qubits.

Lemma register_split :
  qubits = firstn (Z.to_nat nq) qubits ++ [nth (Z.to_nat nq) qubits (LineQubit 0)].
Proof.
  rewrite <- (firstn_skipn (Z.to_nat nq) qubits) at 1. f_equal.
  assert (Hs : length (skipn (Z.to_nat nq) qubits) = 1%nat)
    by (rewrite length_skipn; unfold Py.len in Hlen; lia).
  rewrite <- (firstn_skipn (Z.to_nat nq) qubits) at 2.
  rewrite app_nth2 by (rewrite length_firstn; unfold Py.len in Hlen; lia).
  rewrite length_firstn.
  replace (Z.to_nat nq - Nat.min (Z.to_nat nq) (length qubits))%nat
    with 0%nat by (unfold Py.len in Hlen; lia).
  destruct (skipn (Z.to_nat nq) qubits) as [|q [|q' r]];
    simpl in Hs; try lia. reflexivity.
Qed.

Lemma data_length : length (firstn (Z.to_nat nq) qubits) = Z.to_nat nq.
Proof. rewrite length_firstn. unfold Py.len in Hlen. lia. Qed.

Lemma data_NoDup : NoDup (firstn (Z.to_nat nq) qubits).
Proof. now apply NoDup_firstn. Qed.

Lemma ancilla_not_data :
  ~ In (nth (Z.to_nat nq) qubits (LineQubit 0)) (firstn (Z.to_nat nq) qubits).
Proof.
  pose proof Hdistinct as H. rewrite register_split in H.
  apply NoDup_remove_2 in H. now rewrite app_nil_r in H.
Qed.

Lemma ancilla_in : In (nth (Z.to_nat nq) qubits (LineQubit 0)) qubits.
Proof. apply nth_In. unfold Py.len in Hlen. lia. Qed.

Lemma data_in q : In q (firstn (Z.to_nat nq) qubits) -> In q qubits.
Proof.
  intros H. rewrite <- (firstn_skipn (Z.to_nat nq) qubits).
  apply in_or_app. now left.
Qed.

Lemma map_bit_val_inj s : forall u,
  binary s -> binary u -> map bit_val s = map bit_val u -> s = u.
Proof.
  induction s as [|a s IH]; intros [|b u] Hs Hu E; cbn [map] in E;
    try discriminate; [reflexivity|].
  inversion Hs; inversion Hu; subst. injection E as E1 E2.
  f_equal; [now apply bit_val_inj | now apply IH].
Qed.

Lemma rendering_inj x y :
  0 <= x < 2 ^ nq -> 0 <= y < 2 ^ nq ->
  map bit_val (Py.format_0b nq x) = map bit_val (Py.format_0b nq y) -> x = y.
Proof.
  intros Hx Hy E.
  destruct (format_0b_spec nq x Hnq Hx) as (Bx & _ & Vx).
  destruct (format_0b_spec nq y Hnq Hy) as (By & _ & Vy).
  apply map_bit_val_inj in E; auto. rewrite <- Vx, <- Vy, E. reflexivity.
Qed.

Lemma list_Z_eqb_true a b : list_Z_eqb a b = true <-> a = b.
Proof.
  unfold list_Z_eqb. destruct (list_eq_dec Z.eq_dec a b); split;
    auto; try discriminate; contradiction.
Qed.

(** The marking gate flips the ancilla exactly when the data show its
    pattern. *)
Lemma mark_step st x a y :
  register_shows nq qubits st x a ->
  0 <= x < 2 ^ nq -> 0 <= y < 2 ^ nq ->
  apply_op (mark nq (firstn (Z.to_nat nq) qubits)
                 (nth (Z.to_nat nq) qubits (LineQubit 0)) y) st =
    Some (if x =? y then flip (nth (Z.to_nat nq) qubits (LineQubit 0)) st else st).
Proof.
  intros [Hd Ha] Hx Hy. unfold mark, apply_op. cbn [apply_gate].
  destruct (format_0b_spec nq y Hnq Hy) as (By & Ly & _).
  assert (Lv : Py.len (map bit_val (Py.format_0b nq y)) = nq)
    by (unfold Py.len in *; now rewrite length_map).
  rewrite firstn_app, firstn_all2 by (rewrite data_length; lia).
  rewrite data_length, Nat.sub_diag, firstn_O, app_nil_r.
  rewrite skipn_app, skipn_all2 by (rewrite data_length; lia).
  rewrite data_length, Nat.sub_diag. cbn [skipn app].
  rewrite Lv, Z.eqb_refl.
  replace (Py.len (firstn (Z.to_nat nq) qubits) =? nq) with true
    by (symmetry; apply Z.eqb_eq; unfold Py.len; rewrite data_length; lia).
  cbn [negb orb]. unfold holds in Hd. rewrite Hd.
  destruct (Z.eqb_spec x y) as [->|Hne].
  - replace (list_Z_eqb _ _) with true by (symmetry; now apply list_Z_eqb_true).
    reflexivity.
  - destruct (list_Z_eqb _ _) eqn:E; [|reflexivity].
    apply list_Z_eqb_true, rendering_inj in E; auto. contradiction.
Qed.

Lemma flip_ancilla_shows st x a :
  register_shows nq qubits st x a ->
  register_shows nq qubits (flip (nth (Z.to_nat nq) qubits (LineQubit 0)) st)
                 x (negb a) /\
  agree_outside qubits (flip (nth (Z.to_nat nq) qubits (LineQubit 0)) st) st.
Proof.
  intros [Hd Ha]. split; [split|].
  - unfold holds in *. rewrite read_flip_notin by apply ancilla_not_data. exact Hd.
  - rewrite flip_same, Ha. reflexivity.
  - intros q Hq. apply flip_other. intros ->. apply Hq, ancilla_in.
Qed.

Lemma gray_step_off st y z :
  st (nth (Z.to_nat nq) qubits (LineQubit 0)) = false ->
  apply_op (gray_step nq (firstn (Z.to_nat nq) qubits)
                      (nth (Z.to_nat nq) qubits (LineQubit 0)) y z) st = Some st.
Proof.
  intros Ha. unfold gray_step, apply_op. cbn [apply_gate].
  change (Z.to_nat 1) with 1%nat. cbn [firstn skipn].
  change (Py.len [1] =? 1) with true.
  change (Py.len [nth (Z.to_nat nq) qubits (LineQubit 0)] =? 1) with true.
  cbn [negb orb read map]. rewrite Ha. reflexivity.
Qed.

Lemma gray_step_on st y z :
  register_shows nq qubits st y true ->
  0 <= y < 2 ^ nq -> 0 <= z < 2 ^ nq ->
  exists st',
    apply_op (gray_step nq (firstn (Z.to_nat nq) qubits)
                        (nth (Z.to_nat nq) qubits (LineQubit 0)) y z) st = Some st' /\
    register_shows nq qubits st' z true /\
    agree_outside qubits st' st.
Proof.
  intros [Hd Ha] Hy Hz. unfold gray_step, apply_op. cbn [apply_gate].
  change (Z.to_nat 1) with 1%nat. cbn [firstn skipn].
  change (Py.len [1] =? 1) with true.
  change (Py.len [nth (Z.to_nat nq) qubits (LineQubit 0)] =? 1) with true.
  cbn [negb orb read map]. rewrite Ha. cbn [bit_of].
  replace (list_Z_eqb [1] [1]) with true by (symmetry; now apply list_Z_eqb_true).
  destruct (format_0b_spec nq y Hnq Hy) as (By & Ly & _).
  destruct (format_0b_spec nq z Hnq Hz) as (Bz & Lz & _).
  assert (Ey : length (Py.format_0b nq y) = length (firstn (Z.to_nat nq) qubits))
    by (rewrite data_length; unfold Py.len in Ly; lia).
  assert (Ez : length (Py.format_0b nq z) = length (firstn (Z.to_nat nq) qubits))
    by (rewrite data_length; unfold Py.len in Lz; lia).
  rewrite gray_decompose_flips by assumption.
  destruct (apply_flips_on _ _ _ st data_NoDup By Bz Ey Ez Hd)
    as (st' & E & _ & Hr & Hframe).
  exists st'. split; [exact E|]. split; [split|].
  - exact Hr.
  - rewrite Hframe by apply ancilla_not_data. exact Ha.
  - intros q Hq. apply Hframe. intros Hin. apply Hq. now apply data_in.
Qed.

Lemma run_app ops1 : forall ops2 st,
  run (ops1 ++ ops2) st =
    match run ops1 st with
    | Some st' => run ops2 st'
    | None => None
    end.
Proof.
  induction ops1 as [|o ops1 IH]; intros ops2 st; cbn [app run]; [reflexivity|].
  destruct (apply_op o st); [apply IH | reflexivity].
Qed.

Lemma cyc_nth_range k :
  0 <= k < Py.len cyc -> 0 <= nth (Z.to_nat k) cyc 0 < 2 ^ nq.
Proof. now apply cycle_nth_range. Qed.

Lemma next_index_range k :
  0 <= k < Py.len cyc -> 0 <= (k + 1) mod Py.len cyc < Py.len cyc.
Proof. intros. apply Z.mod_pos_bound. lia. Qed.

(** Passes whose pattern the data do not show, run with the ancilla at 0,
    change nothing. *)
Lemma run_idle st x ks :
  register_shows nq qubits st x false -> 0 <= x < 2 ^ nq ->
  (forall k, In k ks -> 0 <= k < Py.len cyc /\ nth (Z.to_nat k) cyc 0 <> x) ->
  run (flat_map (cycle_body nq qubits cyc) ks) st = Some st.
Proof.
  intros Hs Hx. induction ks as [|k ks IH]; intros Hks; [reflexivity|].
  cbn [flat_map]. rewrite run_app.
  destruct (Hks k ltac:(now left)) as [Hk Hne].
  unfold cycle_body at 1. cbn [run].
  rewrite (mark_step st x false) by (auto using cyc_nth_range).
  destruct (Z.eqb_spec x (nth (Z.to_nat k) cyc 0)); [congruence|].
  rewrite gray_step_off by apply Hs.
  apply IH. intros k' Hk'. apply Hks. now right.
Qed.

(** The pass whose pattern the data show moves them one step along the
    cycle and leaves the ancilla at 1. *)
Lemma run_hit st k :
  register_shows nq qubits st (nth (Z.to_nat k) cyc 0) false ->
  0 <= k < Py.len cyc ->
  exists st',
    run (cycle_body nq qubits cyc k) st = Some st' /\
    register_shows nq qubits st'
      (nth (Z.to_nat ((k + 1) mod Py.len cyc)) cyc 0) true /\
    agree_outside qubits st' st.
Proof.
  intros Hs Hk. unfold cycle_body. cbn [run].
  rewrite (mark_step st _ false _ Hs (cyc_nth_range k Hk) (cyc_nth_range k Hk)).
  rewrite Z.eqb_refl.
  destruct (flip_ancilla_shows st _ _ Hs) as [Hs1 Hf1]. cbn [negb] in Hs1.
  destruct (gray_step_on _ _ (nth (Z.to_nat ((k + 1) mod Py.len cyc)) cyc 0) Hs1)
    as (st' & E & Hs2 & Hf2);
    [now apply cyc_nth_range | apply cyc_nth_range; now apply next_index_range |].
  rewrite E. exists st'. split; [reflexivity|]. split; [exact Hs2|].
  intros q Hq. rewrite Hf2, Hf1 by assumption. reflexivity.
Qed.

(** The pass after it finds the data at its own pattern and takes the
    ancilla back to 0. *)
Lemma run_settle st k :
  register_shows nq qubits st (nth (Z.to_nat k) cyc 0) true ->
  0 <= k < Py.len cyc ->
  exists st',
    run (cycle_body nq qubits cyc k) st = Some st' /\
    register_shows nq qubits st' (nth (Z.to_nat k) cyc 0) false /\
    agree_outside qubits st' st.
Proof.
  intros Hs Hk. unfold cycle_body. cbn [run].
  rewrite (mark_step st _ true _ Hs (cyc_nth_range k Hk) (cyc_nth_range k Hk)).
  rewrite Z.eqb_refl.
  destruct (flip_ancilla_shows st _ _ Hs) as [Hs1 Hf1]. cbn [negb] in Hs1.
  rewrite gray_step_off by apply Hs1.
  eexists. split; [reflexivity|]. split; assumption.
Qed.

Lemma index_of_some x l : forall k,
  index_of x l = Some k -> (k < length l)%nat /\ nth k l 0 = x.
Proof.
  induction l as [|y l IH]; intros k H; cbn [index_of] in H; [discriminate|].
  destruct (Z.eqb_spec y x) as [->|Hne].
  - injection H as <-. simpl. split; [lia | reflexivity].
  - destruct (index_of x l) as [i|]; [|discriminate]. injection H as <-.
    destruct (IH i eq_refl) as [Hi E]. simpl. split; [lia | exact E].
Qed.

Lemma index_of_none x l : index_of x l = None -> ~ In x l.
Proof.
  induction l as [|y l IH]; intros H; cbn [index_of] in H; [intros []|].
  destruct (Z.eqb_spec y x) as [->|Hne]; [discriminate|].
  destruct (index_of x l); [discriminate|].
  intros [E|Hin]; [contradiction | now apply IH].
Qed.

Lemma index_of_nth l : forall k,
  NoDup l -> (k < length l)%nat -> index_of (nth k l 0) l = Some k.
Proof.
  induction l as [|y l IH]; intros k Hnd Hk; simpl in Hk; [lia|].
  inversion Hnd as [|? ? Hy Hnd']; subst. destruct k as [|k]; cbn [nth index_of].
  - now rewrite Z.eqb_refl.
  - destruct (Z.eqb_spec y (nth k l 0)) as [E|_].
    + exfalso. apply Hy. rewrite E. apply nth_In. lia.
    + rewrite IH by (auto; lia). reflexivity.
Qed.

Hypothesis Hcyc : NoDup cyc.
Hypothesis Hne : cyc <> [].

Lemma cyc_nth_inj i j :
  (i < length cyc)%nat -> (j < length cyc)%nat ->
  nth i cyc 0 = nth j cyc 0 -> i = j.
Proof. intros Hi Hj E. eapply NoDup_nth; eauto. Qed.

(** The whole gate: from a state that shows [x] with the ancilla at 0 to
    one that shows the successor of [x] along the cycle, ancilla at 0. *)
Lemma cycle_run st x :
  0 <= x < 2 ^ nq ->
  register_shows nq qubits st x false ->
  exists st',
    run (cycle_circuit nq qubits cyc) st = Some st' /\
    register_shows nq qubits st' (cycle_next cyc x) false /\
    agree_outside qubits st' st.
Proof.
  intros Hx Hs.
  assert (Hl : (0 < length cyc)%nat) by (destruct cyc; [congruence | simpl; lia]).
  change (cycle_circuit nq qubits cyc)
    with (flat_map (cycle_body nq qubits cyc) (Py.range (Py.len cyc))
          ++ [mark nq (firstn (Z.to_nat nq) qubits)
                   (nth (Z.to_nat nq) qubits (LineQubit 0)) (nth 0 cyc 0)]).
  assert (H0 : 0 <= nth 0 cyc 0 < 2 ^ nq).
  { apply (cyc_nth_range 0). unfold Py.len. lia. }
  rewrite run_app. unfold cycle_next.
  destruct (index_of x cyc) as [m|] eqn:Ei.
  - apply index_of_some in Ei as [Hm Em].
    unfold Py.range, Py.len at 1. rewrite Nat2Z.id.
    assert (Eseq : seq 0 (length cyc) = seq 0 m ++ m :: seq (S m) (length cyc - S m)).
    { replace (length cyc) with (m + S (length cyc - S m))%nat at 1 by lia.
      rewrite seq_app. reflexivity. }
    rewrite Eseq, map_app, flat_map_app, run_app. cbn [map flat_map].
    rewrite run_idle with (x := x); auto.
    2:{ intros k Hk. apply in_map_iff in Hk as (i & <- & Hi). apply in_seq in Hi.
        rewrite Nat2Z.id. split; [unfold Py.len; lia|].
        intros E. rewrite <- Em in E. apply cyc_nth_inj in E; lia. }
    rewrite run_app.
    assert (Hsm : register_shows nq qubits st (nth (Z.to_nat (Z.of_nat m)) cyc 0) false)
      by (now rewrite Nat2Z.id, Em).
    destruct (run_hit st (Z.of_nat m) Hsm ltac:(unfold Py.len; lia))
      as (st1 & E1 & Hs1 & Hf1).
    rewrite E1.
    set (c' := nth (Z.to_nat ((Z.of_nat m + 1) mod Py.len cyc)) cyc 0) in *.
    destruct (Nat.eq_dec (S m) (length cyc)) as [Hlast|Hmore].
    + replace (length cyc - S m)%nat with 0%nat by lia. cbn [seq map flat_map run].
      assert (Ec : c' = nth 0 cyc 0).
      { unfold c'. replace (Z.of_nat m + 1) with (Py.len cyc) by (unfold Py.len; lia).
        rewrite Z.mod_same by (unfold Py.len; lia). reflexivity. }
      assert (Hc' : 0 <= c' < 2 ^ nq) by (now rewrite Ec).
      rewrite (mark_step st1 c' true (nth 0 cyc 0) Hs1 Hc' H0).
      rewrite Ec, Z.eqb_refl. rewrite Ec in Hs1.
      destruct (flip_ancilla_shows st1 _ _ Hs1) as [Hs2 Hf2]. cbn [negb] in Hs2.
      eexists. split; [reflexivity|]. split; [exact Hs2|].
      intros q Hq. rewrite Hf2, Hf1 by assumption. reflexivity.
    + replace (length cyc - S m)%nat with (S (length cyc - S (S m))) by lia.
      cbn [seq map flat_map]. rewrite run_app.
      assert (Ec : c' = nth (Z.to_nat (Z.of_nat (S m))) cyc 0).
      { unfold c'. rewrite Z.mod_small by (unfold Py.len; lia). f_equal. lia. }
      rewrite Ec in Hs1.
      destruct (run_settle st1 (Z.of_nat (S m)) Hs1 ltac:(unfold Py.len; lia))
        as (st2 & E2 & Hs2 & Hf2).
      rewrite E2.
      assert (Hc' : 0 <= c' < 2 ^ nq).
      { rewrite Ec. apply cyc_nth_range. unfold Py.len. lia. }
      rewrite <- Ec in Hs2.
      rewrite run_idle with (x := c'); auto.
      2:{ intros k Hk. apply in_map_iff in Hk as (i & <- & Hi). apply in_seq in Hi.
          rewrite Nat2Z.id. split; [unfold Py.len; lia|].
          rewrite Ec, Nat2Z.id. intros E. apply cyc_nth_inj in E; lia. }
      cbn [run]. rewrite (mark_step st2 c' false (nth 0 cyc 0) Hs2 Hc' H0).
      destruct (Z.eqb_spec c' (nth 0 cyc 0)) as [E|_].
      { rewrite Ec, Nat2Z.id in E. apply cyc_nth_inj in E; lia. }
      exists st2. split; [reflexivity|]. split; [exact Hs2|].
      intros q Hq. rewrite Hf2, Hf1 by assumption. reflexivity.
  - apply index_of_none in Ei.
    rewrite run_idle with (x := x); auto.
    2:{ intros k Hk. apply range_in in Hk. split; [exact Hk|].
        intros E. apply Ei. rewrite <- E. apply nth_In. unfold Py.len in Hk. lia. }
    cbn [run]. rewrite (mark_step st x false (nth 0 cyc 0) Hs Hx H0).
    destruct (Z.eqb_spec x (nth 0 cyc 0)) as [E|_].
    { exfalso. apply Ei. rewrite E. apply nth_In. lia. }
    exists st. split; [reflexivity|]. split; [exact Hs|]. intros q _. reflexivity.
Qed.

End CycleSemantics.

Section CycleGateContract.

Import permutation_cycle_gate.

(** X17. For [num_qubits >= 1], a non-empty cycle of pairwise distinct
    values of [[0, 2^num_qubits)] and [num_qubits + 1] distinct qubits, the
    operations [permutation_cycle_gate] decomposes into act on basis
    states with the ancilla at 0 as the cyclic permutation: data qubits that
    show [x_k] end up showing [x_(k+1 mod l)], data qubits that show a value
    off the cycle keep it, the ancilla ends at 0, and no other qubit
    changes. *)
Theorem cycle_gate_permutes_basis_states
    (num_qubits : Z) (cycle : list Z) (qubits : list Qid) :
  1 <= num_qubits -> cycle <> [] -> NoDup cycle ->
  Forall (fun x => 0 <= x < 2 ^ num_qubits) cycle ->
  Py.len qubits = num_qubits + 1 -> NoDup qubits ->
  exists self ops,
    init num_qubits cycle = Ret self /\
    _decompose_ self qubits = Ret ops /\
    (forall st k,
       0 <= k < Py.len cycle ->
       register_shows num_qubits qubits st (nth (Z.to_nat k) cycle 0) false ->
       exists st',
         run ops st = Some st' /\
         register_shows num_qubits qubits st'
           (nth (Z.to_nat ((k + 1) mod Py.len cycle)) cycle 0) false /\
         agree_outside qubits st' st) /\
    (forall st x,
       0 <= x < 2 ^ num_qubits -> ~ In x cycle ->
       register_shows num_qubits qubits st x false ->
       exists st',
         run ops st = Some st' /\
         register_shows num_qubits qubits st' x false /\
         agree_outside qubits st' st).
Proof.
  intros Hn Hne Hnd Hall Hq Hdq.
  exists (Build num_qubits cycle), (cycle_circuit num_qubits qubits cycle).
  split; [apply init_ok; [lia | assumption]|].
  split; [now apply decompose_ok|]. split.
  - intros st k Hk Hs.
    pose proof (cycle_nth_range num_qubits cycle k Hall Hk) as Hx.
    destruct (cycle_run num_qubits cycle qubits Hn Hall Hq Hdq Hnd Hne st _ Hx Hs)
      as (st' & E & Hs' & Hf).
    exists st'. split; [exact E|]. split; [|exact Hf].
    unfold cycle_next in Hs'.
    rewrite (index_of_nth cycle (Z.to_nat k) Hnd) in Hs'
      by (unfold Py.len in Hk; lia).
    rewrite Z2Nat.id in Hs' by lia. exact Hs'.
  - intros st x Hx Hnin Hs.
    destruct (cycle_run num_qubits cycle qubits Hn Hall Hq Hdq Hnd Hne st x Hx Hs)
      as (st' & E & Hs' & Hf).
    exists st'. split; [exact E|]. split; [|exact Hf].
    unfold cycle_next in Hs'.
    destruct (index_of x cycle) as [m|] eqn:Ei; [|exact Hs'].
    apply index_of_some in Ei as [Hm Em]. exfalso. apply Hnin.
    rewrite <- Em. now apply nth_In.
Qed.

Lemma cycle_gate_permutes_basis_states_witness :
  exists self ops,
    init 2 [0; 1; 3] = Ret self /\
    _decompose_ self [LineQubit 0; LineQubit 1; LineQubit 2] = Ret ops.
Proof.
  destruct (cycle_gate_permutes_basis_states 2 [0; 1; 3]
              [LineQubit 0; LineQubit 1; LineQubit 2])
    as (self & ops & Ei & Ed & _).
  - lia.
  - discriminate.
  - repeat constructor; simpl; intuition discriminate.
  - repeat constructor; cbn; lia.
  - reflexivity.
  - repeat constructor; simpl; intuition discriminate.
  - exists self, ops. auto.
Defined.

End CycleGateContract.

(** ** From the cycle decomposition to the cycle gates *)

Section CyclesToGates.

Import SubsetPermutation.

Lemma chain_values target d c :
  chain target d c -> Forall (fun x => In x target) (tl c).
Proof.
  induction 1 as [a Ha|a b c Hlt Hg Hc IH]; cbn [tl]; [constructor|].
  constructor; [now apply getitem_In in Hg | exact IH].
Qed.

(** Along a chain, the successor of an index is the value [target] gives
    it. *)
Lemma chain_next target c a :
  chain target (Py.len target) c -> 0 <= a < Py.len target -> In a c ->
  cycle_next c a = nth (Z.to_nat a) target 0.
Proof.
  intros Hc Ha Hin. pose proof (chain_NoDup _ _ _ Hc) as Hnd.
  apply in_split in Hin as (p & s & E). subst c.
  pose proof (chain_suffix _ _ _ _ _ Hc) as Hs.
  apply chain_head_tail in Hs as [[_ Hd]|(b & s' & -> & _ & Hg & _)]; [lia|].
  rewrite (getitem_nth _ _ 0) in Hg by assumption. injection Hg as Hb.
  unfold cycle_next.
  assert (Ei : index_of a (p ++ a :: b :: s') = Some (length p)).
  { rewrite <- (nth_middle p (b :: s') a 0) at 1.
    apply index_of_nth; [exact Hnd|]. rewrite length_app. simpl. lia. }
  rewrite Ei. unfold Py.len at 1. rewrite length_app. cbn [length].
  rewrite Z.mod_small by lia.
  replace (Z.to_nat (Z.of_nat (length p) + 1)) with (S (length p)) by lia.
  replace (p ++ a :: b :: s') with ((p ++ [a]) ++ b :: s')
    by (now rewrite <- app_assoc).
  replace (S (length p)) with (length (p ++ [a]))
    by (rewrite length_app; simpl; lia).
  rewrite nth_middle. symmetry. exact Hb.
Qed.

Lemma last_as_nth (c : list Z) : last c 0 = nth (length c - 1) c 0.
Proof.
  induction c as [|a [|b c] IH]; [reflexivity | reflexivity|].
  change (last (a :: b :: c) 0) with (last (b :: c) 0). rewrite IH.
  cbn [length Nat.sub nth]. now rewrite Nat.sub_0_r.
Qed.

(** The successor of the last value of a list without repeats is its
    first. *)
Lemma cycle_next_last c :
  NoDup c -> c <> [] -> cycle_next c (last c 0) = hd 0 c.
Proof.
  intros Hnd Hne. unfold cycle_next.
  assert (Hl : (0 < length c)%nat) by (destruct c; [congruence | simpl; lia]).
  rewrite last_as_nth, index_of_nth by (auto; lia).
  replace (Z.of_nat (length c - 1) + 1) with (Py.len c) by (unfold Py.len; lia).
  rewrite Z.mod_same by (unfold Py.len; lia).
  destruct c; [congruence | reflexivity].
Qed.

(** X18. Let every target value lie in [[0, 2^num_qubits)] and the subset
    have at most [2^num_qubits] elements.  Then every cycle that
    [permutation_cycles] returns is accepted by [permutation_cycle_gate]: it
    is non-empty, without repeats, with all values in range.  Read as a
    cyclic permutation, it sends every index of [[0, d)] on it to the value
    [target_subset] gives that index, and its last value back to its
    first. *)
Theorem returned_cycles_fit_the_gate
    (self : t) (fuel : nat) (cycles : list (list Z)) (num_qubits : Z) :
  Forall (fun x => 0 <= x < 2 ^ num_qubits) (target_subset self) ->
  Py.len (target_subset self) <= 2 ^ num_qubits ->
  permutation_cycles fuel self = Ret cycles ->
  forall c, In c cycles ->
    c <> [] /\ NoDup c /\
    Forall (fun x => 0 <= x < 2 ^ num_qubits) c /\
    permutation_cycle_gate.init num_qubits c
      = Ret (permutation_cycle_gate.Build num_qubits c) /\
    (forall a, 0 <= a < Py.len (target_subset self) -> In a c ->
       cycle_next c a = nth (Z.to_nat a) (target_subset self) 0) /\
    cycle_next c (last c 0) = hd 0 c.
Proof.
  intros Hall Hd H c Hin. apply returned_cycles_emitted in H.
  rewrite Forall_forall in H.
  destruct (H c Hin) as (Hc & i & ti & rest & -> & Hi & Hne).
  pose proof (chain_NoDup _ _ _ Hc) as Hnd.
  assert (Hr : Forall (fun x => 0 <= x < 2 ^ num_qubits) (i :: ti :: rest)).
  { constructor; [lia|]. apply chain_values in Hc. cbn [tl] in Hc.
    rewrite Forall_forall in Hall. eapply Forall_impl; [|exact Hc].
    cbn. intros x Hx. now apply Hall. }
  assert (Hn : 0 <= num_qubits).
  { destruct (Z.lt_ge_cases num_qubits 0) as [Hneg|]; [|assumption].
    rewrite Z.pow_neg_r in Hd by lia. lia. }
  split; [discriminate|]. split; [exact Hnd|]. split; [exact Hr|].
  split; [now apply init_ok|]. split.
  - intros a Ha Hina. now apply chain_next.
  - apply cycle_next_last; [exact Hnd | discriminate].
Qed.

Lemma returned_cycles_fit_the_gate_witness :
  permutation_cycles 8 (Build [0; 1; 2; 3] [2; 4; 6; 8])
    = Ret [[0; 2; 6]; [1; 4]; [3; 8]] /\
  [0; 2; 6] <> [] /\ NoDup [0; 2; 6] /\
  Forall (fun x => 0 <= x < 2 ^ 4) [0; 2; 6] /\
  permutation_cycle_gate.init 4 [0; 2; 6]
    = Ret (permutation_cycle_gate.Build 4 [0; 2; 6]) /\
  (forall a, 0 <= a < Py.len [2; 4; 6; 8] -> In a [0; 2; 6] ->
     cycle_next [0; 2; 6] a = nth (Z.to_nat a) [2; 4; 6; 8] 0) /\
  cycle_next [0; 2; 6] (last [0; 2; 6] 0) = hd 0 [0; 2; 6].
Proof.
  split; [reflexivity|].
  apply (returned_cycles_fit_the_gate
           (Build [0; 1; 2; 3] [2; 4; 6; 8]) 8 [[0; 2; 6]; [1; 4]; [3; 8]] 4).
  - repeat constructor; cbn; lia.
  - vm_compute. discriminate.
  - reflexivity.
  - left. reflexivity.
Defined.

End CyclesToGates.

(** ** Angles and control patterns go together *)

Section AnglesMeetTags.

Import GroverRudolphCircuit.

(** Where the [v]-th string of length [L'] sits in the enumeration. *)
Lemma levels_nth_error fuel : forall L L' v,
  0 <= L <= L' -> L' < L + Z.of_nat fuel -> 0 <= v < 2 ^ L' ->
  nth_error (levels L fuel) (Z.to_nat (2 ^ L' - 2 ^ L + v))
    = Some (Py.format_0b L' v).
Proof.
  induction fuel as [|fuel IH]; intros L L' v HL Hf Hv; [lia|].
  cbn [levels]. pose proof (level_len L ltac:(lia)) as Hll. unfold Py.len in Hll.
  assert (Hp : 0 < 2 ^ L) by (apply Z.pow_pos_nonneg; lia).
  destruct (Z.eq_dec L' L) as [->|Hne].
  - rewrite nth_error_app1 by lia.
    replace (2 ^ L - 2 ^ L + v) with v by lia.
    unfold level. rewrite nth_error_map, range_nth_ok by lia. reflexivity.
  - assert (Hmono : 2 ^ (L + 1) <= 2 ^ L') by (apply Z.pow_le_mono_r; lia).
    rewrite Z.pow_add_r in Hmono by lia. change (2 ^ 1) with 2 in Hmono.
    rewrite nth_error_app2 by lia.
    replace (Z.to_nat (2 ^ L' - 2 ^ L + v) - length (level L))%nat
      with (Z.to_nat (2 ^ L' - 2 ^ (L + 1) + v))
      by (rewrite Z.pow_add_r by lia; change (2 ^ 1) with 2; lia).
    apply IH; lia.
Qed.

(** The prefix of angle [step - 2] is the binary signature of the step. *)
Lemma prefix_is_signature self seq step :
  2 < GroverRudolphAngles.card self ->
  GroverRudolphAngles.generate_prefix_binary_sequence self = Ret seq ->
  3 <= step <= GroverRudolphAngles.card self ->
  nth (Z.to_nat (step - 3)) seq [] = tag_bin_sig (tag_of step).
Proof.
  intros Hc E Hs. set (card := GroverRudolphAngles.card self) in *.
  pose proof (levels_len_ge 1 (Z.to_nat card) ltac:(lia)) as Hf.
  rewrite (generate_prefix_spec self (Z.to_nat card)) in E by (fold card; lia).
  injection E as <-. fold card.
  destruct (step_bounds step ltac:(lia)) as (Hl & Hb & HR).
  set (l := Py.ceil_log2 step - 1) in *.
  assert (Hlt : l < card).
  { pose proof (Z.pow_gt_lin_r 2 l ltac:(lia) ltac:(lia)). lia. }
  apply nth_error_nth. rewrite nth_error_firstn.
  replace (Z.to_nat (step - 3) <? Z.to_nat (card - 2))%nat with true
    by (symmetry; apply Nat.ltb_lt; lia).
  replace (step - 3) with (2 ^ l - 2 ^ 1 + (step - 1 - 2 ^ l))
    by (change (2 ^ 1) with 2; lia).
  rewrite levels_nth_error by lia. reflexivity.
Qed.

Lemma get_angles_for_map self binary_sequence : forall angle_lst,
  2 < GroverRudolphAngles.card self ->
  Forall (fun p => binary p /\ 2 ^ Py.len p < GroverRudolphAngles.card self)
         binary_sequence ->
  GroverRudolphAngles.get_angles_for self binary_sequence angle_lst =
    Ret (angle_lst ++ map (prefix_angle self) binary_sequence).
Proof.
  induction binary_sequence as [|p rest IH]; intros acc Hc Hall.
  - cbn. now rewrite app_nil_r.
  - inversion Hall as [|? ? [Hb Hp] Hrest]; subst.
    destruct (partition_counter_ok self p Hc Hb Hp)
      as (_ & _ & N_0 & N_1 & E & H0 & H1).
    cbn [GroverRudolphAngles.get_angles_for map]. unfold prefix_angle at 1.
    rewrite E. cbn [bind].
    rewrite partition_angle_ok by assumption. cbn [bind].
    rewrite IH by assumption. now rewrite <- app_assoc.
Qed.

(** X19. In the circuit [generate_circuit] returns, the angles are those of
    the prefix sequence, in order, and the controlled rotation of each step
    [3..card] belongs to one prefix [p] of that sequence (the one at
    position [step - 2], the empty prefix being at 0): its angle is the
    angle [get_angles] computes from [partition_counter] at [p], its
    control values are the bits of [p], its controls are the first [|p|]
    qubits of the reversed register and its target is the next one. *)
Theorem rotations_follow_prefixes (card num_qbs : Z) :
  2 < card -> Py.ceil_log2 card <= num_qbs ->
  exists seq angles circuit,
    GroverRudolphAngles.generate_prefix_binary_sequence
      (GroverRudolphAngles.Build card) = Ret seq /\
    GroverRudolphAngles.get_angles (GroverRudolphAngles.Build card) = Ret angles /\
    angles = map (prefix_angle (GroverRudolphAngles.Build card)) ([] :: seq) /\
    generate_circuit (Build card) num_qbs = Ret circuit /\
    forall step, 3 <= step <= card ->
      let p := nth (Z.to_nat (step - 2)) ([] :: seq) [] in
      1 <= Py.len p /\
      (exists N_0 N_1,
         GroverRudolphAngles.partition_counter
           (GroverRudolphAngles.Build card) p = Ret (N_0, N_1) /\
         prefix_angle (GroverRudolphAngles.Build card) p = TwoAcosSqrt N_0 N_1) /\
      nth (Z.to_nat (step - 2)) circuit (on X []) =
        on (ControlledGate (Ry (prefix_angle (GroverRudolphAngles.Build card) p))
                           (Py.len p) (map bit_val p))
           (firstn (Z.to_nat (Py.len p + 1)) (reversed_qubits num_qbs)).
Proof.
  intros Hc Hn. set (self := GroverRudolphAngles.Build card).
  assert (Hcs : 2 < GroverRudolphAngles.card self) by exact Hc.
  pose proof (levels_len_ge 1 (Z.to_nat card) ltac:(lia)) as Hf.
  pose proof (generate_prefix_spec self (Z.to_nat card) Hcs ltac:(cbn; lia)) as E.
  cbn [GroverRudolphAngles.card self] in E. fold self in E.
  set (seq := firstn (Z.to_nat (card - 2)) (levels 1 (Z.to_nat card))) in *.
  pose proof (generated_prefixes_fit self seq Hcs E) as Hfit.
  pose proof (generate_prefix_len self seq Hcs E) as Hlen.
  cbn [GroverRudolphAngles.card self] in Hlen.
  assert (Ea : GroverRudolphAngles.get_angles self
               = Ret (map (prefix_angle self) ([] :: seq))).
  { unfold GroverRudolphAngles.get_angles. rewrite E. cbn [bind].
    now rewrite get_angles_for_map. }
  destruct (generate_circuit_ok (Build card) num_qbs Hc Hn) as (angles & Ea' & La & Eg).
  cbn [GroverRudolphCircuit.card] in Ea', Eg. fold self in Ea'.
  rewrite Ea in Ea'. injection Ea' as <-.
  exists seq, (map (prefix_angle self) ([] :: seq)),
         (grover_rudolph_circuit num_qbs card (map (prefix_angle self) ([] :: seq))).
  split; [exact E|]. split; [exact Ea|]. split; [reflexivity|]. split; [exact Eg|].
  intros step Hs p.
  assert (Ep : p = tag_bin_sig (tag_of step)).
  { unfold p. replace (Z.to_nat (step - 2)) with (S (Z.to_nat (step - 3))) by lia.
    cbn [nth]. now apply (prefix_is_signature self). }
  destruct (step_bounds step ltac:(lia)) as (Hl & Hb & HR).
  destruct (format_0b_spec _ _ Hl HR) as (B & L & _).
  assert (Lp : Py.len p = Py.ceil_log2 step - 1) by (rewrite Ep; exact L).
  assert (Hin : In p ([] :: seq)).
  { unfold p. apply nth_In. cbn [length]. unfold Py.len in Hlen. lia. }
  rewrite Forall_forall in Hfit. destruct (Hfit p Hin) as [Hbp Hpp].
  destruct (partition_counter_ok self p Hcs Hbp Hpp)
    as (_ & _ & N_0 & N_1 & Ec & _ & _).
  split; [lia|]. split.
  - exists N_0, N_1. split; [exact Ec|]. unfold prefix_angle. now rewrite Ec.
  - unfold grover_rudolph_circuit.
    replace (Z.to_nat (step - 2)) with (S (Z.to_nat (step - 3))) at 1 by lia.
    cbn [nth].
    set (f := controlled_rotation (reversed_qubits num_qbs)
                (map (prefix_angle self) ([] :: seq))).
    rewrite (nth_indep _ (on X []) (f 0)).
    2:{ rewrite length_map.
        pose proof (range2_len 3 (card + 1) ltac:(lia)) as El.
        unfold Py.len in El. lia. }
    rewrite map_nth, range2_nth by lia. unfold f, controlled_rotation.
    cbn [tag_of tag_l tag_ctrl_sig]. cbn [tag_of tag_bin_sig] in Ep.
    rewrite <- Ep, <- Lp.
    assert (Hmono : Py.ceil_log2 step <= Py.ceil_log2 card)
      by (apply Z.log2_up_le_mono; lia).
    destruct (ceil_log2_spec card Hc) as [_ Hn2].
    pose proof (reversed_qubits_len num_qbs ltac:(lia)) as El.
    pose proof (len_nonneg p) as Hp0.
    assert (Hq : (Z.to_nat (Py.len p) < length (reversed_qubits num_qbs))%nat)
      by (unfold Py.len in El; lia).
    rewrite (firstn_succ_nth (LineQubit 0)) by exact Hq.
    replace (S (Z.to_nat (Py.len p))) with (Z.to_nat (Py.len p + 1)) by lia.
    do 3 f_equal.
    rewrite (nth_indep _ (TwoAcosSqrt 0 0) (prefix_angle self []))
      by (rewrite length_map; cbn [length]; unfold Py.len in Hlen; lia).
    rewrite map_nth. reflexivity.
Qed.

Lemma rotations_follow_prefixes_witness :
  exists seq angles circuit,
    GroverRudolphAngles.generate_prefix_binary_sequence
      (GroverRudolphAngles.Build 5) = Ret seq /\
    GroverRudolphAngles.get_angles (GroverRudolphAngles.Build 5) = Ret angles /\
    generate_circuit (Build 5) 3 = Ret circuit.
Proof.
  destruct (rotations_follow_prefixes 5 3)
    as (seq & angles & circuit & E1 & E2 & _ & E3 & _).
  - lia.
  - vm_compute. discriminate.
  - exists seq, angles, circuit. auto.
Defined.

End AnglesMeetTags.
